(** * Sobel edge detection: sequential and row-partitioned convolution

    A shallow embedding of the Go programs of the repository

    - [src/Go/main.go] and [src/Javascript/main.go]: the sequential
      [convolve], the inlined magnitude/normalisation loops and the
      sequential [float64ArrayToImage];
    - [src/unnamed/part_000]: [convolveParallel], [combineAndNormalize]
      and the row-partitioned [float64ArrayToImage];
    - [src/Javascript/maingo.go]: the variants that start one goroutine
      for every row (for every column in [convertToGrayscale]);
    - in the three programs, the way from the decoded picture to the
      grid: [isColorImage], [convertToGrayscale], [imageToFloat64Array],
      and the part of [main] that chains the stages.  Reading and
      writing files is left out.

    Go values are modelled as follows.

    - [int] is [Z].  Every integer the functions compute is a slice length,
      a loop index below one, a sum of two lengths, a product
      [workerID * rowsPerWorker <= height] or a pixel offset below
      [width * height], the size of a buffer that exists, so no 64-bit
      wrap-around can occur and none is written out.
    - [[]T] is [list T]; [[][]float64] is a list of rows.  Reading or
      writing outside a slice, slicing outside it, allocating a negative
      length and dividing an integer by zero are run-time panics: a
      function returns an [outcome], either [Done v] or [Panic p].
    - [float64] is the kernel's binary64 type [float] (all NaNs are one
      value there).  Every operation is rounded on its own, as the gc
      compiler does on amd64: [x*y + z] is a product followed by a sum,
      not a fused multiply-add.  The convolution only uses [0.0], [+] and
      [*]; it is written once over an arbitrary carrier and instantiated
      at [float], which also lets the algebraic claims be examined in
      exact arithmetic.
    - A goroutine is a list of atomic actions on the shared slice; a
      schedule picks the goroutine that moves next.  The channel of
      [convolveParallel] has room for [height] messages and is drained by
      the caller, so no send blocks for ever; blocking is not modelled. *)

From Stdlib Require Import ZArith Lia Floats.
From stdpp Require Import base list.

Local Open Scope Z_scope.

(** ** The Go run time *)

Module Go.

Inductive panic : Set :=
| IndexOutOfRange   (* index out of range *)
| SliceBounds       (* slice bounds out of range *)
| MakeSliceLen      (* makeslice: len out of range *)
| DivideByZero.     (* integer divide by zero *)

Inductive outcome (A : Type) : Type :=
| Done (a : A)
| Panic (p : panic).
Arguments Done {A} a.
Arguments Panic {A} p.

Definition bind {A B : Type} (m : outcome A) (k : A -> outcome B) : outcome B :=
  match m with
  | Done a => k a
  | Panic p => Panic p
  end.

Declare Scope go_scope.
Delimit Scope go_scope with go.
Notation "x <- m ;; k" := (bind m (fun x => k))
  (at level 100, m at next level, right associativity) : go_scope.
Local Open Scope go_scope.

(** [len(s)] *)
Definition len {A : Type} (s : list A) : Z := Z.of_nat (length s).

(** [make([]T, n)]: [n] copies of the zero value of [T]. *)
Definition make {A : Type} (zero : A) (n : Z) : outcome (list A) :=
  if n <? 0 then Panic MakeSliceLen else Done (replicate (Z.to_nat n) zero).

(** [s[i]] read. *)
Definition index {A : Type} (s : list A) (i : Z) : outcome A :=
  if i <? 0 then Panic IndexOutOfRange
  else match s !! Z.to_nat i with
       | Some x => Done x
       | None => Panic IndexOutOfRange
       end.

(** [s[i] = v] *)
Definition assign {A : Type} (s : list A) (i : Z) (v : A) : outcome (list A) :=
  if (0 <=? i) && (i <? len s) then Done (<[Z.to_nat i := v]> s)
  else Panic IndexOutOfRange.

(** [g[i][j] = v]: the row header [g[i]] is read, its cell [j] written.
    Rows are values here, so the updated row is put back at [i]. *)
Definition assign2 {A : Type} (g : list (list A)) (i j : Z) (v : A)
  : outcome (list (list A)) :=
  row <- index g i ;;
  row' <- assign row j v ;;
  assign g i row'.

(** [s[lo:hi]] of a slice whose capacity is its length. *)
Definition slice {A : Type} (s : list A) (lo hi : Z) : outcome (list A) :=
  if (0 <=? lo) && (lo <=? hi) && (hi <=? len s)
  then Done (take (Z.to_nat (hi - lo)) (drop (Z.to_nat lo) s))
  else Panic SliceBounds.

(** The contents of [dst] after [copy(dst, src)]. *)
Definition copy {A : Type} (dst src : list A) : list A :=
  take (length dst) src ++ drop (length src) dst.

(** [a / b] on [int]: truncated division, panics on a zero divisor. *)
Definition quo (a b : Z) : outcome Z :=
  if b =? 0 then Panic DivideByZero else Done (Z.quot a b).

(** [for i := lo; i < hi; i++ { s = body i s }], for a body that assigns
    neither [i] nor [hi]. *)
Fixpoint iterate {S : Type} (n : nat) (i : Z) (body : Z -> S -> outcome S)
    (s : S) : outcome S :=
  match n with
  | O => Done s
  | Datatypes.S n' => s' <- body i s ;; iterate n' (i + 1) body s'
  end.

Definition for_range {S : Type} (lo hi : Z) (body : Z -> S -> outcome S)
    (s : S) : outcome S :=
  iterate (Z.to_nat (hi - lo)) lo body s.

(** The values [lo, lo+1, ..., hi-1] taken by the variable of such a loop. *)
Definition range (lo hi : Z) : list Z :=
  (fun k : nat => lo + Z.of_nat k) <$> seq 0 (Z.to_nat (hi - lo)).

(** [make([][]float64, h)] followed by
    [for i := range g { g[i] = make([]float64, w) }]. *)
Definition make2 {A : Type} (zero : A) (h w : Z) : outcome (list (list A)) :=
  g <- make [] h ;;
  for_range 0 (len g) (fun i g => row <- make zero w ;; assign g i row) g.

(** Goroutines.  Each goroutine is the list of atomic actions it still has
    to perform.  A schedule names, step after step, the goroutine that
    moves; a name that is out of range or whose goroutine has finished
    is skipped.  When the schedule is exhausted the remaining actions
    run goroutine after goroutine: the caller waits for all of them
    ([sync.WaitGroup]), so every action is performed. *)
Fixpoint interleaving {E : Type} (sched : list nat) (pending : list (list E))
    : list E :=
  match sched with
  | [] => concat pending
  | w :: sched' =>
      match pending !! w with
      | Some (e :: rest) => e :: interleaving sched' (<[w := rest]> pending)
      | _ => interleaving sched' pending
      end
  end.

(** Running a list of actions on a shared state. *)
Fixpoint run {E S : Type} (exec : E -> S -> outcome S) (es : list E) (s : S)
    : outcome S :=
  match es with
  | [] => Done s
  | e :: es' => s' <- exec e s ;; run exec es' s'
  end.

End Go.

Import Go.
Local Open Scope go_scope.

(** ** Row partitioning

    [convolveParallel] and the parallel [float64ArrayToImage] cut the rows
    in the same way:
    [startRow := workerID * rowsPerWorker],
    [endRow := startRow + rowsPerWorker] and, for the last worker,
    [endRow = height]. *)

Definition startRow (rowsPerWorker workerID : Z) : Z :=
  workerID * rowsPerWorker.

Definition endRow (height numWorkers rowsPerWorker workerID : Z) : Z :=
  if workerID =? numWorkers - 1 then height
  else startRow rowsPerWorker workerID + rowsPerWorker.

(** The rows [for i := startRow; i < endRow; i++] visits. *)
Definition workerRows (height numWorkers rowsPerWorker workerID : Z) : list Z :=
  range (startRow rowsPerWorker workerID)
        (endRow height numWorkers rowsPerWorker workerID).

(** ** Kernel convolution *)

Section Convolution.

Context {F : Type}.
Variable fzero : F.
Variables fadd fmul : F -> F -> F.

Local Abbreviation grid := (list (list F)).

(** Lines 21-31 of [convolve] (65-75 of [convolveParallel]): allocate
    the padded image and copy [image] into its centre. *)
Definition padImage (image : grid) (height width padHeight padWidth : Z)
  : outcome grid :=
  paddedImage <- make2 fzero (height + 2 * padHeight) (width + 2 * padWidth) ;;
  for_range 0 height (fun i paddedImage =>
    for_range 0 width (fun j paddedImage =>
      row <- index image i ;;
      v <- index row j ;;
      assign2 paddedImage (i + padHeight) (j + padWidth) v)
    paddedImage)
  paddedImage.

(** The two innermost loops: [sum := 0.0] and, for [ii] and [jj],
    [sum += paddedImage[i+ii][j+jj] * kernel[ii][jj]]. *)
Definition kernelSum (paddedImage kernel : grid) (kHeight kWidth i j : Z)
  : outcome F :=
  for_range 0 kHeight (fun ii sum =>
    for_range 0 kWidth (fun jj sum =>
      prow <- index paddedImage (i + ii) ;;
      p <- index prow (j + jj) ;;
      krow <- index kernel ii ;;
      k <- index krow jj ;;
      Done (fadd sum (fmul p k)))
    sum)
  fzero.

(** The body of the loop over [j]: compute the sum, store it. *)
Definition convolveCell (paddedImage kernel : grid) (kHeight kWidth : Z)
    (i j : Z) (result : grid) : outcome grid :=
  sum <- kernelSum paddedImage kernel kHeight kWidth i j ;;
  assign2 result i j sum.

(** [convolve] of [src/Go/main.go] (the same text in
    [src/Javascript/main.go]). *)
Definition convolve (image kernel : grid) : outcome grid :=
  let height := len image in
  row0 <- index image 0 ;;
  let width := len row0 in
  let kHeight := len kernel in
  krow0 <- index kernel 0 ;;
  let kWidth := len krow0 in
  let padHeight := Z.quot kHeight 2 in
  let padWidth := Z.quot kWidth 2 in
  paddedImage <- padImage image height width padHeight padWidth ;;
  result <- make2 fzero height width ;;
  for_range 0 height (fun i result =>
    for_range 0 width (fun j result =>
      convolveCell paddedImage kernel kHeight kWidth i j result)
    result)
  result.

(** *** The parallel strategy *)

(** What a worker goroutine does, one atomic action after the other:
    it stores the cells of its rows, then sends its part of [result]. *)
Inductive action : Set :=
| Store (i j : Z)        (* one iteration of the loop over [j] *)
| Send (workerID : Z).   (* resultCh <- ConvolveResult{...} *)

(** The goroutine started for [workerID]. *)
Definition worker (height width numWorkers rowsPerWorker workerID : Z)
  : list action :=
  concat ((fun i => Store i <$> range 0 width)
            <$> workerRows height numWorkers rowsPerWorker workerID)
  ++ [Send workerID].

(** The effect of an action on the shared [result].  [Send] evaluates
    [result[startRow:endRow]]; the receiving loop then executes
    [copy(result[startRow:], convResult.Result)].  The slice sent shares
    its rows with [result], so the copy reads the rows as they are in
    [result] when it runs. *)
Definition perform (paddedImage kernel : grid)
    (height kHeight kWidth numWorkers rowsPerWorker : Z)
    (a : action) (result : grid) : outcome grid :=
  match a with
  | Store i j => convolveCell paddedImage kernel kHeight kWidth i j result
  | Send workerID =>
      let start := startRow rowsPerWorker workerID in
      part <- slice result start
                (endRow height numWorkers rowsPerWorker workerID) ;;
      dst <- slice result start (len result) ;;
      Done (take (Z.to_nat start) result ++ copy dst part)
  end.

(** [convolveParallel] of [src/unnamed/part_000], under schedule [sched]. *)
Definition convolveParallel (sched : list nat) (image kernel : grid)
    (numWorkers : Z) : outcome grid :=
  let height := len image in
  row0 <- index image 0 ;;
  let width := len row0 in
  let kHeight := len kernel in
  krow0 <- index kernel 0 ;;
  let kWidth := len krow0 in
  let padHeight := Z.quot kHeight 2 in
  let padWidth := Z.quot kWidth 2 in
  paddedImage <- padImage image height width padHeight padWidth ;;
  result <- make2 fzero height width ;;
  rowsPerWorker <- quo height numWorkers ;;
  let goroutines :=
    worker height width numWorkers rowsPerWorker <$> range 0 numWorkers in
  run (perform paddedImage kernel height kHeight kWidth numWorkers rowsPerWorker)
      (interleaving sched goroutines) result.

End Convolution.

(** ** Vocabulary of the specification *)

(** A grid of [h] rows that all have [w] cells. *)
Definition rectangular {A : Type} (g : list (list A)) (h w : Z) : Prop :=
  len g = h /\ Forall (fun row => len row = w) g.

(** Cell [(i, j)] of a grid, when there is one. *)
Definition cell {A : Type} (g : list (list A)) (i j : Z) : option A :=
  if (i <? 0) || (j <? 0) then None
  else match g !! Z.to_nat i with
       | Some row => row !! Z.to_nat j
       | None => None
       end.

(** The cell an action of a convolution worker writes, if any. *)
Definition stored (a : action) : option (Z * Z) :=
  match a with
  | Store i j => Some (i, j)
  | Send _ => None
  end.

(** The cells [(i, j)] with [i] among [rows] and [0 <= j < width], row
    after row. *)
Definition cellsOf (rows : list Z) (width : Z) : list (Z * Z) :=
  concat ((fun i => pair i <$> range 0 width) <$> rows).

(** A grid or a kernel with zero rows or zero columns. *)
Definition zeroSized {A : Type} (g : list (list A)) : Prop :=
  exists h w, rectangular g h w /\ (h = 0 \/ w = 0).

(** The grid whose cell [(i, j)] is [f i j]. *)
Definition tabulate {A : Type} (h w : Z) (f : Z -> Z -> A) : list (list A) :=
  (fun i => f i <$> range 0 w) <$> range 0 h.

(** The [h] x [w] grid all of whose cells are [c]. *)
Definition uniformGrid {A : Type} (h w : Z) (c : A) : list (list A) :=
  tabulate h w (fun _ _ => c).

Section Specification.

Context {F : Type}.
Variable fzero : F.
Variables fadd fmul : F -> F -> F.

(** [G(i,j)], read as [0] outside the grid. *)
Definition at_ (g : list (list F)) (i j : Z) : F :=
  default fzero (cell g i j).

(** [P(r,c)]: the zero-padded version of [G] for half-extents
    [padH], [padW]. *)
Definition padded (g : list (list F)) (padH padW : Z) (r c : Z) : F :=
  at_ g (r - padH) (c - padW).

(** The sum over [a = 0..kH-1] and, inside, [b = 0..kW-1] of
    [P(i+a, j+b) * K(a,b)], accumulated from [0] in that order. *)
Definition weightedSum (P K : Z -> Z -> F) (kH kW : Z) (i j : Z) : F :=
  foldl (fun sum a =>
           foldl (fun sum b => fadd sum (fmul (P (i + a) (j + b)) (K a b)))
                 sum (range 0 kW))
        fzero (range 0 kH).

(** [R(i,j)] of the contract of section 4.2, for a kernel of size
    [kH] x [kW]. *)
Definition convolved (g k : list (list F)) (kH kW : Z) (i j : Z) : F :=
  weightedSum (padded g (Z.quot kH 2) (Z.quot kW 2)) (at_ k) kH kW i j.

(** The sum of the weights of a kernel, in the same order. *)
Definition weightSum (k : list (list F)) : F :=
  foldl (fun sum row => foldl fadd sum row) fzero k.

(** The accumulation of [c * K(a,b)] over a kernel, in the same order:
    what a window that only sees the value [c] adds up to. *)
Definition uniformResponse (c : F) (k : list (list F)) : F :=
  foldl (fun sum row => foldl (fun sum w => fadd sum (fmul c w)) sum row)
        fzero k.

End Specification.

(** ** The program at [float64] *)

Module Float64.

Local Open Scope float_scope.

Definition convolve := convolve 0 PrimFloat.add PrimFloat.mul.
Definition convolveParallel := convolveParallel 0 PrimFloat.add PrimFloat.mul.

Definition sobelX : list (list float) :=
  [[-1; 0; 1]; [-2; 0; 2]; [-1; 0; 1]].

Definition sobelY : list (list float) :=
  [[-1; -2; -1]; [0; 0; 0]; [1; 2; 1]].

(** [combineAndNormalize] of [src/unnamed/part_000], in its two parts;
the sequential [main] functions contain the same loops.
[len(gradientX[0])] and [len(edges[0])] are evaluated by the condition
of the inner loops, hence only once an outer iteration runs; no
assignment changes a length. *)

(** Lines 283-292: allocate [edges], store the magnitudes. *)
Definition magnitudeGrid (gradientX gradientY : list (list float))
  : outcome (list (list float)) :=
  edges <- make [] (len gradientX) ;;
  edges <- for_range 0 (len edges) (fun i edges =>
             gx0 <- index gradientX 0 ;;
             row <- make 0 (len gx0) ;;
             assign edges i row) edges ;;
  for_range 0 (len gradientX) (fun i edges =>
    gx0 <- index gradientX 0 ;;
    for_range 0 (len gx0) (fun j edges =>
      gxi <- index gradientX i ;;
      x <- index gxi j ;;
      gyi <- index gradientY i ;;
      y <- index gyi j ;;
      assign2 edges i j (sqrt (x * x + y * y)))
    edges) edges.

(** One step of the search for the extrema:
[if e < minValue { minValue = e }; if e > maxValue { maxValue = e }]. *)
Definition minMax (mm : float * float) (e : float) : float * float :=
  let '(minValue, maxValue) := mm in
  (if e <? minValue then e else minValue,
   if maxValue <? e then e else maxValue).

(** Lines 294-312: "Normalize the pixel values to the range [0, 255]",
in place. *)
Definition normalize (edges : list (list float)) : outcome (list (list float)) :=
  e0 <- index edges 0 ;;
  minValue <- index e0 0 ;;
  maxValue <- index e0 0 ;;
  mm <- for_range 0 (len edges) (fun i mm =>
          e0 <- index edges 0 ;;
          for_range 0 (len e0) (fun j mm =>
            ei <- index edges i ;;
            e <- index ei j ;;
            Done (minMax mm e))
          mm) (minValue, maxValue) ;;
  let '(minValue, maxValue) := mm in
  for_range 0 (len edges) (fun i edges =>
    e0 <- index edges 0 ;;
    for_range 0 (len e0) (fun j edges =>
      ei <- index edges i ;;
      e <- index ei j ;;
      assign2 edges i j (255 * (e - minValue) / (maxValue - minValue)))
    edges) edges.

Definition combineAndNormalize (gradientX gradientY : list (list float))
  : outcome (list (list float)) :=
  edges <- magnitudeGrid gradientX gradientY ;;
  normalize edges.

(** The magnitude [M(i,j) = sqrt(Gx(i,j)^2 + Gy(i,j)^2)]. *)
Definition magnitude (gx gy : list (list float)) (i j : Z) : float :=
  let x := at_ 0 gx i j in
  let y := at_ 0 gy i j in
  sqrt (x * x + y * y).

(** [min] and [max] over the cells, visited row after row from cell
[(0,0)]. *)
Definition scanMin (cells : list float) (first : float) : float :=
  foldl (fun m e => if e <? m then e else m) first cells.

Definition scanMax (cells : list float) (first : float) : float :=
  foldl (fun m e => if m <? e then e else m) first cells.

Definition minOf (m : list (list float)) : float :=
  scanMin (concat m) (at_ 0 m 0 0).

Definition maxOf (m : list (list float)) : float :=
  scanMax (concat m) (at_ 0 m 0 0).

(** [255 * (m - min) / (max - min)], associated as Go parses it. *)
Definition rescale (minValue maxValue m : float) : float :=
  255 * (m - minValue) / (maxValue - minValue).

(** *** Quantisation *)

(** The integer part of a finite [float64] (the fraction is discarded). *)
Definition truncate (x : float) : option Z :=
  match Prim2SF x with
  | S754_zero _ => Some 0%Z
  | S754_finite s m e =>
      let a := if (0 <=? e)%Z then (Z.pos m * 2 ^ e)%Z
               else Z.quot (Z.pos m) (2 ^ (- e)) in
      Some (if s then (- a)%Z else a)
  | _ => None
  end.

(** [image.Gray] for a rectangle whose [Min] is [(0,0)]: [Rect.Max] is
    [(MaxX, MaxY)], a sample is a [uint8] kept as a [Z]. *)
Record Gray : Set := mkGray { Pix : list Z; Stride : Z; MaxX : Z; MaxY : Z }.

(** [image.NewGray(image.Rect(0, 0, width, height))] for non-negative
    [width] and [height]. *)
Definition NewGray (width height : Z) : outcome Gray :=
  pix <- make 0%Z (1 * width * height) ;;
  Done (mkGray pix (1 * width) width height).

(** The method [SetGray] of [image.Gray]: a point outside [Rect] is
    ignored. *)
Definition SetGray (p : Gray) (x y : Z) (c : Z) : outcome Gray :=
  if ((0 <=? x) && (x <? MaxX p) && (0 <=? y) && (y <? MaxY p))%Z
  then pix <- assign (Pix p) (y * Stride p + x * 1) c ;;
       Done (mkGray pix (Stride p) (MaxX p) (MaxY p))
  else Done p.

Section Quantize.

(** Go: converting a floating-point value to an integer type discards
    the fraction; when the value cannot be represented by the type
    "the conversion succeeds but the result value is
    implementation-dependent".  [unrepresentable] is that result. *)
Variable unrepresentable : float -> Z.

(** [uint8(x)] *)
Definition uint8 (x : float) : Z :=
  match truncate x with
  | Some n => if ((0 <=? n) && (n <=? 255))%Z then n else unrepresentable x
  | None => unrepresentable x
  end.

(** The body of the loop over [x]:
    [gray.SetGray(x, y, color.Gray{uint8(data[y][x])})]. *)
Definition setPixel (data : list (list float)) (y x : Z) (gray : Gray)
  : outcome Gray :=
  row <- index data y ;;
  v <- index row x ;;
  SetGray gray x y (uint8 v).

(** [float64ArrayToImage] of [src/Javascript/main.go]. *)
Definition float64ArrayToImage (data : list (list float)) : outcome Gray :=
  let height := len data in
  row0 <- index data 0 ;;
  let width := len row0 in
  gray <- NewGray width height ;;
  for_range 0 height (fun y gray =>
    for_range 0 width (fun x gray => setPixel data y x gray) gray) gray.

(** [float64ArrayToImage] of [src/unnamed/part_000], under schedule
    [sched]; a goroutine is the list of the pixels it sets. *)
Definition float64ArrayToImageParallel (sched : list nat)
    (data : list (list float)) (numWorkers : Z) : outcome Gray :=
  let height := len data in
  row0 <- index data 0 ;;
  let width := len row0 in
  gray <- NewGray width height ;;
  rowsPerWorker <- quo height numWorkers ;;
  let goroutines :=
    (fun i => cellsOf (workerRows height numWorkers rowsPerWorker i) width)
      <$> range 0 numWorkers in
  run (fun '(y, x) => setPixel data y x) (interleaving sched goroutines) gray.

End Quantize.

(** One admissible [unrepresentable]: keep the low eight bits of the
    integer part. *)
Definition wrapAround (x : float) : Z :=
  match truncate x with
  | Some n => (n mod 256)%Z
  | None => 0%Z
  end.

End Float64.

(** ** Images

    The packages [image], [image/color] and [sync] of Go's library, as
    far as the programs use them.  A picture is known through the two
    methods the programs call, [Bounds] and [At]; a colour through the
    four components its method [RGBA] returns.  The goroutines of the
    conversions only read the picture, and write different samples of
    the gray image or different rows of the grid. *)

Module Image.

(** [image.Rectangle]: [Min] is [(MinX, MinY)], [Max] is [(MaxX, MaxY)]. *)
Record Rectangle : Set :=
  mkRectangle { MinX : Z; MinY : Z; MaxX : Z; MaxY : Z }.

Definition Dx (r : Rectangle) : Z := MaxX r - MinX r.
Definition Dy (r : Rectangle) : Z := MaxY r - MinY r.

(** [image.Point{x, y}.In(r)] *)
Definition In (x y : Z) (r : Rectangle) : bool :=
  (MinX r <=? x) && (x <? MaxX r) && (MinY r <=? y) && (y <? MaxY r).

(** A [color.Color] is observed through its method [RGBA], which returns
    four [uint32]: the record holds what [RGBA()] returns. *)
Record Color : Set := mkColor { red : Z; green : Z; blue : Z; alpha : Z }.

(** An [image.Image], through its methods [Bounds] and [At] (the
    programs never call [ColorModel]).  A method may panic. *)
Record Image : Type :=
  mkImage { Bounds : Rectangle; At : Z -> Z -> outcome Color }.

(** [image.Gray]; a sample is a [uint8] kept as a [Z]. *)
Record Gray : Set := mkGray { Pix : list Z; Stride : Z; Rect : Rectangle }.

(** Besides the run-time panics of the language, two panics that the
    library raises. *)
Inductive failure : Set :=
| RunTime (p : panic)
| HugeOrNegative     (* image: NewGray Rectangle has huge or negative dimensions *)
| NegativeCounter.   (* sync: negative WaitGroup counter *)

Inductive result (A : Type) : Type :=
| Returned (a : A)
| Failed (f : failure).
Arguments Returned {A} a.
Arguments Failed {A} f.

Definition lift {A : Type} (m : outcome A) : result A :=
  match m with
  | Done a => Returned a
  | Panic p => Failed (RunTime p)
  end.

(** [mul3NonNeg] of [image/geom.go], for 64-bit [int]: the product, or
    [-1] when an argument is negative or a product overflows. *)
Definition mul3NonNeg (x y z : Z) : Z :=
  if (x <? 0) || (y <? 0) || (z <? 0) then -1
  else if 2 ^ 64 <=? x * y then -1
  else if 2 ^ 63 <=? x * y * z then -1
  else x * y * z.

(** [image.NewGray(r)] *)
Definition NewGray (r : Rectangle) : result Gray :=
  let totalLength := mul3NonNeg 1 (Dx r) (Dy r) in
  if totalLength <? 0 then Failed HugeOrNegative
  else lift (pix <- make 0 totalLength ;; Done (mkGray pix (1 * Dx r) r)).

Definition PixOffset (p : Gray) (x y : Z) : Z :=
  (y - MinY (Rect p)) * Stride p + (x - MinX (Rect p)) * 1.

(** The sample [color.GrayModel.Convert(c).(color.Gray).Y]:
    [y := (19595*r + 38470*g + 7471*b + 1<<15) >> 24] in [uint32],
    then [uint8(y)].  For a [color.Gray] the library returns its [Y]
    unchanged, which is what the formula gives. *)
Definition grayModel (c : Color) : Z :=
  Z.shiftr ((19595 * red c + 38470 * green c + 7471 * blue c + Z.shiftl 1 15)
              mod 2 ^ 32) 24
  mod 256.

(** The method [Set] of [image.Gray]. *)
Definition Set_ (p : Gray) (x y : Z) (c : Color) : outcome Gray :=
  if In x y (Rect p)
  then pix <- assign (Pix p) (PixOffset p x y) (grayModel c) ;;
       Done (mkGray pix (Stride p) (Rect p))
  else Done p.

(** [color.Gray{Y}.RGBA()]: [y := uint32(Y); y |= y << 8], alpha
    [0xffff]. *)
Definition grayRGBA (Y : Z) : Color :=
  let y := Z.lor Y (Z.shiftl Y 8) in mkColor y y y 65535.

(** The method [At] of [image.Gray] ([GrayAt]). *)
Definition GrayAt (p : Gray) (x y : Z) : outcome Color :=
  if In x y (Rect p)
  then Y <- index (Pix p) (PixOffset p x y) ;; Done (grayRGBA Y)
  else Done (grayRGBA 0).

(** A [*image.Gray] used as an [image.Image]. *)
Definition asImage (p : Gray) : Image := mkImage (Rect p) (GrayAt p).

(** [float64(r)] for a [uint32] [r]. *)
Definition float64 (r : Z) : float := PrimFloat.of_uint63 (Uint63.of_Z r).

(** [float64(r) / 65535.0] *)
Definition luminance (r : Z) : float := (float64 r / 65535)%float.

End Image.

(** ** From the decoded image to the grid of luminances *)

(** The body of the loops of [convertToGrayscale]:
    [gray.Set(x, y, img.At(x, y))]. *)
Definition convertPixel (img : Image.Image) (p : Z * Z) (gray : Image.Gray)
  : outcome Image.Gray :=
  let '(x, y) := p in
  c <- Image.At img x y ;;
  Image.Set_ gray x y c.

(** The body of the loops of [imageToFloat64Array]:
    [r, _, _, _ := img.At(x, y).RGBA()] and
    [imageData[y][x] = float64(r) / 65535.0]. *)
Definition readPixel (img : Image.Image) (y x : Z)
    (imageData : list (list float)) : outcome (list (list float)) :=
  c <- Image.At img x y ;;
  assign2 imageData y x (Image.luminance (Image.red c)).

(** What a goroutine of the parallel [imageToFloat64Array] does for a
    row: [imageData[y] = make([]float64, width)], then one cell after
    the other. *)
Inductive fill : Set :=
| Alloc (y : Z)
| Fill (y x : Z).

Definition fillRow (width y : Z) : list fill :=
  Alloc y :: (Fill y <$> range 0 width).

Definition performFill (img : Image.Image) (width : Z) (a : fill)
    (imageData : list (list float)) : outcome (list (list float)) :=
  match a with
  | Alloc y => row <- make 0%float width ;; assign imageData y row
  | Fill y x => readPixel img y x imageData
  end.

(** The row an action works on. *)
Definition rowOfFill (a : fill) : Z :=
  match a with
  | Alloc y => y
  | Fill y _ => y
  end.

(** [src/Javascript/main.go] *)
Module Sequential.

Definition isColorImage (img : Image.Image) : outcome bool :=
  c <- Image.At img 0 0 ;;
  Done (negb (Image.alpha c =? 65535)).

Definition convertToGrayscale (img : Image.Image) : Image.result Image.Gray :=
  let bounds := Image.Bounds img in
  match Image.NewGray bounds with
  | Image.Failed f => Image.Failed f
  | Image.Returned gray =>
      Image.lift
        (for_range (Image.MinX bounds) (Image.MaxX bounds) (fun x gray =>
           for_range (Image.MinY bounds) (Image.MaxY bounds) (fun y gray =>
             convertPixel img (x, y) gray)
           gray)
         gray)
  end.

(** Also lines 71-83 of [main] in [src/Go/main.go]. *)
Definition imageToFloat64Array (img : Image.Image)
  : outcome (list (list float)) :=
  let bounds := Image.Bounds img in
  let width := Image.Dx bounds in
  let height := Image.Dy bounds in
  imageData <- make2 0%float height width ;;
  for_range 0 width (fun x imageData =>
    for_range 0 height (fun y imageData => readPixel img y x imageData)
    imageData)
  imageData.

(** Lines 66-72 of [main]: the grid [imageData] of the decoded image. *)
Definition imageData (img : Image.Image)
  : Image.result (list (list float)) :=
  match isColorImage img with
  | Panic p => Image.Failed (Image.RunTime p)
  | Done true =>
      match convertToGrayscale img with
      | Image.Failed f => Image.Failed f
      | Image.Returned gray =>
          Image.lift (imageToFloat64Array (Image.asImage gray))
      end
  | Done false => Image.lift (imageToFloat64Array img)
  end.

(** Lines 88-124 of [main]: from [imageData] to the image of the edges.
    The loops between the convolutions and the quantisation are those of
    [combineAndNormalize]. *)
Definition edgeImg (unrepresentable : float -> Z)
    (imageData : list (list float)) : outcome Float64.Gray :=
  gradientX <- Float64.convolve imageData Float64.sobelX ;;
  gradientY <- Float64.convolve imageData Float64.sobelY ;;
  edges <- Float64.combineAndNormalize gradientX gradientY ;;
  Float64.float64ArrayToImage unrepresentable edges.

(** [main] between the loading of the picture and the saving of the
    result. *)
Definition main (unrepresentable : float -> Z) (img : Image.Image)
  : Image.result Float64.Gray :=
  match imageData img with
  | Image.Failed f => Image.Failed f
  | Image.Returned data => Image.lift (edgeImg unrepresentable data)
  end.

End Sequential.

(** [src/unnamed/part_000]: the rows are cut among [numWorkers]
    goroutines. *)
Module Partitioned.

(** The pixels the goroutine of [workerID] converts:
    [for x := bounds.Min.X; x < bounds.Max.X; x++] and
    [for y := startRow; y < endRow && y < bounds.Max.Y; y++]. *)
Definition grayWorker (bounds : Image.Rectangle)
    (numWorkers rowsPerWorker workerID : Z) : list (Z * Z) :=
  let startRow := Image.MinY bounds + workerID * rowsPerWorker in
  let endRow := if workerID =? numWorkers - 1 then Image.MaxY bounds
                else startRow + rowsPerWorker in
  concat ((fun x => pair x <$> range startRow (Z.min endRow (Image.MaxY bounds)))
            <$> range (Image.MinX bounds) (Image.MaxX bounds)).

Definition convertToGrayscale (sched : list nat) (img : Image.Image)
    (numWorkers : Z) : Image.result Image.Gray :=
  let bounds := Image.Bounds img in
  match Image.NewGray bounds with
  | Image.Failed f => Image.Failed f
  | Image.Returned gray =>
      Image.lift
        (rowsPerWorker <- quo (Image.MaxY bounds - Image.MinY bounds) numWorkers ;;
         let goroutines :=
           grayWorker bounds numWorkers rowsPerWorker <$> range 0 numWorkers in
         run (convertPixel img) (interleaving sched goroutines) gray)
  end.

(** [wg.Add(numWorkers)] comes before the division and panics on a
    negative count. *)
Definition imageToFloat64Array (sched : list nat) (img : Image.Image)
    (numWorkers : Z) : Image.result (list (list float)) :=
  let bounds := Image.Bounds img in
  let width := Image.Dx bounds in
  let height := Image.Dy bounds in
  match make [] height with
  | Panic p => Image.Failed (Image.RunTime p)
  | Done imageData =>
      if numWorkers <? 0 then Image.Failed Image.NegativeCounter
      else
        Image.lift
          (rowsPerWorker <- quo height numWorkers ;;
           let goroutines :=
             (fun i => concat (fillRow width
                                 <$> workerRows height numWorkers rowsPerWorker i))
               <$> range 0 numWorkers in
           run (performFill img width) (interleaving sched goroutines) imageData)
  end.

(** Lines 144-147 of [main]: the image is always converted. *)
Definition imageData (sched sched' : list nat) (img : Image.Image)
    (numWorkers : Z) : Image.result (list (list float)) :=
  match convertToGrayscale sched img numWorkers with
  | Image.Failed f => Image.Failed f
  | Image.Returned gray =>
      imageToFloat64Array sched' (Image.asImage gray) numWorkers
  end.

(** Lines 151-161 of [main]: from [imageData] to the image of the edges;
    [schedX], [schedY] and [sched] are the schedules of the three
    parallel stages. *)
Definition edgeImg (unrepresentable : float -> Z)
    (schedX schedY sched : list nat) (imageData : list (list float))
    (numWorkers : Z) : outcome Float64.Gray :=
  gradientX <- Float64.convolveParallel schedX imageData Float64.sobelX
                 numWorkers ;;
  gradientY <- Float64.convolveParallel schedY imageData Float64.sobelY
                 numWorkers ;;
  edges <- Float64.combineAndNormalize gradientX gradientY ;;
  Float64.float64ArrayToImageParallel unrepresentable sched edges numWorkers.

(** [main] between the loading of the picture and the saving of the
    result, for [numWorkers] in place of [runtime.NumCPU()]; one schedule
    for each of the five parallel stages. *)
Definition main (unrepresentable : float -> Z)
    (schedGray schedData schedX schedY sched : list nat) (img : Image.Image)
    (numWorkers : Z) : Image.result Float64.Gray :=
  match imageData schedGray schedData img numWorkers with
  | Image.Failed f => Image.Failed f
  | Image.Returned data =>
      Image.lift (edgeImg unrepresentable schedX schedY sched data numWorkers)
  end.

End Partitioned.

(** ** One goroutine per row

    [src/Javascript/maingo.go] has no worker count: [convolveParallel]
    and [float64ArrayToImageParallel] start one goroutine for every row. *)

Module PerRow.

Section Convolution.

Context {F : Type}.
Variable fzero : F.
Variables fadd fmul : F -> F -> F.

Local Abbreviation grid := (list (list F)).

(** The goroutine started for [row]: [startRow := row],
    [endRow := row + 1], the two loops, then the send. *)
Definition worker (width row : Z) : list action :=
  concat ((fun i => Store i <$> range 0 width) <$> range row (row + 1))
  ++ [Send row].

(** [Send row] evaluates [result[startRow:endRow]]; the receiving loop
    then executes [copy(result[startRow], convResult.Result[0])], which
    overwrites the cells of row [startRow] of [result]. *)
Definition perform (paddedImage kernel : grid) (kHeight kWidth : Z)
    (a : action) (result : grid) : outcome grid :=
  match a with
  | Store i j =>
      convolveCell fzero fadd fmul paddedImage kernel kHeight kWidth i j result
  | Send row =>
      part <- slice result row (row + 1) ;;
      src <- index part 0 ;;
      dst <- index result row ;;
      assign result row (copy dst src)
  end.

(** [convolveParallel] of [src/Javascript/maingo.go], under schedule
    [sched]. *)
Definition convolveParallel (sched : list nat) (image kernel : grid)
  : outcome grid :=
  let height := len image in
  row0 <- index image 0 ;;
  let width := len row0 in
  let kHeight := len kernel in
  krow0 <- index kernel 0 ;;
  let kWidth := len krow0 in
  let padHeight := Z.quot kHeight 2 in
  let padWidth := Z.quot kWidth 2 in
  paddedImage <- padImage fzero image height width padHeight padWidth ;;
  result <- make2 fzero height width ;;
  let goroutines := worker width <$> range 0 height in
  run (perform paddedImage kernel kHeight kWidth)
      (interleaving sched goroutines) result.

End Convolution.

Section Quantize.

Variable unrepresentable : float -> Z.

(** [float64ArrayToImageParallel] of [src/Javascript/maingo.go], under
    schedule [sched]: the goroutine of row [y] sets the pixels
    [(0, y), ..., (width-1, y)]. *)
Definition float64ArrayToImageParallel (sched : list nat)
    (data : list (list float)) : outcome Float64.Gray :=
  let height := len data in
  row0 <- index data 0 ;;
  let width := len row0 in
  gray <- Float64.NewGray width height ;;
  let goroutines := (fun y => pair y <$> range 0 width) <$> range 0 height in
  run (fun '(y, x) => Float64.setPixel unrepresentable data y x)
      (interleaving sched goroutines) gray.

End Quantize.

(** [convertToGrayscale] of [src/Javascript/maingo.go], under schedule
    [sched]: one goroutine for every column [x]. *)
Definition convertToGrayscale (sched : list nat) (img : Image.Image)
  : Image.result Image.Gray :=
  let bounds := Image.Bounds img in
  match Image.NewGray bounds with
  | Image.Failed f => Image.Failed f
  | Image.Returned gray =>
      let goroutines :=
        (fun x => pair x <$> range (Image.MinY bounds) (Image.MaxY bounds))
          <$> range (Image.MinX bounds) (Image.MaxX bounds) in
      Image.lift (run (convertPixel img) (interleaving sched goroutines) gray)
  end.

(** [imageToFloat64ArrayParallel] of [src/Javascript/maingo.go], under
    schedule [sched]: one goroutine for every row [y]. *)
Definition imageToFloat64ArrayParallel (sched : list nat) (img : Image.Image)
  : outcome (list (list float)) :=
  let bounds := Image.Bounds img in
  let width := Image.Dx bounds in
  let height := Image.Dy bounds in
  imageData <- make [] height ;;
  let goroutines := fillRow width <$> range 0 height in
  run (performFill img width) (interleaving sched goroutines) imageData.

(** Lines 106-111 of [main]: the grid [imageData] of the decoded image;
    [isColorImage] is the one of [src/Javascript/main.go]. *)
Definition imageData (sched sched' : list nat) (img : Image.Image)
  : Image.result (list (list float)) :=
  match Sequential.isColorImage img with
  | Panic p => Image.Failed (Image.RunTime p)
  | Done true =>
      match convertToGrayscale sched img with
      | Image.Failed f => Image.Failed f
      | Image.Returned gray =>
          Image.lift (imageToFloat64ArrayParallel sched' (Image.asImage gray))
      end
  | Done false => Image.lift (imageToFloat64ArrayParallel sched' img)
  end.

(** Lines 127-163 of [main]: from [imageData] to the image of the edges.
    The loops between the convolutions and the quantisation are those of
    [combineAndNormalize]. *)
Definition edgeImg (unrepresentable : float -> Z)
    (schedX schedY sched : list nat) (imageData : list (list float))
  : outcome Float64.Gray :=
  gradientX <- convolveParallel 0%float PrimFloat.add PrimFloat.mul schedX
                 imageData Float64.sobelX ;;
  gradientY <- convolveParallel 0%float PrimFloat.add PrimFloat.mul schedY
                 imageData Float64.sobelY ;;
  edges <- Float64.combineAndNormalize gradientX gradientY ;;
  float64ArrayToImageParallel unrepresentable sched edges.

(** [main] between the loading of the picture and the saving of the
    result; one schedule for each of the five parallel stages. *)
Definition main (unrepresentable : float -> Z)
    (schedGray schedData schedX schedY sched : list nat) (img : Image.Image)
  : Image.result Float64.Gray :=
  match imageData schedGray schedData img with
  | Image.Failed f => Image.Failed f
  | Image.Returned data =>
      Image.lift (edgeImg unrepresentable schedX schedY sched data)
  end.

End PerRow.

(** ** Grids whose rows differ in length *)

(** What is left of a grid when every row is cut to the length of the
    first row. *)
Definition trim {A : Type} (g : list (list A)) : list (list A) :=
  match g with
  | [] => []
  | row0 :: _ => take (length row0) <$> g
  end.

(** ** Finite values *)

(** A [float64] that is neither an infinity nor a NaN. *)
Definition isFinite (x : float) : bool :=
  match Prim2SF x with
  | S754_zero _ | S754_finite _ _ _ => true
  | _ => false
  end.

(** ** Checks over a range of integers *)

(** [p lo && p (lo+1) && ... && p (lo+n-1)] *)
Fixpoint allFrom (n : nat) (lo : Z) (p : Z -> bool) : bool :=
  match n with
  | O => true
  | S n' => p lo && allFrom n' (lo + 1) p
  end.

(** * Properties *)

(** ** Loops and slices *)

Section GoFacts.

Context {A : Type}.
Implicit Types (s : list A) (i : Z).

Lemma index_lookup s i x :
  0 <= i -> s !! Z.to_nat i = Some x -> index s i = Done x.
Proof.
  intros Hi Hx. unfold index.
  destruct (Z.ltb_spec i 0); [lia|]. now rewrite Hx.
Qed.

Lemma index_inv s i x :
  index s i = Done x -> 0 <= i < len s /\ s !! Z.to_nat i = Some x.
Proof.
  unfold index, len. destruct (Z.ltb_spec i 0); [discriminate|].
  destruct (s !! Z.to_nat i) eqn:E; [|discriminate].
  intros [= ->]. apply lookup_lt_Some in E as Hlt. split; [lia|reflexivity].
Qed.

Lemma assign_insert s i x :
  0 <= i < len s -> assign s i x = Done (<[Z.to_nat i := x]> s).
Proof.
  intros Hi. unfold assign.
  destruct (Z.leb_spec 0 i); [|lia].
  destruct (Z.ltb_spec i (len s)); [reflexivity|lia].
Qed.

Lemma make_replicate (z : A) n :
  0 <= n -> make z n = Done (replicate (Z.to_nat n) z).
Proof.
  intros Hn. unfold make. destruct (Z.ltb_spec n 0); [lia|reflexivity].
Qed.

Lemma slice_take_drop s lo hi :
  0 <= lo <= hi -> hi <= len s ->
  slice s lo hi = Done (take (Z.to_nat (hi - lo)) (drop (Z.to_nat lo) s)).
Proof.
  intros [H1 H2] H3. unfold slice.
  destruct (Z.leb_spec 0 lo); [|lia].
  destruct (Z.leb_spec lo hi); [|lia].
  destruct (Z.leb_spec hi (len s)); [reflexivity|lia].
Qed.

(** Copying a prefix of a slice over itself leaves it as it is. *)
Lemma copy_prefix s n : copy s (take n s) = s.
Proof.
  unfold copy. rewrite length_take.
  destruct (Nat.le_gt_cases n (length s)) as [Hle|Hgt].
  - rewrite Nat.min_l by exact Hle.
    rewrite take_take, Nat.min_r by exact Hle. apply take_drop.
  - rewrite Nat.min_r by lia.
    rewrite take_take, Nat.min_l by lia.
    rewrite take_ge by lia. rewrite drop_all. apply app_nil_r.
Qed.

End GoFacts.

Lemma range_nil lo hi : hi <= lo -> range lo hi = [].
Proof.
  intros H. unfold range. replace (Z.to_nat (hi - lo)) with 0%nat by lia.
  reflexivity.
Qed.

Lemma range_cons lo hi : lo < hi -> range lo hi = lo :: range (lo + 1) hi.
Proof.
  intros H. unfold range.
  replace (Z.to_nat (hi - lo)) with (S (Z.to_nat (hi - (lo + 1)))) by lia.
  cbn [seq fmap list_fmap]. f_equal; [lia|].
  rewrite <- fmap_S_seq, <- list_fmap_compose.
  apply list_fmap_ext. intros _ k _. cbn. lia.
Qed.

Lemma elem_of_range lo hi k : elem_of k (range lo hi) <-> lo <= k < hi.
Proof.
  unfold range. rewrite list_elem_of_fmap. split.
  - intros (n & -> & Hn). apply elem_of_seq in Hn. lia.
  - intros Hk. exists (Z.to_nat (k - lo)). split; [lia|].
    apply elem_of_seq. lia.
Qed.

Lemma length_range lo hi : length (range lo hi) = Z.to_nat (hi - lo).
Proof. unfold range. now rewrite length_fmap, length_seq. Qed.

Lemma lookup_range lo hi (n : nat) :
  lo + Z.of_nat n < hi -> range lo hi !! n = Some (lo + Z.of_nat n).
Proof.
  intros H. unfold range. rewrite list_lookup_fmap, lookup_seq_lt by lia.
  reflexivity.
Qed.

Lemma range_app lo mid hi :
  lo <= mid <= hi -> range lo mid ++ range mid hi = range lo hi.
Proof.
  intros [H1 H2]. unfold range.
  replace (Z.to_nat (hi - lo))
    with (Z.to_nat (mid - lo) + Z.to_nat (hi - mid))%nat by lia.
  rewrite seq_app, fmap_app. apply (f_equal (app _)).
  replace (seq (0 + Z.to_nat (mid - lo)) (Z.to_nat (hi - mid)))
    with (Nat.add (Z.to_nat (mid - lo)) <$> seq 0 (Z.to_nat (hi - mid)))
    by (rewrite fmap_add_seq; f_equal; lia).
  rewrite <- list_fmap_compose.
  apply list_fmap_ext. intros _ k _. cbn. lia.
Qed.

Lemma NoDup_range lo hi : NoDup (range lo hi).
Proof.
  unfold range. apply NoDup_fmap_2; [|apply NoDup_seq].
  intros a b. lia.
Qed.

Lemma omap_Some_id {A : Type} (l : list A) : omap Some l = l.
Proof. induction l as [|x l IH]; cbn; [reflexivity|now rewrite IH]. Qed.

Section RunFacts.

Context {E S : Type}.
Implicit Types (exec : E -> S -> outcome S) (es : list E).

Lemma run_app exec es1 es2 s :
  run exec (es1 ++ es2) s = (s' <- run exec es1 s ;; run exec es2 s').
Proof.
  revert s. induction es1 as [|e es1 IH]; intros s; cbn; [reflexivity|].
  destruct (exec e s); cbn; [apply IH|reflexivity].
Qed.

(** A [for] loop runs its body on the values of its variable. *)
Lemma iterate_run (body : Z -> S -> outcome S) n lo s :
  iterate n lo body s = run body (range lo (lo + Z.of_nat n)) s.
Proof.
  revert lo s. induction n as [|n IH]; intros lo s.
  - rewrite range_nil by lia. reflexivity.
  - rewrite range_cons by lia. cbn [iterate run].
    destruct (body lo s); cbn; [|reflexivity].
    rewrite IH. do 2 f_equal. lia.
Qed.

Lemma for_range_run (body : Z -> S -> outcome S) lo hi s :
  for_range lo hi body s = run body (range lo hi) s.
Proof.
  unfold for_range. rewrite iterate_run.
  destruct (Z.le_gt_cases lo hi).
  - do 2 f_equal. lia.
  - rewrite !range_nil by lia. reflexivity.
Qed.

Lemma run_ext exec exec' es s :
  (forall e s, elem_of e es -> exec e s = exec' e s) ->
  run exec es s = run exec' es s.
Proof.
  revert s. induction es as [|e es IH]; intros s H; [reflexivity|].
  cbn. rewrite H by left. destruct (exec' e s); cbn; [|reflexivity].
  apply IH. intros e' s' He'. apply H. now right.
Qed.

(** A loop whose body cannot panic is a left fold. *)
Lemma run_foldl exec (f : S -> E -> S) es s :
  (forall e s, elem_of e es -> exec e s = Done (f s e)) ->
  run exec es s = Done (foldl f s es).
Proof.
  revert s. induction es as [|e es IH]; intros s H; [reflexivity|].
  cbn. rewrite H by left. cbn. apply IH. intros e' s' He'. apply H. now right.
Qed.

End RunFacts.

(** Nested loops run the inner body on the pairs of their variables. *)
Lemma run_nested {I J S : Type} (f : I -> J -> S -> outcome S)
    (inner : I -> list J) (outer : list I) s :
  run (fun i s => run (f i) (inner i) s) outer s =
  run (fun '(i, j) => f i j) (concat ((fun i => pair i <$> inner i) <$> outer)) s.
Proof.
  revert s. induction outer as [|i outer IH]; intros s; [reflexivity|].
  rewrite fmap_cons. cbn [run concat]. rewrite run_app.
  assert (Hin : forall l s, run (f i) l s =
                  run (fun '(i, j) => f i j) (pair i <$> l) s).
  { induction l as [|j l IHl]; intros s0; [reflexivity|].
    cbn. destruct (f i j s0); cbn; [apply IHl|reflexivity]. }
  rewrite <- Hin. destruct (run (f i) (inner i) s); cbn; [apply IH|reflexivity].
Qed.

(** ** Loops that store into distinct places

    A state [S] with places [K] holding values [V].  Every action either
    replaces the content [v] of its place by [upd e v] and touches no
    other place, or changes nothing.  When no place is named twice, the
    run ends with each named place updated once, from its initial content. *)

Section Stores.

Context {S K V E : Type}.
Variables (look : S -> K -> option V) (ok : S -> Prop).
Variables (exec : E -> S -> outcome S) (key : E -> option K).
Variable upd : E -> V -> V.

Lemma run_stores es s0 :
  (forall e s, elem_of e es -> ok s ->
     exists s', exec e s = Done s' /\ ok s' /\
       match key e with
       | Some k =>
           (exists v, look s k = Some v /\ look s' k = Some (upd e v)) /\
           (forall k', k' <> k -> look s' k' = look s k')
       | None => forall k, look s' k = look s k
       end) ->
  NoDup (omap key es) -> ok s0 ->
  exists s', run exec es s0 = Done s' /\ ok s' /\
    (forall e k, elem_of e es -> key e = Some k ->
       exists v, look s0 k = Some v /\ look s' k = Some (upd e v)) /\
    (forall k, ~ elem_of k (omap key es) -> look s' k = look s0 k).
Proof.
  revert s0. induction es as [|e es IH]; intros s0 Hex Hnd Hok.
  - exists s0. split; [reflexivity|]. split; [exact Hok|].
    split; [|reflexivity]. intros e k He. inversion He.
  - destruct (Hex e s0 (list_elem_of_here _ _) Hok) as (s1 & He & Hok1 & Hk).
    assert (Hex' : forall e' s, elem_of e' es -> ok s ->
              exists s', exec e' s = Done s' /\ ok s' /\
                match key e' with
                | Some k =>
                    (exists v, look s k = Some v /\ look s' k = Some (upd e' v)) /\
                    (forall k', k' <> k -> look s' k' = look s k')
                | None => forall k, look s' k = look s k
                end).
    { intros e' s He'. apply Hex. now right. }
    cbn [omap list_omap] in Hnd |- *. cbn [run]. rewrite He. cbn [bind].
    destruct (key e) as [k|] eqn:Ek.
    + apply NoDup_cons in Hnd as [Hk_fresh Hnd].
      destruct (IH s1 Hex' Hnd Hok1) as (s' & Hrun & Hok' & Hin & Hout).
      destruct Hk as [(v & Hv0 & Hv1) Hother].
      exists s'. split; [exact Hrun|]. split; [exact Hok'|]. split.
      * intros e' k' He' Ek'. apply elem_of_cons in He' as [->|He'].
        -- rewrite Ek in Ek'. injection Ek' as <-.
           exists v. split; [exact Hv0|]. now rewrite Hout.
        -- destruct (Hin e' k' He' Ek') as (v' & Hv' & Hv'').
           exists v'. split; [|exact Hv''].
           rewrite <- Hv'. symmetry. apply Hother. intros ->.
           apply Hk_fresh. apply list_elem_of_omap. now exists e'.
      * intros k' Hk'. rewrite Hout.
        -- apply Hother. intros ->. apply Hk'. left.
        -- intros Hin'. apply Hk'. now right.
    + destruct (IH s1 Hex' Hnd Hok1) as (s' & Hrun & Hok' & Hin & Hout).
      exists s'. split; [exact Hrun|]. split; [exact Hok'|]. split.
      * intros e' k' He' Ek'. apply elem_of_cons in He' as [->|He'].
        -- congruence.
        -- destruct (Hin e' k' He' Ek') as (v' & Hv' & Hv'').
           exists v'. split; [|exact Hv'']. now rewrite <- Hk.
      * intros k' Hk'. rewrite Hout by exact Hk'. apply Hk.
Qed.

End Stores.

(** ** Grids *)

Section GridFacts.

Context {A : Type}.
Implicit Types (g : list (list A)) (h w i j : Z).

Lemma cell_Some g i j x :
  cell g i j = Some x <->
  0 <= i /\ 0 <= j /\
  exists row, g !! Z.to_nat i = Some row /\ row !! Z.to_nat j = Some x.
Proof.
  unfold cell. destruct (Z.ltb_spec i 0), (Z.ltb_spec j 0); cbn;
    try (split; [discriminate|intros (? & ? & _); lia]).
  destruct (g !! Z.to_nat i) as [row|].
  - split; [intros Hx; repeat split; try lia; now exists row|].
    now intros (_ & _ & row' & [= <-] & Hx).
  - split; [discriminate|]. now intros (_ & _ & row' & [=] & _).
Qed.

Lemma rectangular_row g h w (n : nat) row :
  rectangular g h w -> g !! n = Some row -> len row = w.
Proof. intros [_ Hw] Hrow. exact (Forall_lookup_1 _ _ _ _ Hw Hrow). Qed.

Lemma rectangular_cell g h w i j :
  rectangular g h w -> 0 <= i < h -> 0 <= j < w ->
  exists row x, g !! Z.to_nat i = Some row /\ len row = w /\
                row !! Z.to_nat j = Some x /\ cell g i j = Some x.
Proof.
  intros Hg Hi Hj. pose proof Hg as [Hh _]. unfold len in *.
  destruct (lookup_lt_is_Some_2 g (Z.to_nat i)) as [row Hrow]; [lia|].
  pose proof (rectangular_row _ _ _ _ _ Hg Hrow) as Hlen. unfold len in Hlen.
  destruct (lookup_lt_is_Some_2 row (Z.to_nat j)) as [x Hx]; [lia|].
  exists row, x. repeat split; try assumption.
  apply cell_Some. repeat split; try lia. now exists row.
Qed.

Lemma cell_outside g h w i j :
  rectangular g h w -> ~ (0 <= i < h /\ 0 <= j < w) -> cell g i j = None.
Proof.
  intros Hg Hout. destruct (cell g i j) as [x|] eqn:E; [|reflexivity].
  apply cell_Some in E as (Hi & Hj & row & Hrow & Hx).
  pose proof (rectangular_row _ _ _ _ _ Hg Hrow) as Hlen.
  apply lookup_lt_Some in Hrow, Hx. destruct Hg as [Hh _].
  unfold len in *. lia.
Qed.

(** A rectangular grid is determined by its cells. *)
Lemma rectangular_ext g g' h w :
  rectangular g h w -> rectangular g' h w ->
  (forall i j, 0 <= i < h -> 0 <= j < w -> cell g i j = cell g' i j) ->
  g = g'.
Proof.
  intros Hg Hg' Hcells. apply list_eq_same_length with (Z.to_nat h).
  - destruct Hg' as [Hg' _]. unfold len in Hg'. lia.
  - destruct Hg as [Hg _]. unfold len in Hg. lia.
  - intros n row row' Hn Hrow Hrow'.
    pose proof (rectangular_row _ _ _ _ _ Hg Hrow) as Hl.
    pose proof (rectangular_row _ _ _ _ _ Hg' Hrow') as Hl'.
    unfold len in Hl, Hl'.
    apply list_eq_same_length with (Z.to_nat w); [lia|lia|].
    intros m x x' Hm Hx Hx'.
    specialize (Hcells (Z.of_nat n) (Z.of_nat m) ltac:(lia) ltac:(lia)).
    assert (Hc : cell g (Z.of_nat n) (Z.of_nat m) = Some x).
    { apply cell_Some. repeat split; try lia. exists row.
      now rewrite !Nat2Z.id. }
    assert (Hc' : cell g' (Z.of_nat n) (Z.of_nat m) = Some x').
    { apply cell_Some. repeat split; try lia. exists row'.
      now rewrite !Nat2Z.id. }
    congruence.
Qed.

Lemma rectangular_tabulate h w (f : Z -> Z -> A) :
  0 <= h -> 0 <= w -> rectangular (tabulate h w f) h w.
Proof.
  intros Hh Hw. unfold rectangular, tabulate, len. split.
  - rewrite length_fmap, length_range. lia.
  - apply Forall_fmap, Forall_forall. intros i _. cbn.
    unfold len. rewrite length_fmap, length_range. lia.
Qed.

Lemma cell_tabulate h w (f : Z -> Z -> A) i j :
  0 <= i < h -> 0 <= j < w -> cell (tabulate h w f) i j = Some (f i j).
Proof.
  intros Hi Hj. apply cell_Some. repeat split; try lia.
  exists (f i <$> range 0 w). unfold tabulate. split.
  - rewrite list_lookup_fmap, lookup_range by lia. cbn. do 3 f_equal. lia.
  - rewrite list_lookup_fmap, lookup_range by lia. cbn. do 2 f_equal. lia.
Qed.

(** A grid all of whose cells are given is the tabulated grid. *)
Lemma rectangular_cells g h w (f : Z -> Z -> A) :
  0 <= h -> 0 <= w -> rectangular g h w ->
  (forall i j, 0 <= i < h -> 0 <= j < w -> cell g i j = Some (f i j)) ->
  g = tabulate h w f.
Proof.
  intros Hh Hw Hg Hcells.
  apply (rectangular_ext _ _ h w Hg (rectangular_tabulate h w f Hh Hw)).
  intros i j Hi Hj. now rewrite Hcells, cell_tabulate.
Qed.

(** [g[i][j] = v] inside a rectangular grid. *)
Lemma assign2_rectangular g h w i j v :
  rectangular g h w -> 0 <= i < h -> 0 <= j < w ->
  exists g', assign2 g i j v = Done g' /\ rectangular g' h w /\
    cell g' i j = Some v /\
    (forall i' j', (i', j') <> (i, j) -> cell g' i' j' = cell g i' j').
Proof.
  intros Hg Hi Hj.
  destruct (rectangular_cell _ _ _ _ _ Hg Hi Hj) as (row & x & Hrow & Hlen & Hx & _).
  pose proof Hg as [Hh Hrows].
  exists (<[Z.to_nat i := <[Z.to_nat j := v]> row]> g).
  unfold assign2. rewrite (index_lookup _ _ _ (proj1 Hi) Hrow). cbn [bind].
  rewrite assign_insert by lia. cbn [bind].
  rewrite assign_insert by lia.
  split; [reflexivity|]. unfold len in *. split; [|split].
  - split; [unfold len; rewrite length_insert; lia|].
    apply Forall_insert; [exact Hrows|]. unfold len.
    rewrite length_insert. exact Hlen.
  - apply cell_Some. repeat split; try lia.
    exists (<[Z.to_nat j := v]> row). split.
    + apply list_lookup_insert_eq. lia.
    + apply list_lookup_insert_eq. lia.
  - intros i' j' Hne. unfold cell.
    destruct (Z.ltb_spec i' 0), (Z.ltb_spec j' 0); cbn; try reflexivity.
    destruct (decide (Z.to_nat i' = Z.to_nat i)) as [Ei|Ei].
    + rewrite Ei, list_lookup_insert_eq by lia. rewrite Hrow.
      apply list_lookup_insert_ne. intros Ej. apply Hne. f_equal; lia.
    + now rewrite list_lookup_insert_ne by congruence.
Qed.

(** The two-step allocation yields the all-zero grid. *)
Lemma make2_tabulate (z : A) h w :
  0 <= h -> 0 <= w -> make2 z h w = Done (tabulate h w (fun _ _ => z)).
Proof.
  intros Hh Hw. unfold make2. rewrite make_replicate by exact Hh. cbn [bind].
  rewrite for_range_run.
  set (g0 := replicate (Z.to_nat h) []).
  destruct (run_stores (S := list (list A)) (K := Z)
              (fun g i => if i <? 0 then None else g !! Z.to_nat i)
              (fun g => len g = h)
              (fun i g => row <- make z w ;; assign g i row)
              Some (fun _ _ => replicate (Z.to_nat w) z)
              (range 0 (len g0)) g0)
    as (g' & Hrun & Hlen & Hin & _).
  - intros i g Hi Hg. apply elem_of_range in Hi.
    assert (Hlen0 : len g0 = h).
    { unfold g0, len. rewrite length_replicate. lia. }
    exists (<[Z.to_nat i := replicate (Z.to_nat w) z]> g).
    rewrite make_replicate by exact Hw. cbn [bind].
    rewrite assign_insert by lia. split; [reflexivity|].
    unfold len in *. split; [rewrite length_insert; exact Hg|]. split.
    + destruct (Z.ltb_spec i 0); [lia|].
      destruct (lookup_lt_is_Some_2 g (Z.to_nat i)) as [v Hv]; [lia|].
      exists v. split; [exact Hv|]. apply list_lookup_insert_eq. lia.
    + intros k' Hk'. destruct (Z.ltb_spec k' 0); [reflexivity|].
      apply list_lookup_insert_ne. lia.
  - rewrite omap_Some_id. apply NoDup_range.
  - unfold g0, len. rewrite length_replicate. lia.
  - rewrite Hrun. f_equal.
    assert (Hlen0 : len g0 = h).
    { unfold g0, len. rewrite length_replicate. lia. }
    apply list_eq_same_length with (Z.to_nat h).
    + destruct (rectangular_tabulate h w (fun _ _ => z) Hh Hw) as [Hl _].
      unfold len in Hl. lia.
    + unfold len in Hlen. lia.
    + intros n row row' Hn Hrow Hrow'.
      destruct (Hin (Z.of_nat n) (Z.of_nat n)) as (v & _ & Hv);
        [apply elem_of_range; lia|reflexivity|].
      destruct (Z.ltb_spec (Z.of_nat n) 0); [lia|].
      rewrite Nat2Z.id in Hv. unfold tabulate in Hrow'.
      rewrite list_lookup_fmap, lookup_range in Hrow' by lia.
      cbn in Hrow'. injection Hrow' as <-.
      rewrite Hrow in Hv. injection Hv as ->.
      apply list_eq. intros m.
      destruct (decide (m < Z.to_nat w)%nat) as [Hm|Hm].
      * rewrite lookup_replicate_2 by exact Hm.
        rewrite list_lookup_fmap, lookup_range by lia. reflexivity.
      * rewrite !lookup_ge_None_2; [reflexivity| |].
        -- rewrite length_fmap, length_range. lia.
        -- rewrite length_replicate. lia.
Qed.

End GridFacts.

(** ** Lists of cells *)

Lemma elem_of_concat {A : Type} (x : A) (ls : list (list A)) :
  elem_of x (concat ls) <-> exists l, elem_of l ls /\ elem_of x l.
Proof.
  induction ls as [|l ls IH]; cbn.
  - split; [intros H; inversion H|intros (l & H & _); inversion H].
  - rewrite elem_of_app, IH. split.
    + intros [H|(l' & H1 & H2)].
      * exists l. split; [left|exact H].
      * exists l'. split; [now right|exact H2].
    + intros (l' & H1 & H2). apply elem_of_cons in H1 as [->|H1].
      * now left.
      * right. now exists l'.
Qed.

Lemma elem_of_pairs {I J : Type} (inner : I -> list J) (outer : list I) i j :
  elem_of (i, j) (concat ((fun i => pair i <$> inner i) <$> outer)) <->
  elem_of i outer /\ elem_of j (inner i).
Proof.
  rewrite elem_of_concat. split.
  - intros (l & Hl & Hij). apply list_elem_of_fmap in Hl as (i' & -> & Hi').
    apply list_elem_of_fmap in Hij as (j' & [= -> ->] & Hj'). now split.
  - intros [Hi Hj]. exists (pair i <$> inner i). split.
    + apply list_elem_of_fmap. now exists i.
    + apply list_elem_of_fmap. now exists j.
Qed.

Lemma NoDup_pairs {I J : Type} (inner : I -> list J) (outer : list I) :
  NoDup outer -> (forall i, NoDup (inner i)) ->
  NoDup (concat ((fun i => pair i <$> inner i) <$> outer)).
Proof.
  intros Houter Hinner. induction Houter as [|i outer Hi Houter IH]; cbn.
  - constructor.
  - apply NoDup_app. split; [|split; [|exact IH]].
    + apply NoDup_fmap_2; [|apply Hinner]. now intros j j' [= ->].
    + intros [i' j] Hij Hij'.
      apply list_elem_of_fmap in Hij as (j' & [= -> ->] & _).
      apply elem_of_pairs in Hij' as [Hi' _]. contradiction.
Qed.

(** ** The row partition *)

Section Partition.

Variables height numWorkers : Z.
Hypothesis height_nonneg : 0 <= height.
Hypothesis workers_pos : 1 <= numWorkers.

Let rowsPerWorker := Z.quot height numWorkers.

Lemma rowsPerWorker_bounds :
  0 <= rowsPerWorker /\ numWorkers * rowsPerWorker <= height
  /\ height < numWorkers * (rowsPerWorker + 1).
Proof.
  unfold rowsPerWorker.
  pose proof (Z.mul_quot_le height numWorkers height_nonneg ltac:(lia)).
  pose proof (Z.mul_succ_quot_gt height numWorkers height_nonneg ltac:(lia)).
  pose proof (Z.quot_pos height numWorkers height_nonneg ltac:(lia)).
  lia.
Qed.

Lemma startRow_endRow w :
  0 <= w < numWorkers ->
  0 <= startRow rowsPerWorker w
  /\ startRow rowsPerWorker w <= endRow height numWorkers rowsPerWorker w
  /\ endRow height numWorkers rowsPerWorker w <= height.
Proof.
  intros Hw. pose proof rowsPerWorker_bounds as (Hq & Hle & _).
  unfold endRow, startRow.
  destruct (Z.eqb_spec w (numWorkers - 1)) as [->|Hne]; nia.
Qed.

Lemma endRow_next w :
  0 <= w < numWorkers - 1 ->
  endRow height numWorkers rowsPerWorker w = startRow rowsPerWorker (w + 1).
Proof.
  intros Hw. unfold endRow, startRow.
  destruct (Z.eqb_spec w (numWorkers - 1)); lia.
Qed.

Lemma concat_inner_rows (m : nat) :
  Z.of_nat m <= numWorkers - 1 ->
  concat (workerRows height numWorkers rowsPerWorker <$> range 0 (Z.of_nat m))
  = range 0 (Z.of_nat m * rowsPerWorker).
Proof.
  pose proof rowsPerWorker_bounds as (Hq & _ & _).
  induction m as [|m IH]; intros Hm.
  - reflexivity.
  - rewrite <- (range_app 0 (Z.of_nat m) (Z.of_nat (S m))) by lia.
    rewrite fmap_app, concat_app, IH by lia.
    rewrite (range_cons (Z.of_nat m)), (range_nil (Z.of_nat m + 1)) by lia.
    cbn [fmap list_fmap concat]. rewrite app_nil_r.
    unfold workerRows. rewrite endRow_next by lia. unfold startRow.
    rewrite range_app by nia. f_equal. lia.
Qed.

(** Read in the order of the workers, the rows are [0, 1, ..., height-1]. *)
Lemma concat_workerRows :
  concat (workerRows height numWorkers rowsPerWorker <$> range 0 numWorkers)
  = range 0 height.
Proof.
  pose proof rowsPerWorker_bounds as (Hq & Hle & _).
  rewrite <- (range_app 0 (numWorkers - 1) numWorkers) by lia.
  rewrite fmap_app, concat_app.
  replace (numWorkers - 1) with (Z.of_nat (Z.to_nat (numWorkers - 1))) at 1 by lia.
  rewrite concat_inner_rows by lia.
  rewrite (range_cons (numWorkers - 1)), (range_nil (numWorkers - 1 + 1)) by lia.
  cbn [fmap list_fmap concat]. rewrite app_nil_r.
  unfold workerRows, endRow, startRow. rewrite Z.eqb_refl.
  rewrite Z2Nat.id by lia. apply range_app. nia.
Qed.

Lemma elem_of_workerRows w r :
  elem_of r (workerRows height numWorkers rowsPerWorker w) <->
  startRow rowsPerWorker w <= r < endRow height numWorkers rowsPerWorker w.
Proof. apply elem_of_range. Qed.

(** Two workers never share a row. *)
Lemma workerRows_disjoint w w' r :
  0 <= w < numWorkers -> 0 <= w' < numWorkers ->
  elem_of r (workerRows height numWorkers rowsPerWorker w) ->
  elem_of r (workerRows height numWorkers rowsPerWorker w') ->
  w = w'.
Proof.
  intros Hw Hw'. rewrite !elem_of_workerRows. unfold endRow, startRow.
  pose proof rowsPerWorker_bounds as (Hq & Hle & _).
  destruct (Z.eqb_spec w (numWorkers - 1)), (Z.eqb_spec w' (numWorkers - 1));
    nia.
Qed.

(** Every row has a worker. *)
Lemma workerRows_cover r :
  0 <= r < height ->
  exists w, 0 <= w < numWorkers
            /\ elem_of r (workerRows height numWorkers rowsPerWorker w).
Proof.
  intros Hr. apply elem_of_range in Hr. rewrite <- concat_workerRows in Hr.
  apply elem_of_concat in Hr as (l & Hl & Hr).
  apply list_elem_of_fmap in Hl as (w & -> & Hw).
  apply elem_of_range in Hw. now exists w.
Qed.

(** With more workers than rows, all but the last worker get nothing. *)
Lemma workerRows_excess w :
  height < numWorkers -> 0 <= w < numWorkers - 1 ->
  workerRows height numWorkers rowsPerWorker w = [].
Proof.
  intros Hlt Hw. unfold workerRows, endRow, startRow, rowsPerWorker.
  rewrite Z.quot_small by lia.
  destruct (Z.eqb_spec w (numWorkers - 1)); [lia|]. apply range_nil. lia.
Qed.

Lemma workerRows_excess_last :
  height < numWorkers ->
  workerRows height numWorkers rowsPerWorker (numWorkers - 1) = range 0 height.
Proof.
  intros Hlt. unfold workerRows, endRow, startRow, rowsPerWorker.
  rewrite Z.quot_small by lia. rewrite Z.eqb_refl. f_equal. lia.
Qed.

End Partition.

(** ** Loops that fill a grid *)

Section GridStores.

Context {A E : Type}.
Variable exec : E -> list (list A) -> outcome (list (list A)).
Variable target : E -> option (Z * Z).
Variable value : E -> A -> A.

Lemma run_cells es g0 h w :
  rectangular g0 h w ->
  (forall e g, elem_of e es -> rectangular g h w ->
     match target e with
     | Some (i, j) =>
         0 <= i < h /\ 0 <= j < w /\
         forall old, cell g i j = Some old ->
                     exec e g = assign2 g i j (value e old)
     | None => exec e g = Done g
     end) ->
  NoDup (omap target es) ->
  exists g', run exec es g0 = Done g' /\ rectangular g' h w /\
    (forall e i j, elem_of e es -> target e = Some (i, j) ->
       exists old, cell g0 i j = Some old /\ cell g' i j = Some (value e old)) /\
    (forall i j, ~ elem_of (i, j) (omap target es) -> cell g' i j = cell g0 i j).
Proof.
  intros Hg0 Hexec Hnd.
  destruct (run_stores (fun g (k : Z * Z) => cell g k.1 k.2)
              (fun g => rectangular g h w) exec target value es g0)
    as (g' & Hrun & Hg' & Hin & Hout); [|exact Hnd|exact Hg0|].
  - intros e g He Hg. specialize (Hexec e g He Hg).
    destruct (target e) as [[i j]|].
    + destruct Hexec as (Hi & Hj & Hexec).
      destruct (rectangular_cell _ _ _ _ _ Hg Hi Hj) as (_ & old & _ & _ & _ & Hold).
      destruct (assign2_rectangular g h w i j (value e old) Hg Hi Hj)
        as (g1 & Hg1 & Hrect & Hnew & Hother).
      exists g1. rewrite (Hexec old Hold). split; [exact Hg1|].
      split; [exact Hrect|]. split.
      * exists old. now split.
      * intros [i' j'] Hne. now apply Hother.
    + exists g. split; [exact Hexec|]. split; [exact Hg|]. reflexivity.
  - exists g'. split; [exact Hrun|]. split; [exact Hg'|]. split.
    + intros e i j He Ht. exact (Hin e (i, j) He Ht).
    + intros i j Hij. exact (Hout (i, j) Hij).
Qed.

End GridStores.

(** ** Padding and convolution *)

Section ConvolutionFacts.

Context {F : Type}.
Variable fzero : F.
Variables fadd fmul : F -> F -> F.

Local Abbreviation grid := (list (list F)).

Lemma at_cell (g : grid) i j x : cell g i j = Some x -> at_ fzero g i j = x.
Proof. unfold at_. now intros ->. Qed.

Lemma padded_inside (g : grid) h w padH padW r c :
  rectangular g h w ->
  padH <= r < padH + h -> padW <= c < padW + w ->
  cell g (r - padH) (c - padW) = Some (padded fzero g padH padW r c).
Proof.
  intros Hg Hr Hc.
  destruct (rectangular_cell g h w (r - padH) (c - padW) Hg)
    as (_ & x & _ & _ & _ & Hx); [lia|lia|].
  unfold padded. now rewrite (at_cell _ _ _ _ Hx).
Qed.

Lemma padded_outside (g : grid) h w padH padW r c :
  rectangular g h w ->
  ~ (padH <= r < padH + h /\ padW <= c < padW + w) ->
  padded fzero g padH padW r c = fzero.
Proof.
  intros Hg Hout. unfold padded, at_.
  rewrite (cell_outside g h w); [reflexivity|exact Hg|lia].
Qed.

(** The padding loops build the zero-padded grid. *)
Lemma padImage_padded (image : grid) height width padH padW :
  rectangular image height width -> 0 <= width -> 0 <= padH -> 0 <= padW ->
  padImage fzero image height width padH padW
  = Done (tabulate (height + 2 * padH) (width + 2 * padW)
            (padded fzero image padH padW)).
Proof.
  intros Himg Hw HpH HpW.
  assert (Hh : 0 <= height) by (destruct Himg as [<- _]; unfold len; lia).
  unfold padImage. rewrite make2_tabulate by lia. cbn [bind].
  rewrite for_range_run.
  erewrite run_ext; [|intros i s _; apply for_range_run].
  rewrite (run_nested (fun i j paddedImage =>
             row <- index image i ;;
             v <- index row j ;;
             assign2 paddedImage (i + padH) (j + padW) v)).
  set (es := concat ((fun i => pair i <$> range 0 width) <$> range 0 height)).
  set (g0 := tabulate _ _ _).
  assert (Hnd : NoDup ((fun e : Z * Z => (e.1 + padH, e.2 + padW)) <$> es)).
  { apply NoDup_fmap_2.
    - intros [i j] [i' j'] [= ? ?]. f_equal; lia.
    - apply NoDup_pairs; [apply NoDup_range|intros _; apply NoDup_range]. }
  destruct (run_cells
              (fun '(i, j) paddedImage =>
                 row <- index image i ;;
                 v <- index row j ;;
                 assign2 paddedImage (i + padH) (j + padW) v)
              (fun e => Some (e.1 + padH, e.2 + padW))
              (fun e _ => at_ fzero image e.1 e.2)
              es g0 (height + 2 * padH) (width + 2 * padW))
    as (g' & Hrun & Hg' & Hin & Hout).
  - apply rectangular_tabulate; lia.
  - intros [i j] g Hij Hg. apply elem_of_pairs in Hij as [Hi Hj].
    apply elem_of_range in Hi, Hj. cbn [fst snd].
    split; [lia|]. split; [lia|]. intros old _.
    destruct (rectangular_cell image height width i j Himg)
      as (row & x & Hrow & _ & Hx & Hc); [lia|lia|].
    rewrite (index_lookup image i row) by (lia || exact Hrow). cbn [bind].
    rewrite (index_lookup row j x) by (lia || exact Hx). cbn [bind].
    now rewrite (at_cell _ _ _ _ Hc).
  - now rewrite <- list_fmap_alt.
  - rewrite Hrun. f_equal.
    apply rectangular_cells; [lia|lia|exact Hg'|]. intros r c Hr Hc.
    destruct (decide (padH <= r < padH + height /\ padW <= c < padW + width))
      as [[Hr' Hc']|Hno].
    + destruct (Hin (r - padH, c - padW) r c) as (old & _ & Hnew).
      * apply elem_of_pairs. split; apply elem_of_range; lia.
      * cbn [fst snd]. do 2 f_equal; lia.
      * rewrite Hnew. reflexivity.
    + rewrite Hout.
      * unfold g0. rewrite cell_tabulate by lia.
        now rewrite (padded_outside image height width).
      * rewrite <- list_fmap_alt. intros Hin'.
        apply list_elem_of_fmap in Hin' as ([i j] & [= -> ->] & Hij).
        apply elem_of_pairs in Hij as [Hi Hj].
        apply elem_of_range in Hi, Hj. cbn [fst snd] in Hno. lia.
Qed.

(** The accumulation loops compute the weighted sum, in its order. *)
Lemma kernelSum_weightedSum (P K : grid) (Pf Kf : Z -> Z -> F) kH kW i j :
  (forall a b, 0 <= a < kH -> 0 <= b < kW ->
               cell P (i + a) (j + b) = Some (Pf (i + a) (j + b))) ->
  (forall a b, 0 <= a < kH -> 0 <= b < kW -> cell K a b = Some (Kf a b)) ->
  kernelSum fzero fadd fmul P K kH kW i j
  = Done (weightedSum fzero fadd fmul Pf Kf kH kW i j).
Proof.
  intros HP HK. unfold kernelSum, weightedSum.
  rewrite for_range_run. apply run_foldl.
  intros a sum Ha. apply elem_of_range in Ha.
  rewrite for_range_run. apply run_foldl.
  intros b sum' Hb. apply elem_of_range in Hb.
  specialize (HP a b Ha Hb). specialize (HK a b Ha Hb).
  apply cell_Some in HP as (? & ? & prow & Hprow & Hp).
  apply cell_Some in HK as (? & ? & krow & Hkrow & Hk).
  rewrite (index_lookup P _ prow) by assumption. cbn [bind].
  rewrite (index_lookup prow _ _) by eassumption. cbn [bind].
  rewrite (index_lookup K _ krow) by assumption. cbn [bind].
  rewrite (index_lookup krow _ _) by eassumption. reflexivity.
Qed.

End ConvolutionFacts.

(** ** Schedules *)

Lemma concat_insert_Permutation {E : Type} (pending : list (list E)) w e rest :
  pending !! w = Some (e :: rest) ->
  Permutation (concat pending) (e :: concat (<[w := rest]> pending)).
Proof.
  intros Hw. pose proof (lookup_lt_Some _ _ _ Hw) as Hlt.
  rewrite insert_take_drop by exact Hlt.
  rewrite <- (take_drop_middle pending w (e :: rest) Hw) at 1.
  rewrite !concat_app. cbn [concat].
  rewrite <- app_comm_cons. symmetry. apply Permutation_middle.
Qed.

(** Whatever the schedule, every action of every goroutine is performed
    exactly once. *)
Lemma interleaving_Permutation {E : Type} sched (pending : list (list E)) :
  Permutation (interleaving sched pending) (concat pending).
Proof.
  revert pending. induction sched as [|w sched IH]; intros pending; cbn.
  - reflexivity.
  - destruct (pending !! w) as [[|e rest]|] eqn:Hw; [apply IH| |apply IH].
    rewrite (concat_insert_Permutation pending w e rest Hw).
    constructor. apply IH.
Qed.

(** ** The actions of the convolution workers *)

Lemma stored_worker height width numWorkers rowsPerWorker w :
  omap stored (worker height width numWorkers rowsPerWorker w)
  = cellsOf (workerRows height numWorkers rowsPerWorker w) width.
Proof.
  unfold worker, cellsOf. rewrite omap_app. cbn. rewrite app_nil_r.
  induction (workerRows height numWorkers rowsPerWorker w) as [|i rows IH].
  - reflexivity.
  - cbn [fmap list_fmap concat]. rewrite omap_app. f_equal; [|exact IH].
    generalize (range 0 width). intros l.
    induction l as [|j l IHl]; cbn; [reflexivity|now f_equal].
Qed.

Lemma stored_workers height width numWorkers rowsPerWorker ws :
  omap stored (concat (worker height width numWorkers rowsPerWorker <$> ws))
  = cellsOf (concat (workerRows height numWorkers rowsPerWorker <$> ws)) width.
Proof.
  unfold cellsOf. induction ws as [|w ws IH]; [reflexivity|].
  cbn [fmap list_fmap concat]. rewrite omap_app, IH, stored_worker.
  unfold cellsOf. now rewrite fmap_app, concat_app.
Qed.

Lemma elem_of_cellsOf rows width i j :
  elem_of (i, j) (cellsOf rows width) <-> elem_of i rows /\ 0 <= j < width.
Proof. unfold cellsOf. now rewrite elem_of_pairs, elem_of_range. Qed.

Lemma NoDup_cellsOf rows width : NoDup rows -> NoDup (cellsOf rows width).
Proof. intros H. apply NoDup_pairs; [exact H|intros _; apply NoDup_range]. Qed.

Section Workers.

Variables height width numWorkers : Z.
Hypothesis height_nonneg : 0 <= height.
Hypothesis workers_pos : 1 <= numWorkers.

Let rowsPerWorker := Z.quot height numWorkers.
Let goroutines :=
  worker height width numWorkers rowsPerWorker <$> range 0 numWorkers.

(** The cells the goroutines store, in the order of the workers, are the
    cells of the grid in row-major order. *)
Lemma stored_goroutines :
  omap stored (concat goroutines) = cellsOf (range 0 height) width.
Proof.
  unfold goroutines. rewrite stored_workers. unfold rowsPerWorker.
  now rewrite concat_workerRows.
Qed.

Lemma stored_interleaving sched :
  Permutation (omap stored (interleaving sched goroutines))
              (cellsOf (range 0 height) width).
Proof.
  rewrite <- stored_goroutines.
  apply omap_Permutation, interleaving_Permutation.
Qed.

Lemma elem_of_interleaving sched a :
  elem_of a (interleaving sched goroutines) <->
  match a with
  | Store i j => 0 <= i < height /\ 0 <= j < width
  | Send w => 0 <= w < numWorkers
  end.
Proof.
  rewrite (interleaving_Permutation sched goroutines).
  destruct a as [i j|w].
  - rewrite <- elem_of_range, <- elem_of_cellsOf, <- stored_goroutines.
    rewrite list_elem_of_omap. split.
    + intros H. now exists (Store i j).
    + now intros ([i' j'|w'] & H & [= -> ->]).
  - unfold goroutines. rewrite elem_of_concat. split.
    + intros (l & Hl & Hw). apply list_elem_of_fmap in Hl as (w' & -> & Hw').
      apply elem_of_range in Hw'. unfold worker in Hw.
      apply elem_of_app in Hw as [Hw|Hw].
      * apply elem_of_concat in Hw as (l & Hl & Hw).
        apply list_elem_of_fmap in Hl as (i & -> & _).
        apply list_elem_of_fmap in Hw as (j & [=] & _).
      * apply list_elem_of_singleton in Hw as [= ->]. exact Hw'.
    + intros Hw. exists (worker height width numWorkers rowsPerWorker w).
      split.
      * apply list_elem_of_fmap. exists w. split; [reflexivity|].
        now apply elem_of_range.
      * unfold worker. apply elem_of_app. right. left.
Qed.

End Workers.

(** ** Both strategies compute the contract *)

Lemma half_bounds k : 0 <= k -> 0 <= Z.quot k 2 /\ k <= 2 * Z.quot k 2 + 1.
Proof.
  intros Hk. rewrite Z.quot_div_nonneg by lia.
  pose proof (Z.div_mod k 2 ltac:(lia)). pose proof (Z.mod_pos_bound k 2 ltac:(lia)).
  lia.
Qed.

Lemma first_row {A : Type} (g : list (list A)) h w :
  rectangular g h w -> 1 <= h ->
  exists row0, index g 0 = Done row0 /\ len row0 = w /\ 0 <= w.
Proof.
  intros Hg Hh. destruct g as [|row0 g].
  - destruct Hg as [Hlen _]. unfold len in Hlen. cbn in Hlen. lia.
  - exists row0. split; [reflexivity|].
    pose proof (rectangular_row _ _ _ 0%nat row0 Hg eq_refl) as Hw.
    split; [exact Hw|]. unfold len in Hw. lia.
Qed.

Section ConvolutionCorrect.

Context {F : Type}.
Variable fzero : F.
Variables fadd fmul : F -> F -> F.
Variables (image kernel : list (list F)) (height width kHeight kWidth : Z).
Hypothesis image_rectangular : rectangular image height width.
Hypothesis image_rows : 1 <= height.
Hypothesis kernel_rectangular : rectangular kernel kHeight kWidth.
Hypothesis kernel_rows : 1 <= kHeight.

Let padHeight := Z.quot kHeight 2.
Let padWidth := Z.quot kWidth 2.
Let paddedImage :=
  tabulate (height + 2 * padHeight) (width + 2 * padWidth)
    (padded fzero image padHeight padWidth).
Let R := convolved fzero fadd fmul image kernel kHeight kWidth.

Lemma width_nonneg : 0 <= width /\ 0 <= kWidth.
Proof.
  destruct (first_row image _ _ image_rectangular image_rows) as (_ & _ & _ & ?).
  destruct (first_row kernel _ _ kernel_rectangular kernel_rows) as (_ & _ & _ & ?).
  now split.
Qed.

Lemma kernelSum_convolved i j :
  0 <= i < height -> 0 <= j < width ->
  kernelSum fzero fadd fmul paddedImage kernel kHeight kWidth i j = Done (R i j).
Proof.
  intros Hi Hj. destruct width_nonneg as [Hw HkW].
  pose proof (half_bounds kHeight ltac:(lia)) as [? ?].
  pose proof (half_bounds kWidth HkW) as [? ?].
  apply kernelSum_weightedSum.
  - intros a b Ha Hb. unfold paddedImage, padHeight, padWidth.
    apply cell_tabulate; lia.
  - intros a b Ha Hb.
    destruct (rectangular_cell kernel _ _ a b kernel_rectangular Ha Hb)
      as (_ & x & _ & _ & _ & Hx).
    now rewrite (at_cell fzero _ _ _ _ Hx).
Qed.

Lemma convolveCell_assign2 i j (result : list (list F)) :
  0 <= i < height -> 0 <= j < width ->
  convolveCell fzero fadd fmul paddedImage kernel kHeight kWidth i j result
  = assign2 result i j (R i j).
Proof.
  intros Hi Hj. unfold convolveCell.
  now rewrite (kernelSum_convolved i j Hi Hj).
Qed.

(** The sequential strategy. *)
Lemma convolve_convolved :
  convolve fzero fadd fmul image kernel = Done (tabulate height width R).
Proof.
  destruct width_nonneg as [Hw HkW].
  destruct (first_row image _ _ image_rectangular image_rows)
    as (row0 & Hrow0 & Hlen0 & _).
  destruct (first_row kernel _ _ kernel_rectangular kernel_rows)
    as (krow0 & Hkrow0 & Hklen0 & _).
  pose proof image_rectangular as [Hlen _].
  pose proof kernel_rectangular as [Hklen _].
  pose proof (half_bounds kHeight ltac:(lia)) as [? _].
  pose proof (half_bounds kWidth HkW) as [? _].
  unfold convolve. rewrite Hrow0, Hkrow0. cbn [bind].
  rewrite Hlen, Hlen0, Hklen, Hklen0.
  rewrite padImage_padded by (assumption || lia). cbn [bind].
  rewrite make2_tabulate by lia. cbn [bind].
  rewrite for_range_run.
  erewrite run_ext; [|intros i s _; apply for_range_run].
  rewrite (run_nested (convolveCell fzero fadd fmul _ kernel kHeight kWidth)).
  fold padHeight padWidth paddedImage (cellsOf (range 0 height) width).
  destruct (run_cells
              (fun '(i, j) =>
                 convolveCell fzero fadd fmul paddedImage kernel kHeight kWidth i j)
              Some (fun e _ => R e.1 e.2)
              (cellsOf (range 0 height) width)
              (tabulate height width (fun _ _ => fzero)) height width)
    as (g' & Hrun & Hg' & Hin & _).
  - apply rectangular_tabulate; lia.
  - intros [i j] g Hij Hg. apply elem_of_cellsOf in Hij as [Hi Hj].
    apply elem_of_range in Hi. split; [lia|]. split; [lia|]. intros old _.
    now apply convolveCell_assign2.
  - rewrite omap_Some_id. apply NoDup_cellsOf, NoDup_range.
  - rewrite Hrun. f_equal.
    apply rectangular_cells; [lia|lia|exact Hg'|]. intros i j Hi Hj.
    destruct (Hin (i, j) i j) as (old & _ & Hnew); [|reflexivity|exact Hnew].
    apply elem_of_cellsOf. split; [now apply elem_of_range|exact Hj].
Qed.

(** Sending a part of [result] and copying it back changes nothing. *)
Lemma perform_Send numWorkers w (result : list (list F)) P :
  1 <= numWorkers -> 0 <= w < numWorkers -> len result = height ->
  perform fzero fadd fmul P kernel height kHeight kWidth numWorkers
    (Z.quot height numWorkers) (Send w) result
  = Done result.
Proof.
  intros HN Hw Hlen. cbn [perform].
  pose proof (startRow_endRow height numWorkers ltac:(lia) HN w Hw)
    as (H0 & H1 & H2).
  rewrite slice_take_drop by lia. cbn [bind].
  rewrite slice_take_drop by lia. cbn [bind]. f_equal.
  set (start := startRow (Z.quot height numWorkers) w) in *.
  assert (Hdst : take (Z.to_nat (len result - start))
                   (drop (Z.to_nat start) result)
                 = drop (Z.to_nat start) result).
  { apply take_ge. rewrite length_drop. unfold len. lia. }
  rewrite Hdst, copy_prefix. apply take_drop.
Qed.

(** The parallel strategy, under every schedule. *)
Lemma convolveParallel_convolved sched numWorkers :
  1 <= numWorkers ->
  convolveParallel fzero fadd fmul sched image kernel numWorkers
  = Done (tabulate height width R).
Proof.
  intros HN. destruct width_nonneg as [Hw HkW].
  destruct (first_row image _ _ image_rectangular image_rows)
    as (row0 & Hrow0 & Hlen0 & _).
  destruct (first_row kernel _ _ kernel_rectangular kernel_rows)
    as (krow0 & Hkrow0 & Hklen0 & _).
  pose proof image_rectangular as [Hlen _].
  pose proof kernel_rectangular as [Hklen _].
  pose proof (half_bounds kHeight ltac:(lia)) as [? _].
  pose proof (half_bounds kWidth HkW) as [? _].
  unfold convolveParallel. rewrite Hrow0, Hkrow0. cbn [bind].
  rewrite Hlen, Hlen0, Hklen, Hklen0.
  rewrite padImage_padded by (assumption || lia). cbn [bind].
  rewrite make2_tabulate by lia. cbn [bind].
  unfold quo. destruct (Z.eqb_spec numWorkers 0) as [?|_]; [lia|]. cbn [bind].
  fold padHeight padWidth paddedImage.
  set (rowsPerWorker := Z.quot height numWorkers).
  set (es := interleaving sched _).
  destruct (run_cells
              (perform fzero fadd fmul paddedImage kernel height kHeight kWidth
                 numWorkers rowsPerWorker)
              stored
              (fun a _ => match a with Store i j => R i j | Send _ => fzero end)
              es (tabulate height width (fun _ _ => fzero)) height width)
    as (g' & Hrun & Hg' & Hin & _).
  - apply rectangular_tabulate; lia.
  - intros a g Ha Hg.
    apply (elem_of_interleaving height width numWorkers ltac:(lia) HN) in Ha.
    destruct a as [i j|w]; cbn [stored].
    + split; [lia|]. split; [lia|]. intros old _.
      now apply convolveCell_assign2.
    + apply perform_Send; [exact HN|exact Ha|apply Hg].
  - unfold es, rowsPerWorker.
    rewrite (stored_interleaving height width numWorkers ltac:(lia) HN).
    apply NoDup_cellsOf, NoDup_range.
  - rewrite Hrun. f_equal.
    apply rectangular_cells; [lia|lia|exact Hg'|]. intros i j Hi Hj.
    destruct (Hin (Store i j) i j) as (old & _ & Hnew);
      [|reflexivity|exact Hnew].
    now apply (elem_of_interleaving height width numWorkers ltac:(lia) HN).
Qed.

(** Without workers the division [height / numWorkers] panics. *)
Lemma convolveParallel_no_worker sched :
  convolveParallel fzero fadd fmul sched image kernel 0 = Panic DivideByZero.
Proof.
  destruct width_nonneg as [Hw HkW].
  destruct (first_row image _ _ image_rectangular image_rows)
    as (row0 & Hrow0 & Hlen0 & _).
  destruct (first_row kernel _ _ kernel_rectangular kernel_rows)
    as (krow0 & Hkrow0 & Hklen0 & _).
  pose proof image_rectangular as [Hlen _].
  pose proof kernel_rectangular as [Hklen _].
  pose proof (half_bounds kHeight ltac:(lia)) as [? _].
  pose proof (half_bounds kWidth HkW) as [? _].
  unfold convolveParallel. rewrite Hrow0, Hkrow0. cbn [bind].
  rewrite Hlen, Hlen0, Hklen, Hklen0.
  rewrite padImage_padded by (assumption || lia). cbn [bind].
  rewrite make2_tabulate by lia. reflexivity.
Qed.

End ConvolutionCorrect.

(** ** Folds over indices and over elements *)

Lemma foldl_ext_in {A B : Type} (f g : A -> B -> A) (l : list B) (a : A) :
  (forall a x, elem_of x l -> f a x = g a x) -> foldl f a l = foldl g a l.
Proof.
  revert a. induction l as [|x l IH]; intros a H; [reflexivity|].
  cbn. rewrite H by left. apply IH. intros a' x' Hx'. apply H. now right.
Qed.

Lemma foldl_indices {A B : Type} (f : A -> B -> A) (l : list B) (g : Z -> B)
    (a : A) :
  (forall (k : nat) x, l !! k = Some x -> g (Z.of_nat k) = x) ->
  foldl (fun a k => f a (g k)) a (range 0 (len l)) = foldl f a l.
Proof.
  induction l as [|x l IH] using rev_ind; intros Hg; [reflexivity|].
  unfold len in *. rewrite length_app, Nat2Z.inj_add. cbn [length].
  rewrite <- (range_app 0 (Z.of_nat (length l))) by lia.
  rewrite (range_cons (Z.of_nat (length l))) by lia.
  rewrite (range_nil (Z.of_nat (length l) + 1)) by lia.
  rewrite !foldl_snoc. rewrite IH.
  - f_equal. apply Hg. apply list_lookup_middle. reflexivity.
  - intros k y Hk. apply Hg. apply lookup_app_l_Some. exact Hk.
Qed.

(** In exact arithmetic the accumulation is [c] times the weight sum. *)
Lemma uniformResponse_weightSum {F : Type} (fzero : F) (fadd fmul : F -> F -> F)
    (c : F) (kernel : list (list F)) :
  (forall x, fmul x fzero = fzero) ->
  (forall x y z, fmul x (fadd y z) = fadd (fmul x y) (fmul x z)) ->
  uniformResponse fzero fadd fmul c kernel
  = fmul c (weightSum fzero fadd kernel).
Proof.
  intros Hzero Hdistr. unfold uniformResponse, weightSum.
  rewrite <- (Hzero c) at 1. generalize fzero at 1 2. intros s.
  revert s. induction kernel as [|row k IH]; intros s; [reflexivity|].
  cbn [foldl]. rewrite <- IH. f_equal.
  clear IH. revert s. induction row as [|w row IHrow]; intros s; [reflexivity|].
  cbn [foldl]. rewrite <- IHrow. f_equal. symmetry. apply Hdistr.
Qed.

Section UniformGrid.

Context {F : Type}.
Variable fzero : F.
Variables fadd fmul : F -> F -> F.
Variables (image kernel : list (list F)) (height width kHeight kWidth : Z).
Hypothesis image_rectangular : rectangular image height width.
Hypothesis kernel_rectangular : rectangular kernel kHeight kWidth.
Variable c : F.
Hypothesis uniform :
  forall i j, 0 <= i < height -> 0 <= j < width -> cell image i j = Some c.

(** A window inside the image only sees [c]. *)
Lemma convolved_uniform i j :
  Z.quot kHeight 2 <= i -> i + kHeight <= Z.quot kHeight 2 + height ->
  Z.quot kWidth 2 <= j -> j + kWidth <= Z.quot kWidth 2 + width ->
  convolved fzero fadd fmul image kernel kHeight kWidth i j
  = uniformResponse fzero fadd fmul c kernel.
Proof.
  intros Hi1 Hi2 Hj1 Hj2. unfold convolved, weightedSum, uniformResponse.
  pose proof kernel_rectangular as [HkH _].
  replace (range 0 kHeight) with (range 0 (len kernel)) by now rewrite HkH.
  rewrite <- (foldl_indices
                (fun sum row => foldl (fun sum w => fadd sum (fmul c w)) sum row)
                kernel (fun a => default [] (kernel !! Z.to_nat a))).
  2:{ intros k row Hk. now rewrite Nat2Z.id, Hk. }
  apply foldl_ext_in. intros sum a Ha. apply elem_of_range in Ha.
  destruct (lookup_lt_is_Some_2 kernel (Z.to_nat a)) as [row Hrow];
    [unfold len in Ha; lia|].
  rewrite Hrow. cbn [default].
  pose proof (rectangular_row _ _ _ _ _ kernel_rectangular Hrow) as Hlen.
  rewrite <- (foldl_indices (fun sum w => fadd sum (fmul c w)) row
                (fun b => at_ fzero kernel a b)).
  2:{ intros k x Hk. apply at_cell, cell_Some.
      repeat split; try lia. exists row. now rewrite Nat2Z.id. }
  rewrite Hlen. apply foldl_ext_in. intros sum' b Hb.
  apply elem_of_range in Hb. rewrite HkH in Ha. do 2 f_equal.
  unfold padded. apply at_cell, uniform; lia.
Qed.

End UniformGrid.

(** ** The gradient combiner *)

Lemma run_ext_inv {E S : Type} (ok : S -> Prop)
    (exec exec' : E -> S -> outcome S) es s :
  ok s ->
  (forall e s, elem_of e es -> ok s ->
     exec e s = exec' e s /\ forall s', exec' e s = Done s' -> ok s') ->
  run exec es s = run exec' es s.
Proof.
  revert s. induction es as [|e es IH]; intros s Hok H; [reflexivity|].
  cbn. destruct (H e s (list_elem_of_here _ _) Hok) as [-> Hnext].
  destruct (exec' e s) as [s'|]; cbn; [|reflexivity].
  apply IH; [now apply Hnext|]. intros e' s0 He'. apply H. now right.
Qed.

Lemma foldl_concat {A B : Type} (f : A -> B -> A) (ls : list (list B)) (a : A) :
  foldl f a (concat ls) = foldl (fun a l => foldl f a l) a ls.
Proof.
  revert a. induction ls as [|l ls IH]; intros a; [reflexivity|].
  cbn [concat]. rewrite foldl_app. apply IH.
Qed.

Section CombinerFacts.

Import Float64.

Lemma foldl_minMax cells a b :
  foldl minMax (a, b) cells = (scanMin cells a, scanMax cells b).
Proof.
  revert a b. induction cells as [|e cells IH]; intros a b; [reflexivity|].
  cbn [foldl minMax]. apply IH.
Qed.

Variables (gradientX gradientY : list (list float)) (height width : Z).
Hypothesis gradientX_rectangular : rectangular gradientX height width.
Hypothesis gradientY_rectangular : rectangular gradientY height width.
Hypothesis rows : 1 <= height.

Let M := tabulate height width (magnitude gradientX gradientY).

(** The first part returns the grid of the magnitudes. *)
Lemma magnitudeGrid_magnitude : magnitudeGrid gradientX gradientY = Done M.
Proof.
  destruct (first_row gradientX _ _ gradientX_rectangular rows)
    as (row0 & Hrow0 & Hlen0 & Hw).
  pose proof gradientX_rectangular as [Hlen _].
  unfold magnitudeGrid. rewrite Hlen, make_replicate by lia. cbn [bind].
  assert (Halloc :
    for_range 0 (len (replicate (Z.to_nat height) ([] : list float)))
      (fun i edges =>
         gx0 <- index gradientX 0 ;;
         row <- make 0%float (len gx0) ;;
         assign edges i row)
      (replicate (Z.to_nat height) [])
    = Done (tabulate height width (fun _ _ => 0%float))).
  { rewrite <- (make2_tabulate 0%float height width) by lia.
    unfold make2. rewrite make_replicate by lia. cbn [bind].
    rewrite !for_range_run. apply run_ext. intros i s _.
    rewrite Hrow0. cbn [bind]. now rewrite Hlen0. }
  rewrite Halloc. cbn [bind]. clear Halloc.
  rewrite for_range_run.
  erewrite run_ext;
    [|intros i s _; rewrite Hrow0; cbn [bind]; rewrite Hlen0; apply for_range_run].
  rewrite (run_nested (fun i j edges =>
             gxi <- index gradientX i ;;
             x <- index gxi j ;;
             gyi <- index gradientY i ;;
             y <- index gyi j ;;
             assign2 edges i j (sqrt (x * x + y * y)))).
  fold (cellsOf (range 0 height) width).
  destruct (run_cells
              (fun '(i, j) edges =>
                 gxi <- index gradientX i ;;
                 x <- index gxi j ;;
                 gyi <- index gradientY i ;;
                 y <- index gyi j ;;
                 assign2 edges i j (sqrt (x * x + y * y)))
              Some (fun e _ => magnitude gradientX gradientY e.1 e.2)
              (cellsOf (range 0 height) width)
              (tabulate height width (fun _ _ => 0%float)) height width)
    as (g' & Hrun & Hg' & Hin & _).
  - apply rectangular_tabulate; lia.
  - intros [i j] g Hij Hg. apply elem_of_cellsOf in Hij as [Hi Hj].
    apply elem_of_range in Hi. split; [lia|]. split; [lia|]. intros old _.
    destruct (rectangular_cell gradientX _ _ i j gradientX_rectangular)
      as (gxi & x & Hgxi & _ & Hx & Hcx); [lia|lia|].
    destruct (rectangular_cell gradientY _ _ i j gradientY_rectangular)
      as (gyi & y & Hgyi & _ & Hy & Hcy); [lia|lia|].
    rewrite (index_lookup gradientX i gxi) by (lia || assumption). cbn [bind].
    rewrite (index_lookup gxi j x) by (lia || assumption). cbn [bind].
    rewrite (index_lookup gradientY i gyi) by (lia || assumption). cbn [bind].
    rewrite (index_lookup gyi j y) by (lia || assumption). cbn [bind fst snd].
    unfold magnitude. now rewrite (at_cell _ _ _ _ _ Hcx), (at_cell _ _ _ _ _ Hcy).
  - rewrite omap_Some_id. apply NoDup_cellsOf, NoDup_range.
  - rewrite Hrun. f_equal.
    apply rectangular_cells; [lia|lia|exact Hg'|]. intros i j Hi Hj.
    destruct (Hin (i, j) i j) as (old & _ & Hnew); [|reflexivity|exact Hnew].
    apply elem_of_cellsOf. split; [now apply elem_of_range|exact Hj].
Qed.

End CombinerFacts.

Section NormalizeFacts.

Import Float64.

(** The second part rescales every cell of a rectangular grid with the
extrema found by the scan. *)
Lemma normalize_rescale (edges : list (list float)) height width :
  rectangular edges height width -> 1 <= height -> 1 <= width ->
  normalize edges
  = Done (tabulate height width
            (fun i j => rescale (minOf edges) (maxOf edges) (at_ 0%float edges i j))).
Proof.
  intros Hrect Hh Hw.
  destruct (first_row edges _ _ Hrect Hh) as (row0 & Hrow0 & Hlen0 & _).
  pose proof Hrect as [Hlen _].
  destruct (rectangular_cell edges _ _ 0 0 Hrect ltac:(lia) ltac:(lia))
    as (row0' & m00 & Hrow0' & _ & Hm00 & Hc00).
  assert (row0' = row0) as ->.
  { apply index_inv in Hrow0 as [_ Hrow0]. cbn in Hrow0, Hrow0'. congruence. }
  unfold normalize. rewrite Hrow0. cbn [bind].
  rewrite (index_lookup row0 0 m00) by (lia || assumption). cbn [bind].
  rewrite Hlen.
  (* the scan *)
  assert (Hscan :
    for_range 0 height (fun i mm =>
        for_range 0 (len row0) (fun j mm =>
          ei <- index edges i ;;
          e <- index ei j ;;
          Done (minMax mm e)) mm) (m00, m00)
    = Done (minOf edges, maxOf edges)).
  { rewrite for_range_run.
    rewrite (run_foldl _ (fun mm i =>
               foldl (fun mm j => minMax mm (at_ 0%float edges i j)) mm
                     (range 0 width))).
    - f_equal. unfold minOf, maxOf. rewrite (at_cell _ _ _ _ _ Hc00).
      rewrite <- foldl_minMax, foldl_concat.
      rewrite <- (foldl_indices (fun mm row => foldl minMax mm row) edges
                    (fun i => default [] (edges !! Z.to_nat i))).
      2:{ intros k row Hk. now rewrite Nat2Z.id, Hk. }
      rewrite Hlen. apply foldl_ext_in. intros mm i Hi.
      apply elem_of_range in Hi.
      destruct (lookup_lt_is_Some_2 edges (Z.to_nat i)) as [row Hrow];
        [unfold len in Hlen; lia|].
      rewrite Hrow. cbn [default].
      pose proof (rectangular_row _ _ _ _ _ Hrect Hrow) as Hl.
      rewrite <- (foldl_indices minMax row (fun j => at_ 0%float edges i j)).
      2:{ intros k x Hk. apply at_cell, cell_Some.
          repeat split; try lia. exists row. now rewrite Nat2Z.id. }
      now rewrite Hl.
    - intros i mm Hi. apply elem_of_range in Hi.
      rewrite Hlen0, for_range_run.
      apply run_foldl. intros j mm' Hj. apply elem_of_range in Hj.
      destruct (rectangular_cell edges _ _ i j Hrect Hi Hj)
        as (ei & e & Hei & _ & He & Hc).
      rewrite (index_lookup edges i ei) by (lia || assumption). cbn [bind].
      rewrite (index_lookup ei j e) by (lia || assumption). cbn [bind].
      now rewrite (at_cell _ _ _ _ _ Hc). }
  rewrite Hscan. cbn [bind]. clear Hscan.
  set (mn := minOf edges). set (mx := maxOf edges).
  set (body := fun (i j : Z) (edges : list (list float)) =>
                 ei <- index edges i ;;
                 e <- index ei j ;;
                 assign2 edges i j (255 * (e - mn) / (mx - mn))%float).
  assert (Hbody : forall i j g old,
            cell g i j = Some old ->
            body i j g = assign2 g i j (rescale mn mx old)).
  { intros i j g old Hold.
    apply cell_Some in Hold as (Hi & Hj & ei & Hei & He). unfold body.
    rewrite (index_lookup g i ei) by assumption. cbn [bind].
    now rewrite (index_lookup ei j old) by assumption. }
  rewrite for_range_run.
  rewrite (run_ext_inv (fun g => rectangular g height width) _
             (fun i g => run (body i) (range 0 width) g)).
  2: exact Hrect.
  2:{ intros i g Hi Hg. apply elem_of_range in Hi. split.
      - destruct (first_row g _ _ Hg Hh) as (r0 & Hr0 & Hl0 & _).
        rewrite Hr0. cbn [bind]. rewrite Hl0. apply for_range_run.
      - intros s' Hs'.
        destruct (run_cells (body i) (fun j => Some (i, j))
                    (fun _ old => rescale mn mx old)
                    (range 0 width) g height width Hg)
          as (g' & Hrun & Hg' & _).
        + intros j g0 Hj Hg0. apply elem_of_range in Hj.
          split; [lia|]. split; [lia|]. intros old Hold. now apply Hbody.
        + rewrite <- list_fmap_alt. apply NoDup_fmap_2; [|apply NoDup_range].
          now intros j j' [= ->].
        + congruence. }
  rewrite (run_nested body). fold (cellsOf (range 0 height) width).
  destruct (run_cells (fun '(i, j) => body i j) Some
              (fun _ old => rescale mn mx old)
              (cellsOf (range 0 height) width) edges height width Hrect)
    as (g' & Hrun & Hg' & Hin & _).
  - intros [i j] g Hij Hg. apply elem_of_cellsOf in Hij as [Hi Hj].
    apply elem_of_range in Hi. split; [lia|]. split; [lia|].
    intros old Hold. now apply Hbody.
  - rewrite omap_Some_id. apply NoDup_cellsOf, NoDup_range.
  - rewrite Hrun. f_equal.
    apply rectangular_cells; [lia|lia|exact Hg'|]. intros i j Hi Hj.
    destruct (Hin (i, j) i j) as (old & Hold & Hnew); [|reflexivity|].
    + apply elem_of_cellsOf. split; [now apply elem_of_range|exact Hj].
    + now rewrite Hnew, (at_cell _ _ _ _ _ Hold).
Qed.

End NormalizeFacts.

Lemma tabulate_ext {A : Type} h w (f g : Z -> Z -> A) :
  0 <= h -> 0 <= w ->
  (forall i j, 0 <= i < h -> 0 <= j < w -> f i j = g i j) ->
  tabulate h w f = tabulate h w g.
Proof.
  intros Hh Hw Hfg. apply rectangular_cells; [exact Hh|exact Hw| |].
  - now apply rectangular_tabulate.
  - intros i j Hi Hj. rewrite cell_tabulate by assumption. f_equal.
    now apply Hfg.
Qed.

Section CombineFacts.

Import Float64.

(** The combiner rescales the magnitudes with their scanned extrema. *)
Lemma combineAndNormalize_rescale gradientX gradientY height width :
  rectangular gradientX height width -> rectangular gradientY height width ->
  1 <= height -> 1 <= width ->
  let M := tabulate height width (magnitude gradientX gradientY) in
  combineAndNormalize gradientX gradientY
  = Done (tabulate height width
            (fun i j => rescale (minOf M) (maxOf M)
                          (magnitude gradientX gradientY i j))).
Proof.
  intros Hgx Hgy Hh Hw M. unfold combineAndNormalize.
  rewrite (magnitudeGrid_magnitude gradientX gradientY height width)
    by assumption.
  cbn [bind]. fold M.
  rewrite (normalize_rescale M height width);
    [|apply rectangular_tabulate; lia|exact Hh|exact Hw].
  f_equal. apply tabulate_ext; [lia|lia|]. intros i j Hi Hj.
  f_equal. apply at_cell. now apply cell_tabulate.
Qed.

(** Gradient grids without columns: [edges[0][0]] is out of range. *)
Lemma combineAndNormalize_no_column gradientX gradientY height :
  rectangular gradientX height 0 -> rectangular gradientY height 0 ->
  1 <= height ->
  combineAndNormalize gradientX gradientY = Panic IndexOutOfRange.
Proof.
  intros Hgx Hgy Hh. unfold combineAndNormalize.
  rewrite (magnitudeGrid_magnitude gradientX gradientY height 0)
    by assumption.
  cbn [bind].
  destruct (first_row (tabulate height 0 (magnitude gradientX gradientY))
              height 0) as (row0 & Hrow0 & Hlen0 & _);
    [apply rectangular_tabulate; lia|exact Hh|].
  unfold normalize. rewrite Hrow0. cbn [bind].
  destruct row0; [reflexivity|]. unfold len in Hlen0. cbn in Hlen0. lia.
Qed.

End CombineFacts.

(** A kernel whose rows are empty adds nothing up. *)
Lemma convolved_no_column {F : Type} (fzero : F) (fadd fmul : F -> F -> F)
    (image kernel : list (list F)) kHeight i j :
  convolved fzero fadd fmul image kernel kHeight 0 i j = fzero.
Proof.
  unfold convolved, weightedSum. cbn [foldl].
  induction (range 0 kHeight) as [|a l IH]; [reflexivity|exact IH].
Qed.

(** ** Quantisation *)

Lemma digits2_pos_bound m : Z.pos m < 2 ^ Z.pos (digits2_pos m).
Proof.
  induction m as [m IH|m IH|]; cbn [digits2_pos];
    rewrite ?Pos2Z.inj_succ, ?Z.pow_succ_r by lia; lia.
Qed.

(** The mantissa of a [float64] has at most 53 bits. *)
Lemma mantissa_bound x s m e :
  Prim2SF x = S754_finite s m e -> Z.pos m < 2 ^ 53.
Proof.
  intros Hx. pose proof (Prim2SF_valid x) as Hv. rewrite Hx in Hv.
  cbn [SpecFloat.valid_binary] in Hv. unfold bounded, canonical_mantissa in Hv.
  apply andb_true_iff in Hv as [Hc _]. apply Z.eqb_eq in Hc.
  unfold fexp, SpecFloat.emin, prec, emax in Hc.
  pose proof (digits2_pos_bound m) as Hd.
  eapply Z.lt_le_trans; [exact Hd|]. apply Z.pow_le_mono_r; lia.
Qed.

Lemma SFltb_positive m1 e1 m2 e2 :
  SFltb (S754_finite false m1 e1) (S754_finite false m2 e2) = true ->
  e1 < e2 \/ (e1 = e2 /\ Z.pos m1 < Z.pos m2).
Proof.
  unfold SFltb, SFcompare. intros H.
  destruct (Z.compare_spec e1 e2) as [Heq|?|?]; [|now left|discriminate].
  right. split; [exact Heq|].
  rewrite Pos.compare_cont_spec in H. unfold Pos.switch_Eq in H.
  destruct (Pos.compare_spec m1 m2) as [?|Hlt|?]; try discriminate.
  apply Pos2Z.pos_lt_pos. exact Hlt.
Qed.

Lemma SFltb_negative m1 e1 m2 e2 :
  SFltb (S754_finite true m1 e1) (S754_finite true m2 e2) = true ->
  e2 < e1 \/ (e1 = e2 /\ Z.pos m2 < Z.pos m1).
Proof.
  unfold SFltb, SFcompare. intros H.
  destruct (Z.compare_spec e1 e2) as [Heq|?|?]; [|discriminate|now left].
  right. split; [exact Heq|].
  rewrite Pos.compare_cont_spec in H. unfold Pos.switch_Eq in H.
  destruct (Pos.compare_spec m1 m2) as [?|?|Hlt]; try discriminate.
  apply Pos2Z.pos_lt_pos. exact Hlt.
Qed.

Lemma mantissa_one : Z.pos 4503599627370496 = 2 ^ 52.
Proof. reflexivity. Qed.

Lemma Prim2SF_minus_one :
  Prim2SF (-1) = S754_finite true 4503599627370496 (-52).
Proof. vm_compute. reflexivity. Qed.

Lemma Prim2SF_256 : Prim2SF 256 = S754_finite false 4503599627370496 (-44).
Proof. vm_compute. reflexivity. Qed.

Lemma Prim2SF_255 : Prim2SF 255 = S754_finite false 8972014882652160 (-45).
Proof. vm_compute. reflexivity. Qed.

Lemma mantissa_255 : Z.pos 8972014882652160 = 255 * 2 ^ 45.
Proof. reflexivity. Qed.

Lemma Prim2SF_zero : Prim2SF 0 = S754_zero false.
Proof. vm_compute. reflexivity. Qed.

Lemma digits2_pos_lower m : 2 ^ (Z.pos (digits2_pos m) - 1) <= Z.pos m.
Proof.
  induction m as [m IH|m IH|]; cbn [digits2_pos]; [| |cbn; lia];
    rewrite Pos2Z.inj_succ;
    replace (Z.succ (Z.pos (digits2_pos m)) - 1)
      with (Z.succ (Z.pos (digits2_pos m) - 1)) by lia;
    rewrite Z.pow_succ_r by lia; lia.
Qed.

(** Above the subnormal range the mantissa has exactly 53 bits. *)
Lemma mantissa_normal x s m e :
  Prim2SF x = S754_finite s m e -> -1074 < e -> 2 ^ 52 <= Z.pos m.
Proof.
  intros Hx He. pose proof (Prim2SF_valid x) as Hv. rewrite Hx in Hv.
  cbn [SpecFloat.valid_binary] in Hv. unfold bounded, canonical_mantissa in Hv.
  apply andb_true_iff in Hv as [Hc _]. apply Z.eqb_eq in Hc.
  unfold fexp, SpecFloat.emin, prec, emax in Hc.
  pose proof (digits2_pos_lower m) as Hd.
  replace (Z.pos (digits2_pos m) - 1) with 52 in Hd by lia. exact Hd.
Qed.

Section TruncateFacts.

Import Float64.

(** Strictly between -1 and 256 the integer part is a [uint8]. *)
Lemma truncate_in_range v :
  PrimFloat.ltb (-1) v = true -> PrimFloat.ltb v 256 = true ->
  exists n, truncate v = Some n /\ 0 <= n <= 255.
Proof.
  intros Hlo Hhi. rewrite ltb_spec in Hlo, Hhi. unfold truncate.
  rewrite Prim2SF_minus_one in Hlo. rewrite Prim2SF_256 in Hhi.
  destruct (Prim2SF v) as [s|s| |s m e] eqn:Hv.
  - exists 0. split; [reflexivity|lia].
  - destruct s; discriminate.
  - discriminate.
  - pose proof (mantissa_bound v s m e Hv) as Hm. destruct s.
    + clear Hhi. apply SFltb_negative in Hlo. rewrite mantissa_one in Hlo.
      destruct (Z.leb_spec 0 e); [lia|].
      exists 0. split; [|lia].
      rewrite Z.quot_small; [reflexivity|]. split; [lia|].
      destruct Hlo as [He|[<- Hm']]; [|exact Hm'].
      eapply Z.lt_le_trans; [exact Hm|]. apply Z.pow_le_mono_r; lia.
    + clear Hlo. apply SFltb_positive in Hhi. rewrite mantissa_one in Hhi.
      destruct (Z.leb_spec 0 e); [lia|].
      exists (Z.quot (Z.pos m) (2 ^ (- e))). split; [reflexivity|].
      assert (Hpow : 0 < 2 ^ (- e)) by (apply Z.pow_pos_nonneg; lia).
      split; [apply Z.quot_pos; lia|].
      apply Z.lt_succ_r. apply Z.quot_lt_upper_bound; [lia|exact Hpow|].
      change (Z.succ 255) with (2 ^ 8). rewrite <- Z.pow_add_r by lia.
      destruct Hhi as [He|[-> Hm']]; [|exact Hm'].
      eapply Z.lt_le_trans; [exact Hm|]. apply Z.pow_le_mono_r; lia.
Qed.

(** Strictly between -1 and 0 the integer part is 0, not -1. *)
Lemma truncate_below_zero v :
  PrimFloat.ltb (-1) v = true -> PrimFloat.ltb v 0 = true ->
  truncate v = Some 0.
Proof.
  intros Hlo Hhi. rewrite ltb_spec in Hlo, Hhi. unfold truncate.
  rewrite Prim2SF_minus_one in Hlo. rewrite Prim2SF_zero in Hhi.
  destruct (Prim2SF v) as [s|s| |s m e] eqn:Hv.
  - reflexivity.
  - destruct s; discriminate.
  - discriminate.
  - pose proof (mantissa_bound v s m e Hv) as Hm.
    destruct s; [clear Hhi|discriminate Hhi].
    apply SFltb_negative in Hlo. rewrite mantissa_one in Hlo.
    destruct (Z.leb_spec 0 e); [lia|].
    rewrite Z.quot_small; [reflexivity|]. split; [lia|].
    destruct Hlo as [He|[<- Hm']]; [|exact Hm'].
    eapply Z.lt_le_trans; [exact Hm|]. apply Z.pow_le_mono_r; lia.
Qed.

(** Strictly between 255 and 256 the integer part is 255, not 256. *)
Lemma truncate_above_255 v :
  PrimFloat.ltb 255 v = true -> PrimFloat.ltb v 256 = true ->
  truncate v = Some 255.
Proof.
  intros Hlo Hhi. rewrite ltb_spec in Hlo, Hhi. unfold truncate.
  rewrite Prim2SF_255 in Hlo. rewrite Prim2SF_256 in Hhi.
  destruct (Prim2SF v) as [s|s| |s m e] eqn:Hv.
  - discriminate Hlo.
  - destruct s; discriminate.
  - discriminate.
  - pose proof (mantissa_normal v s m e Hv) as Hm.
    destruct s; [discriminate Hlo|].
    apply SFltb_positive in Hlo, Hhi.
    rewrite mantissa_255 in Hlo. rewrite mantissa_one in Hhi.
    assert (He : e = -45) by lia. subst e.
    destruct Hlo as [?|[_ Hlo]]; [lia|]. clear Hhi Hm.
    cbn [Z.leb Z.compare Z.opp]. f_equal.
    assert (H45 : 0 < 2 ^ 45) by (apply Z.pow_pos_nonneg; lia).
    pose proof (mantissa_bound v false m (-45) Hv) as Hub.
    replace (2 ^ 53) with (256 * 2 ^ 45) in Hub
      by (change 256 with (2 ^ 8); rewrite <- Z.pow_add_r by lia; reflexivity).
    assert (255 <= Z.quot (Z.pos m) (2 ^ 45))
      by (apply Z.quot_le_lower_bound; lia).
    assert (Z.quot (Z.pos m) (2 ^ 45) < 256)
      by (apply Z.quot_lt_upper_bound; lia).
    change (- (-45)) with 45. lia.
Qed.

End TruncateFacts.

Section QuantizeFacts.

Import Float64.

Variable unrepresentable : float -> Z.
Variables (data : list (list float)) (height width : Z).
Hypothesis data_rectangular : rectangular data height width.
Hypothesis data_rows : 1 <= height.

Let ok (g : Gray) : Prop :=
  Stride g = width /\ MaxX g = width /\ MaxY g = height
  /\ len (Pix g) = width * height.

Let quantized (g : Gray) : Prop :=
  ok g /\
  forall y x v, cell data y x = Some v ->
    Pix g !! Z.to_nat (y * width + x) = Some (uint8 unrepresentable v).

Lemma NewGray_ok :
  exists gray0, NewGray width height = Done gray0 /\ ok gray0.
Proof.
  destruct (first_row data _ _ data_rectangular data_rows) as (_ & _ & _ & Hw).
  unfold NewGray. rewrite make_replicate by nia. cbn [bind].
  eexists. split; [reflexivity|]. unfold ok. cbn.
  repeat split; try lia. unfold len. rewrite length_replicate. nia.
Qed.

Lemma setPixel_insert y x v g :
  ok g -> cell data y x = Some v ->
  setPixel unrepresentable data y x g
  = Done (mkGray (<[Z.to_nat (y * width + x) := uint8 unrepresentable v]> (Pix g))
            width width height).
Proof.
  intros (HS & HX & HY & HP) Hv.
  assert (Hyx : 0 <= y < height /\ 0 <= x < width).
  { destruct (decide (0 <= y < height /\ 0 <= x < width)) as [H|H];
      [exact H|].
    now rewrite (cell_outside data height width) in Hv. }
  destruct Hyx as [Hy Hx].
  apply cell_Some in Hv as (_ & _ & row & Hrow & Hv).
  unfold setPixel. rewrite (index_lookup data y row) by (lia || assumption).
  cbn [bind]. rewrite (index_lookup row x v) by (lia || assumption).
  cbn [bind]. unfold SetGray. rewrite HX, HY, HS.
  destruct (Z.leb_spec 0 x); [|lia]. destruct (Z.ltb_spec x width); [|lia].
  destruct (Z.leb_spec 0 y); [|lia]. destruct (Z.ltb_spec y height); [|lia].
  cbn [andb]. rewrite assign_insert by nia. cbn [bind].
  do 3 f_equal. lia.
Qed.

(** In whatever order the pixels are set, the image is the same. *)
Lemma run_setPixel es gray0 :
  Permutation es (cellsOf (range 0 height) width) -> ok gray0 ->
  exists gray,
    run (fun '(y, x) => setPixel unrepresentable data y x) es gray0 = Done gray
    /\ quantized gray.
Proof.
  intros Hperm Hok0.
  assert (Hes : forall y x, elem_of (y, x) es <->
                            0 <= y < height /\ 0 <= x < width).
  { intros y x. now rewrite Hperm, elem_of_cellsOf, elem_of_range. }
  destruct (run_stores
              (fun (g : Gray) (k : Z) =>
                 if k <? 0 then None else Pix g !! Z.to_nat k)
              ok
              (fun '(y, x) => setPixel unrepresentable data y x)
              (fun e : Z * Z => Some (e.1 * width + e.2))
              (fun e _ => uint8 unrepresentable (at_ 0%float data e.1 e.2))
              es gray0)
    as (gray & Hrun & Hok & Hin & _).
  - intros [y x] g Hyx Hg. apply Hes in Hyx as [Hy Hx].
    destruct (rectangular_cell data _ _ y x data_rectangular Hy Hx)
      as (_ & v & _ & _ & _ & Hv).
    rewrite (setPixel_insert y x v g Hg Hv).
    destruct Hg as (HS & HX & HY & HP).
    eexists. split; [reflexivity|]. split.
    + unfold ok, len in *. cbn. rewrite length_insert. tauto.
    + cbn [fst snd Pix]. unfold len in HP. split.
      * destruct (Z.ltb_spec (y * width + x) 0); [nia|].
        destruct (lookup_lt_is_Some_2 (Pix g) (Z.to_nat (y * width + x)))
          as [old Hold]; [nia|].
        exists old. split; [exact Hold|].
        rewrite (at_cell _ _ _ _ _ Hv). apply list_lookup_insert_eq. nia.
      * intros k Hk. destruct (Z.ltb_spec k 0); [reflexivity|].
        apply list_lookup_insert_ne. nia.
  - rewrite <- list_fmap_alt. apply NoDup_fmap_2_strong.
    + intros [y x] [y' x'] Hyx Hyx' Heq.
      apply Hes in Hyx as [Hy Hx]. apply Hes in Hyx' as [Hy' Hx'].
      cbn [fst snd] in Heq.
      assert (y = y') by nia. subst y'. f_equal. lia.
    + rewrite Hperm. apply NoDup_cellsOf, NoDup_range.
  - exact Hok0.
  - exists gray. split; [exact Hrun|]. split; [exact Hok|].
    intros y x v Hv.
    assert (Hyx : 0 <= y < height /\ 0 <= x < width).
    { destruct (decide (0 <= y < height /\ 0 <= x < width)) as [H|H];
        [exact H|].
      now rewrite (cell_outside data height width) in Hv. }
    destruct (Hin (y, x) (y * width + x)) as (old & _ & Hnew);
      [now apply Hes|reflexivity|].
    destruct (Z.ltb_spec (y * width + x) 0); [nia|].
    cbn [fst snd] in Hnew. now rewrite Hnew, (at_cell _ _ _ _ _ Hv).
Qed.

(** The pixels determine the image. *)
Lemma quantized_unique g g' : quantized g -> quantized g' -> g = g'.
Proof.
  intros [(HS & HX & HY & HP) Hpix] [(HS' & HX' & HY' & HP') Hpix'].
  destruct g as [pix ? ? ?], g' as [pix' ? ? ?]. cbn in *. subst.
  f_equal. unfold len in *.
  apply list_eq_same_length with (Z.to_nat (width * height)); [lia|lia|].
  intros n p p' Hn Hp Hp'.
  assert (Hw : 0 < width) by nia.
  pose proof (Z.div_mod (Z.of_nat n) width ltac:(lia)) as Hdm.
  pose proof (Z.mod_pos_bound (Z.of_nat n) width Hw) as Hmod.
  assert (Hdiv : 0 <= Z.of_nat n / width < height).
  { split; [apply Z.div_pos; lia|]. apply Z.div_lt_upper_bound; lia. }
  destruct (rectangular_cell data _ _ _ _ data_rectangular Hdiv Hmod)
    as (_ & v & _ & _ & _ & Hv).
  pose proof (Hpix _ _ _ Hv) as H1. pose proof (Hpix' _ _ _ Hv) as H2.
  replace (Z.to_nat (Z.of_nat n / width * width + Z.of_nat n mod width))
    with n in H1, H2 by lia.
  congruence.
Qed.

Lemma float64ArrayToImage_quantized :
  exists gray,
    float64ArrayToImage unrepresentable data = Done gray /\ quantized gray.
Proof.
  destruct (first_row data _ _ data_rectangular data_rows)
    as (row0 & Hrow0 & Hlen0 & Hw).
  pose proof data_rectangular as [Hlen _].
  destruct NewGray_ok as (gray0 & Hnew & Hok0).
  unfold float64ArrayToImage. rewrite Hrow0. cbn [bind].
  rewrite Hlen, Hlen0, Hnew. cbn [bind].
  rewrite for_range_run.
  erewrite run_ext; [|intros i s _; apply for_range_run].
  rewrite (run_nested (setPixel unrepresentable data)).
  apply run_setPixel; [reflexivity|exact Hok0].
Qed.

Lemma float64ArrayToImageParallel_quantized sched numWorkers :
  1 <= numWorkers ->
  exists gray,
    float64ArrayToImageParallel unrepresentable sched data numWorkers
    = Done gray /\ quantized gray.
Proof.
  intros HN.
  destruct (first_row data _ _ data_rectangular data_rows)
    as (row0 & Hrow0 & Hlen0 & Hw).
  pose proof data_rectangular as [Hlen _].
  destruct NewGray_ok as (gray0 & Hnew & Hok0).
  unfold float64ArrayToImageParallel. rewrite Hrow0. cbn [bind].
  rewrite Hlen, Hlen0, Hnew. cbn [bind].
  unfold quo. destruct (Z.eqb_spec numWorkers 0) as [?|_]; [lia|]. cbn [bind].
  apply run_setPixel; [|exact Hok0].
  rewrite interleaving_Permutation.
  rewrite <- (concat_workerRows height numWorkers) by lia.
  unfold cellsOf.
  induction (range 0 numWorkers) as [|w ws IH]; [reflexivity|].
  cbn [fmap list_fmap concat]. rewrite fmap_app, concat_app.
  now apply Permutation_app.
Qed.

End QuantizeFacts.

(** ** The scanned extrema *)

Lemma SFltb_irrefl x : SFltb x x = false.
Proof.
  unfold SFltb, SFcompare.
  destruct x as [s|s| |s m e]; try destruct s; try reflexivity;
    now rewrite Z.compare_refl, Pos.compare_cont_spec, Pos.compare_refl.
Qed.

Lemma SFltb_trans x y z :
  SFltb x y = true -> SFltb y z = true -> SFltb x z = true.
Proof.
  unfold SFltb, SFcompare.
  destruct x as [sx|sx| |sx mx ex], y as [sy|sy| |sy my ey],
           z as [sz|sz| |sz mz ez];
    try destruct sx; try destruct sy; try destruct sz;
    try discriminate; try reflexivity;
    rewrite ?Pos.compare_cont_spec; unfold Pos.switch_Eq;
    destruct (Z.compare_spec ex ey); try discriminate;
    destruct (Z.compare_spec ey ez); try discriminate;
    destruct (Z.compare_spec ex ez); try lia; try reflexivity;
    destruct (Pos.compare_spec mx my); try discriminate;
    destruct (Pos.compare_spec my mz); try discriminate;
    destruct (Pos.compare_spec mx mz); try lia; try reflexivity.
Qed.

Lemma ltb_irrefl x : PrimFloat.ltb x x = false.
Proof. rewrite ltb_spec. apply SFltb_irrefl. Qed.

Lemma ltb_trans x y z :
  PrimFloat.ltb x y = true -> PrimFloat.ltb y z = true ->
  PrimFloat.ltb x z = true.
Proof. rewrite !ltb_spec. apply SFltb_trans. Qed.

Section ScanFacts.

Import Float64.

(** The scan keeps a cell already seen below which no cell seen lies. *)
Lemma scanMin_invariant cells seen cur :
  elem_of cur seen ->
  (forall x, elem_of x seen -> PrimFloat.ltb x cur = false) ->
  elem_of (scanMin cells cur) (seen ++ cells) /\
  forall x, elem_of x (seen ++ cells) ->
            PrimFloat.ltb x (scanMin cells cur) = false.
Proof.
  revert seen cur. induction cells as [|e cells IH]; intros seen cur Hin Hleast.
  - rewrite app_nil_r. now split.
  - replace (seen ++ e :: cells) with ((seen ++ [e]) ++ cells)
      by now rewrite <- app_assoc.
    unfold scanMin. cbn [foldl]. apply IH.
    + apply elem_of_app. destruct (PrimFloat.ltb e cur); [right; left|now left].
    + intros x Hx. apply elem_of_app in Hx as [Hx|Hx].
      * destruct (PrimFloat.ltb e cur) eqn:He; [|now apply Hleast].
        destruct (PrimFloat.ltb x e) eqn:Hxe; [|reflexivity].
        rewrite <- (Hleast x Hx). symmetry. now apply ltb_trans with e.
      * apply list_elem_of_singleton in Hx as ->.
        destruct (PrimFloat.ltb e cur) eqn:He; [apply ltb_irrefl|exact He].
Qed.

Lemma scanMax_invariant cells seen cur :
  elem_of cur seen ->
  (forall x, elem_of x seen -> PrimFloat.ltb cur x = false) ->
  elem_of (scanMax cells cur) (seen ++ cells) /\
  forall x, elem_of x (seen ++ cells) ->
            PrimFloat.ltb (scanMax cells cur) x = false.
Proof.
  revert seen cur. induction cells as [|e cells IH]; intros seen cur Hin Hmost.
  - rewrite app_nil_r. now split.
  - replace (seen ++ e :: cells) with ((seen ++ [e]) ++ cells)
      by now rewrite <- app_assoc.
    unfold scanMax. cbn [foldl]. apply IH.
    + apply elem_of_app. destruct (PrimFloat.ltb cur e); [right; left|now left].
    + intros x Hx. apply elem_of_app in Hx as [Hx|Hx].
      * destruct (PrimFloat.ltb cur e) eqn:He; [|now apply Hmost].
        destruct (PrimFloat.ltb e x) eqn:Hxe; [|reflexivity].
        rewrite <- (Hmost x Hx). symmetry. now apply ltb_trans with e.
      * apply list_elem_of_singleton in Hx as ->.
        destruct (PrimFloat.ltb cur e) eqn:He; [apply ltb_irrefl|exact He].
Qed.

Lemma elem_of_cells (g : list (list float)) m :
  elem_of m (concat g) <-> exists i j, cell g i j = Some m.
Proof.
  rewrite elem_of_concat. split.
  - intros (row & Hrow & Hm).
    apply list_elem_of_lookup in Hrow as [i Hi].
    apply list_elem_of_lookup in Hm as [j Hj].
    exists (Z.of_nat i), (Z.of_nat j). apply cell_Some.
    repeat split; try lia. exists row. now rewrite !Nat2Z.id.
  - intros (i & j & Hc). apply cell_Some in Hc as (_ & _ & row & Hrow & Hm).
    exists row. split; eapply list_elem_of_lookup_2; eassumption.
Qed.

(** [minOf] and [maxOf] are cells of the grid; no cell is below the
first, none above the second. *)
Lemma extrema_of_grid (g : list (list float)) height width :
  rectangular g height width -> 1 <= height -> 1 <= width ->
  (exists i j, cell g i j = Some (minOf g)) /\
  (exists i j, cell g i j = Some (maxOf g)) /\
  forall i j m, cell g i j = Some m ->
    PrimFloat.ltb m (minOf g) = false /\ PrimFloat.ltb (maxOf g) m = false.
Proof.
  intros Hg Hh Hw.
  destruct (rectangular_cell g _ _ 0 0 Hg ltac:(lia) ltac:(lia))
    as (_ & m00 & _ & _ & _ & Hc00).
  assert (H00 : elem_of m00 (concat g)) by (apply elem_of_cells; eauto).
  unfold minOf, maxOf. rewrite (at_cell _ _ _ _ _ Hc00).
  destruct (scanMin_invariant (concat g) [m00] m00) as [Hmin Hleast].
  { left. }
  { intros x Hx. apply list_elem_of_singleton in Hx as ->. apply ltb_irrefl. }
  destruct (scanMax_invariant (concat g) [m00] m00) as [Hmax Hmost].
  { left. }
  { intros x Hx. apply list_elem_of_singleton in Hx as ->. apply ltb_irrefl. }
  assert (Hsub : forall x, elem_of x ([m00] ++ concat g) -> elem_of x (concat g)).
  { intros x Hx. apply elem_of_app in Hx as [Hx|Hx]; [|exact Hx].
    now apply list_elem_of_singleton in Hx as ->. }
  split; [apply elem_of_cells, Hsub, Hmin|].
  split; [apply elem_of_cells, Hsub, Hmax|].
  intros i j m Hm.
  assert (Hin : elem_of m ([m00] ++ concat g)).
  { apply elem_of_app. right. apply elem_of_cells. eauto. }
  split; [now apply Hleast|now apply Hmost].
Qed.

End ScanFacts.

(** ** Two scenarios of the specification *)

(** The 3 x 3 unit impulse: Sobel X and Sobel Y vanish at the centre and
mirror the kernel around it. *)
Example impulse_gradients :
  Float64.convolve [[0; 0; 0]; [0; 1; 0]; [0; 0; 0]]%float Float64.sobelX
    = Done [[1; 0; -1]; [2; 0; -2]; [1; 0; -1]]%float /\
  Float64.convolve [[0; 0; 0]; [0; 1; 0]; [0; 0; 0]]%float Float64.sobelY
    = Done [[1; 2; 1]; [0; 0; 0]; [-1; -2; -1]]%float.
Proof. split; vm_compute; reflexivity. Qed.

(** The 5 x 5 uniform grid of value 0.5: both gradients are 0 on rows and
columns 1 to 3. *)
Example uniform_half_interior :
  exists gx gy,
    Float64.convolve (uniformGrid 5 5 0.5%float) Float64.sobelX = Done gx /\
    Float64.convolve (uniformGrid 5 5 0.5%float) Float64.sobelY = Done gy /\
    forall i j, elem_of i [1; 2; 3] -> elem_of j [1; 2; 3] ->
      cell gx i j = Some 0%float /\ cell gy i j = Some 0%float.
Proof.
  eexists. eexists. split; [vm_compute; reflexivity|].
  split; [vm_compute; reflexivity|].
  intros i j Hi Hj.
  repeat (apply elem_of_cons in Hi as [->|Hi]); [| | |inversion Hi];
    (repeat (apply elem_of_cons in Hj as [->|Hj]); [| | |inversion Hj]);
    split; reflexivity.
Qed.

(** ** Properties checked on every value of a range *)

Lemma allFrom_spec n lo p r :
  allFrom n lo p = true -> lo <= r < lo + Z.of_nat n -> p r = true.
Proof.
  revert lo. induction n as [|n IH]; intros lo Hall Hr; [lia|].
  cbn [allFrom] in Hall. apply andb_prop in Hall as [Hlo Hall].
  destruct (decide (r = lo)) as [->|Hne]; [exact Hlo|].
  apply (IH (lo + 1) Hall). lia.
Qed.

Lemma luminance_products_checked :
  allFrom (Z.to_nat 65536) 0
    (fun r => isFinite (Image.luminance r * 1) && isFinite (Image.luminance r * 2))
  = true.
Proof. vm_compute. reflexivity. Qed.

(** ** Sums that cancel at [float64] *)

Lemma binary_round_aux_opp p em s m e l :
  binary_round_aux p em (negb s) m e l = SFopp (binary_round_aux p em s m e l).
Proof.
  unfold binary_round_aux.
  destruct (shr_fexp p em m e l) as [mrs' e'].
  destruct (shr_fexp p em _ e' loc_Exact) as [mrs'' e''].
  destruct (shr_m mrs''); [reflexivity| |reflexivity].
  now destruct (e'' <=? em - p).
Qed.

(** Changing the sign of a factor changes the sign of the product. *)
Lemma SFmul_opp p em x s m e :
  SFmul p em x (S754_finite (negb s) m e)
  = SFopp (SFmul p em x (S754_finite s m e)).
Proof.
  destruct x as [sx|sx| |sx mx ex]; cbn [SFmul SFopp];
    try (now destruct sx, s); [reflexivity|].
  rewrite <- binary_round_aux_opp. f_equal. now destruct sx, s.
Qed.

(** From [+0], adding [-b], a zero and [b] gives [+0] again. *)
Lemma SFadd_cancel p em b z :
  match b with S754_zero _ | S754_finite _ _ _ => True | _ => False end ->
  match z with S754_zero _ => True | _ => False end ->
  SFadd p em (SFadd p em (SFadd p em (S754_zero false) (SFopp b)) z) b
  = S754_zero false.
Proof.
  destruct b as [sb|sb| |sb mb eb]; try contradiction;
    destruct z as [sz|sz| |sz mz ez]; try contradiction; intros _ _.
  - now destruct sb, sz.
  - cbn [SFopp SFadd]. unfold shl_align.
    replace (IntDef.Z.min eb eb) with eb by (symmetry; apply Z.min_id).
    rewrite Z.sub_diag. cbn [fst].
    replace (cond_Zopp (negb sb) (Z.pos mb) + cond_Zopp sb (Z.pos mb)) with 0
      by (destruct sb; cbn [cond_Zopp negb]; lia).
    reflexivity.
Qed.

(** The accumulation [((s + c*(-k)) + c*0) + c*k] from [s = +0]. *)
Lemma add_cancel (s c k nk : float) sk mk ek :
  Prim2SF s = S754_zero false ->
  Prim2SF k = S754_finite sk mk ek ->
  Prim2SF nk = S754_finite (negb sk) mk ek ->
  isFinite (c * k) = true ->
  Prim2SF (s + c * nk + c * 0 + c * k)%float = S754_zero false.
Proof.
  intros Hs Hk Hnk Hfin. unfold isFinite in Hfin.
  rewrite !add_spec, !mul_spec, Hs, Hk, Hnk, Prim2SF_zero in *.
  unfold SF64add, SF64mul in *. rewrite SFmul_opp.
  apply SFadd_cancel.
  - now destruct (SFmul prec emax (Prim2SF c) (S754_finite sk mk ek)).
  - destruct (Prim2SF c) as [sc|sc| |sc mc ec]; cbn [SFmul] in *;
      try discriminate Hfin; exact I.
Qed.

Lemma Prim2SF_one : Prim2SF 1 = S754_finite false 4503599627370496 (-52).
Proof. vm_compute. reflexivity. Qed.

Lemma Prim2SF_two : Prim2SF 2 = S754_finite false 4503599627370496 (-51).
Proof. vm_compute. reflexivity. Qed.

Lemma Prim2SF_minus_two :
  Prim2SF (-2) = S754_finite true 4503599627370496 (-51).
Proof. vm_compute. reflexivity. Qed.

Lemma Prim2SF_eq x y : Prim2SF x = Prim2SF y -> x = y.
Proof.
  intros H. rewrite <- (SF2Prim_Prim2SF x), <- (SF2Prim_Prim2SF y).
  now rewrite H.
Qed.

(** Sobel X on a window that only sees the value [c]: the weights come
    in the order [-1 0 1], [-2 0 2], [-1 0 1], so every row of the
    kernel brings the sum back to [+0], whatever was rounded. *)
Lemma uniformResponse_sobelX c :
  isFinite (c * 1) = true -> isFinite (c * 2) = true ->
  uniformResponse 0%float PrimFloat.add PrimFloat.mul c Float64.sobelX
  = 0%float.
Proof.
  intros H1 H2. apply Prim2SF_eq. rewrite Prim2SF_zero.
  unfold uniformResponse, Float64.sobelX. cbn [foldl].
  apply (add_cancel _ c 1 (-1) false 4503599627370496 (-52));
    [|exact Prim2SF_one|exact Prim2SF_minus_one|exact H1].
  apply (add_cancel _ c 2 (-2) false 4503599627370496 (-51));
    [|exact Prim2SF_two|exact Prim2SF_minus_two|exact H2].
  apply (add_cancel _ c 1 (-1) false 4503599627370496 (-52));
    [|exact Prim2SF_one|exact Prim2SF_minus_one|exact H1].
  exact Prim2SF_zero.
Qed.

(** ** The stores of a worker *)

Lemma elem_of_Store_worker height width numWorkers rowsPerWorker w i j :
  elem_of (Store i j) (worker height width numWorkers rowsPerWorker w) <->
  elem_of i (workerRows height numWorkers rowsPerWorker w) /\ 0 <= j < width.
Proof.
  rewrite <- elem_of_cellsOf, <- stored_worker, list_elem_of_omap. split.
  - intros H. now exists (Store i j).
  - now intros ([i' j'|w'] & H & [= -> ->]).
Qed.

(** * The claims *)

Ltac rectangular_by_computation :=
  split; [reflexivity|repeat constructor].

(** ** Sequential and parallel convolution agree *)

(** C1.  For every rectangular grid with at least one row, every
    rectangular kernel with at least one row (odd-dimensioned or not), every
    worker count [numWorkers >= 1] (dividing the height or not, above it or
    not) and every schedule of the workers, [convolveParallel] returns the
    very grid [convolve] returns.  The statement holds for any carrier and
    any addition and multiplication, so it does not depend on how
    [float64] rounds: the two results are the same value, cell for cell. *)
Theorem parallel_equals_sequential {F : Type} (fzero : F)
    (fadd fmul : F -> F -> F) (image kernel : list (list F))
    (height width kHeight kWidth : Z) (sched : list nat) (numWorkers : Z) :
  rectangular image height width -> 1 <= height ->
  rectangular kernel kHeight kWidth -> 1 <= kHeight ->
  1 <= numWorkers ->
  exists result,
    convolve fzero fadd fmul image kernel = Done result /\
    convolveParallel fzero fadd fmul sched image kernel numWorkers = Done result.
Proof.
  intros Himg Hh Hker HkH HN.
  exists (tabulate height width
            (convolved fzero fadd fmul image kernel kHeight kWidth)).
  split.
  - now apply convolve_convolved.
  - now apply convolveParallel_convolved.
Qed.

Lemma parallel_equals_sequential_witness :
  exists result,
    Float64.convolve [[0; 0; 0]; [0; 1; 0]; [0; 0; 0]]%float Float64.sobelX
      = Done result /\
    Float64.convolveParallel [1; 0; 1; 1; 0]%nat
      [[0; 0; 0]; [0; 1; 0]; [0; 0; 0]]%float Float64.sobelX 2 = Done result.
Proof.
  apply (parallel_equals_sequential 0%float PrimFloat.add PrimFloat.mul
           _ _ 3 3 3 3);
    [rectangular_by_computation|lia|rectangular_by_computation|lia|lia].
Defined.

(** ** The row partition *)

(** C2.  For [height >= 1] and [numWorkers >= 1], with
    [rowsPerWorker = height / numWorkers] (the floor of the quotient):
    the ranges start at row 0, each ends where the next starts, the last
    ends at [height]; every worker but the last has [rowsPerWorker] rows;
    listed worker after worker the rows are exactly [0 .. height-1], so
    every row belongs to one and only one worker; with more workers than
    rows every worker but the last has an empty range.  The goroutine of
    a worker stores the cells of its rows and no other; the store of a
    cell belongs to one and only one worker; under every schedule the
    cells stored are the cells of the grid, each stored once.  A store
    writes [R(i,j)] into its cell, whatever the cell held, and leaves
    every other cell as it is; the send and the copy that answers it
    change nothing.  So every cell of every row is written once, by the
    worker that owns the row, and the grid returned holds [R]. *)
Theorem row_partition (height numWorkers : Z) :
  1 <= height -> 1 <= numWorkers ->
  let rowsPerWorker := Z.quot height numWorkers in
  let first := startRow rowsPerWorker in
  let last := endRow height numWorkers rowsPerWorker in
  let rows := workerRows height numWorkers rowsPerWorker in
  rowsPerWorker = height / numWorkers /\
  first 0 = 0 /\ last (numWorkers - 1) = height /\
  (forall w, 0 <= w < numWorkers - 1 ->
     last w = first (w + 1) /\ last w - first w = rowsPerWorker) /\
  (forall w, 0 <= w < numWorkers -> 0 <= first w <= last w /\ last w <= height) /\
  concat (rows <$> range 0 numWorkers) = range 0 height /\
  (forall r, 0 <= r < height ->
     exists w, 0 <= w < numWorkers /\ elem_of r (rows w) /\
       forall w', 0 <= w' < numWorkers -> elem_of r (rows w') -> w' = w) /\
  (height < numWorkers ->
     (forall w, 0 <= w < numWorkers - 1 -> rows w = []) /\
     rows (numWorkers - 1) = range 0 height) /\
  (forall width sched,
     let goroutines :=
       worker height width numWorkers rowsPerWorker <$> range 0 numWorkers in
     let stores := omap stored (interleaving sched goroutines) in
     NoDup stores /\
     forall i j, elem_of (i, j) stores <-> 0 <= i < height /\ 0 <= j < width) /\
  (forall width w, 0 <= w < numWorkers ->
     omap stored (worker height width numWorkers rowsPerWorker w)
     = cellsOf (rows w) width) /\
  (forall width i j, 0 <= i < height -> 0 <= j < width ->
     exists w, 0 <= w < numWorkers /\ elem_of i (rows w) /\
       elem_of (Store i j) (worker height width numWorkers rowsPerWorker w) /\
       forall w', 0 <= w' < numWorkers ->
         elem_of (Store i j) (worker height width numWorkers rowsPerWorker w') ->
         w' = w) /\
  (forall (F : Type) (fzero : F) (fadd fmul : F -> F -> F)
          (image kernel : list (list F)) width kHeight kWidth,
     rectangular image height width ->
     rectangular kernel kHeight kWidth -> 1 <= kHeight ->
     let R := convolved fzero fadd fmul image kernel kHeight kWidth in
     exists paddedImage,
       padImage fzero image height width (Z.quot kHeight 2) (Z.quot kWidth 2)
       = Done paddedImage /\
       (forall i j result,
          0 <= i < height -> 0 <= j < width ->
          rectangular result height width ->
          exists result',
            perform fzero fadd fmul paddedImage kernel height kHeight kWidth
              numWorkers rowsPerWorker (Store i j) result = Done result' /\
            rectangular result' height width /\
            cell result' i j = Some (R i j) /\
            forall i' j', (i', j') <> (i, j) ->
                          cell result' i' j' = cell result i' j') /\
       (forall w result,
          0 <= w < numWorkers -> rectangular result height width ->
          perform fzero fadd fmul paddedImage kernel height kHeight kWidth
            numWorkers rowsPerWorker (Send w) result = Done result) /\
       forall sched,
         exists result,
           convolveParallel fzero fadd fmul sched image kernel numWorkers
           = Done result /\
           rectangular result height width /\
           forall i j, 0 <= i < height -> 0 <= j < width ->
                       cell result i j = Some (R i j)).
Proof.
  intros Hh HN rowsPerWorker first last rows.
  assert (Hh0 : 0 <= height) by lia.
  split; [apply Z.quot_div_nonneg; lia|].
  split; [reflexivity|].
  split; [unfold last, endRow; now rewrite Z.eqb_refl|].
  split.
  { intros w Hw. split; [now apply endRow_next|].
    unfold last, first. rewrite endRow_next by lia. unfold startRow. lia. }
  split.
  { intros w Hw.
    pose proof (startRow_endRow height numWorkers Hh0 HN w Hw). tauto. }
  split; [now apply concat_workerRows|].
  split.
  { intros r Hr.
    destruct (workerRows_cover height numWorkers Hh0 HN r Hr) as (w & Hw & Hin).
    exists w. split; [exact Hw|]. split; [exact Hin|].
    intros w' Hw' Hin'.
    exact (workerRows_disjoint height numWorkers Hh0 HN w' w r Hw' Hw Hin' Hin). }
  split.
  { intros Hlt. split.
    - intros w Hw. now apply workerRows_excess.
    - now apply workerRows_excess_last. }
  split.
  { intros width sched goroutines stores.
    pose proof (stored_interleaving height width numWorkers Hh0 HN sched) as Hp.
    split.
    - unfold stores, goroutines, rowsPerWorker. rewrite Hp.
      apply NoDup_cellsOf, NoDup_range.
    - intros i j. unfold stores, goroutines, rowsPerWorker.
      now rewrite Hp, elem_of_cellsOf, elem_of_range. }
  split; [intros width w _; apply stored_worker|].
  split.
  { intros width i j Hi Hj.
    destruct (workerRows_cover height numWorkers Hh0 HN i Hi) as (w & Hw & Hin).
    exists w. split; [exact Hw|]. split; [exact Hin|]. split.
    - now apply elem_of_Store_worker.
    - intros w' Hw' Hin'. apply elem_of_Store_worker in Hin' as [Hin' _].
      exact (workerRows_disjoint height numWorkers Hh0 HN w' w i Hw' Hw
               Hin' Hin). }
  intros F fzero fadd fmul image kernel width kHeight kWidth Himg Hker HkH R.
  destruct (width_nonneg image kernel _ _ _ _ Himg Hh Hker HkH) as [Hw HkW].
  pose proof (half_bounds kHeight ltac:(lia)) as [? _].
  pose proof (half_bounds kWidth HkW) as [? _].
  eexists. split; [apply padImage_padded; assumption || lia|]. split.
  { intros i j result Hi Hj Hres. cbn [perform].
    rewrite (convolveCell_assign2 fzero fadd fmul image kernel height width
               kHeight kWidth Himg Hh Hker HkH i j result Hi Hj).
    exact (assign2_rectangular result height width i j (R i j) Hres Hi Hj). }
  split.
  { intros w result Hw' [Hlen _].
    now apply (perform_Send fzero fadd fmul kernel height kHeight kWidth). }
  intros sched. exists (tabulate height width R). split.
  - now apply convolveParallel_convolved.
  - split; [apply rectangular_tabulate; lia|].
    intros i j Hi Hj. now apply cell_tabulate.
Qed.

Lemma row_partition_witness :
  concat (workerRows 3 5 (Z.quot 3 5) <$> range 0 5) = range 0 3 /\
  exists result,
    Float64.convolveParallel [3; 0; 4; 1]%nat [[1]; [2]; [3]]%float
      Float64.sobelX 5 = Done result /\
    cell result 1 0
    = Some (convolved 0%float PrimFloat.add PrimFloat.mul [[1]; [2]; [3]]%float
              Float64.sobelX 3 3 1 0).
Proof.
  pose proof (row_partition 3 5 ltac:(lia) ltac:(lia)) as H. cbv zeta in H.
  destruct H as (_ & _ & _ & _ & _ & Hcat & _ & _ & _ & _ & _ & Hrun).
  split; [exact Hcat|].
  destruct (Hrun float 0%float PrimFloat.add PrimFloat.mul
              [[1]; [2]; [3]]%float Float64.sobelX 1 3 3)
    as (paddedImage & _ & _ & _ & Hres);
    [rectangular_by_computation|rectangular_by_computation|lia|].
  destruct (Hres [3; 0; 4; 1]%nat) as (result & Hdone & _ & Hcell).
  exists result. split; [exact Hdone|]. apply Hcell; lia.
Defined.

(** ** The convolution contract *)

(** C3.  [convolve] returns a grid of the size of its input whose cell
    [(i,j)] is the sum over [a] and [b] of [P(i+a, j+b) * K(a,b)], with [P]
    the zero-padded input; the kernel is not flipped; the sum is
    accumulated from [0.0] in the order of [a], then [b], with the
    additions and multiplications of the carrier and nothing else (no
    clamping, no rounding step).  At [float64] a result can be negative
    or exceed 1.0: the unit impulse and Sobel X give 2 and -2. *)
Theorem convolve_contract :
  (forall (F : Type) (fzero : F) (fadd fmul : F -> F -> F)
          (image kernel : list (list F)) (height width kHeight kWidth : Z),
     rectangular image height width -> 1 <= height ->
     rectangular kernel kHeight kWidth -> 1 <= kHeight ->
     exists result,
       convolve fzero fadd fmul image kernel = Done result /\
       rectangular result height width /\
       forall i j, 0 <= i < height -> 0 <= j < width ->
         cell result i j
         = Some (foldl (fun sum a =>
                    foldl (fun sum b =>
                       fadd sum
                         (fmul (padded fzero image (Z.quot kHeight 2)
                                  (Z.quot kWidth 2) (i + a) (j + b))
                               (at_ fzero kernel a b)))
                      sum (range 0 kWidth))
                   fzero (range 0 kHeight))) /\
  (exists result,
     Float64.convolve [[0; 0; 0]; [0; 1; 0]; [0; 0; 0]]%float Float64.sobelX
       = Done result /\
     cell result 1 0 = Some 2%float /\ cell result 1 2 = Some (-2)%float).
Proof.
  split.
  - intros F fzero fadd fmul image kernel height width kHeight kWidth
      Himg Hh Hker HkH.
    exists (tabulate height width
              (convolved fzero fadd fmul image kernel kHeight kWidth)).
    split; [now apply convolve_convolved|].
    destruct (first_row image _ _ Himg Hh) as (_ & _ & _ & Hw).
    split; [apply rectangular_tabulate; lia|].
    intros i j Hi Hj. now rewrite cell_tabulate.
  - eexists. split; [vm_compute; reflexivity|]. split; reflexivity.
Qed.

Lemma convolve_contract_witness :
  exists result,
    Float64.convolve [[0; 0; 0]; [0; 1; 0]; [0; 0; 0]]%float Float64.sobelY
      = Done result /\
    rectangular result 3 3.
Proof.
  destruct (proj1 convolve_contract float 0%float PrimFloat.add PrimFloat.mul
              [[0; 0; 0]; [0; 1; 0]; [0; 0; 0]]%float Float64.sobelY 3 3 3 3)
    as (result & Hres & Hrect & _);
    [rectangular_by_computation|lia|rectangular_by_computation|lia|].
  exists result. split; [exact Hres|exact Hrect].
Defined.

(** ** Padding *)

(** C6.  For a grid [G] of [H] rows of [W] cells and half-extents
    [padH = kH / 2], [padW = kW / 2] (integer division), the padding loops
    return a grid of [H + 2 padH] rows of [W + 2 padW] cells whose cell
    [(i + padH, j + padW)] is [G(i,j)] and whose other cells are [0.0].
    The loops only read [image]; their writes go to the slice [make] has
    just allocated, which is the value returned. *)
Theorem padding_contract {F : Type} (fzero : F) (image : list (list F))
    (height width kHeight kWidth : Z) :
  rectangular image height width -> 0 <= width ->
  0 <= kHeight -> 0 <= kWidth ->
  let padHeight := Z.quot kHeight 2 in
  let padWidth := Z.quot kWidth 2 in
  padHeight = kHeight / 2 /\ padWidth = kWidth / 2 /\
  exists paddedImage,
    padImage fzero image height width padHeight padWidth = Done paddedImage /\
    rectangular paddedImage (height + 2 * padHeight) (width + 2 * padWidth) /\
    (forall i j, 0 <= i < height -> 0 <= j < width ->
       cell paddedImage (i + padHeight) (j + padWidth) = cell image i j) /\
    (forall r c,
       0 <= r < height + 2 * padHeight -> 0 <= c < width + 2 * padWidth ->
       ~ (padHeight <= r < padHeight + height /\
          padWidth <= c < padWidth + width) ->
       cell paddedImage r c = Some fzero).
Proof.
  intros Himg Hw HkH HkW padHeight padWidth.
  assert (Hh : 0 <= height) by (destruct Himg as [<- _]; unfold len; lia).
  pose proof (half_bounds kHeight HkH) as [HpH _].
  pose proof (half_bounds kWidth HkW) as [HpW _].
  fold padHeight in HpH. fold padWidth in HpW.
  split; [apply Z.quot_div_nonneg; lia|].
  split; [apply Z.quot_div_nonneg; lia|].
  eexists. split; [now apply padImage_padded|].
  split; [apply rectangular_tabulate; lia|]. split.
  - intros i j Hi Hj. rewrite cell_tabulate by lia.
    rewrite <- (padded_inside fzero image height width padHeight padWidth)
      by (assumption || lia).
    do 2 f_equal; lia.
  - intros r c Hr Hc Hout. rewrite cell_tabulate by lia.
    now rewrite (padded_outside fzero image height width).
Qed.

Lemma padding_contract_witness :
  exists paddedImage,
    padImage 0%float [[1; 2]; [3; 4]]%float 2 2 (Z.quot 3 2) (Z.quot 3 2)
      = Done paddedImage /\
    rectangular paddedImage 4 4.
Proof.
  destruct (padding_contract 0%float [[1; 2]; [3; 4]]%float 2 2 3 3)
    as (_ & _ & paddedImage & Hpad & Hrect & _);
    [rectangular_by_computation|lia|lia|lia|].
  exists paddedImage. split; [exact Hpad|exact Hrect].
Defined.

(** ** The worker count *)

(** C10.  For a rectangular grid with at least one row and a rectangular
    kernel with at least one row, [convolveParallel] runs to completion for
    every [numWorkers >= 1] under every schedule: no index or slice
    expression is out of range and the division is defined.  With
    [numWorkers = 0] the division [height / numWorkers] panics. *)
Theorem convolveParallel_worker_count {F : Type} (fzero : F)
    (fadd fmul : F -> F -> F) (image kernel : list (list F))
    (height width kHeight kWidth : Z) (sched : list nat) :
  rectangular image height width -> 1 <= height ->
  rectangular kernel kHeight kWidth -> 1 <= kHeight ->
  (forall numWorkers, 1 <= numWorkers ->
     exists result,
       convolveParallel fzero fadd fmul sched image kernel numWorkers
       = Done result) /\
  convolveParallel fzero fadd fmul sched image kernel 0 = Panic DivideByZero.
Proof.
  intros Himg Hh Hker HkH. split.
  - intros numWorkers HN.
    exists (tabulate height width
              (convolved fzero fadd fmul image kernel kHeight kWidth)).
    now apply convolveParallel_convolved.
  - now apply (convolveParallel_no_worker fzero fadd fmul image kernel
                 height width kHeight kWidth).
Qed.

Lemma convolveParallel_worker_count_witness :
  Float64.convolveParallel [2; 0; 1]%nat
    [[0; 0; 0]; [0; 1; 0]; [0; 0; 0]]%float Float64.sobelX 0
  = Panic DivideByZero.
Proof.
  apply (convolveParallel_worker_count 0%float PrimFloat.add PrimFloat.mul
           _ _ 3 3 3 3);
    [rectangular_by_computation|lia|rectangular_by_computation|lia].
Defined.

(** ** Uniform grids and zero-sum kernels *)

(** C9, as stated, fails at [float64] for Sobel Y, whose weights sum to 0:
    on the uniform 3 x 3 grid of value 0.1 (the nearest [float64]) it
    leaves [-2^-55] at the interior cell [(1,1)], and on the uniform
    picture of gray level 11, whose cells are [float64(257 * 11) / 65535.0],
    it leaves [2^-56]. *)
Lemma uniform_grid_residue :
  weightSum 0%float PrimFloat.add Float64.sobelY = 0%float /\
  (exists result r,
     Float64.convolve (uniformGrid 3 3 0x1.999999999999ap-4%float) Float64.sobelY
       = Done result /\
     cell result 1 1 = Some r /\ r = (-0x1p-55)%float /\
     PrimFloat.eqb r 0 = false) /\
  (exists result r,
     Float64.convolve (uniformGrid 3 3 (Image.luminance (257 * 11)))
       Float64.sobelY = Done result /\
     cell result 1 1 = Some r /\ r = 0x1p-56%float /\
     PrimFloat.eqb r 0 = false).
Proof.
  split; [reflexivity|]. split.
  - eexists. eexists. split; [vm_compute; reflexivity|].
    split; [reflexivity|]. split; reflexivity.
  - eexists. eexists. split; [vm_compute; reflexivity|].
    split; [reflexivity|]. split; reflexivity.
Qed.

(** C9, amended.  On a uniform grid of value [c] every cell whose kernel
    window lies inside the image holds the same value, the accumulation
    of [c * K(a,b)] over the kernel in row-major order.  At [float64]
    with Sobel X that value is exactly [0.0] as soon as the products
    [c * 1] and [c * 2] are finite: the weights of each row of the kernel
    are [-k], [0] and [k], and [-(c * k) + c * k] is [+0] whatever was
    rounded.  Every luminance [float64(r) / 65535.0] of a 16-bit
    component [r] has finite products, so the interior of Sobel X is
    exactly [0.0] for every uniform picture.  With Sobel Y the partial
    sums [-c - 2c - c] are rounded: the value is [0.0] for some [c], such
    as 0.5, and a residue for others. *)
Theorem uniform_grid_interior :
  (forall (F : Type) (fzero : F) (fadd fmul : F -> F -> F)
          (image kernel : list (list F)) (height width kHeight kWidth : Z)
          (c : F),
     rectangular image height width -> 1 <= height ->
     rectangular kernel kHeight kWidth -> 1 <= kHeight ->
     (forall i j, 0 <= i < height -> 0 <= j < width ->
                  cell image i j = Some c) ->
     exists result,
       convolve fzero fadd fmul image kernel = Done result /\
       forall i j, 0 <= i < height -> 0 <= j < width ->
         Z.quot kHeight 2 <= i -> i + kHeight <= Z.quot kHeight 2 + height ->
         Z.quot kWidth 2 <= j -> j + kWidth <= Z.quot kWidth 2 + width ->
         cell result i j = Some (uniformResponse fzero fadd fmul c kernel)) /\
  (forall (image : list (list float)) (height width : Z) (c : float),
     rectangular image height width -> 1 <= height ->
     (forall i j, 0 <= i < height -> 0 <= j < width ->
                  cell image i j = Some c) ->
     isFinite (c * 1) = true -> isFinite (c * 2) = true ->
     exists result,
       Float64.convolve image Float64.sobelX = Done result /\
       forall i j, 1 <= i -> i + 3 <= 1 + height ->
                   1 <= j -> j + 3 <= 1 + width ->
                   cell result i j = Some 0%float) /\
  (forall r, 0 <= r <= 65535 ->
     isFinite (Image.luminance r * 1) = true /\
     isFinite (Image.luminance r * 2) = true /\
     uniformResponse 0%float PrimFloat.add PrimFloat.mul (Image.luminance r)
       Float64.sobelX = 0%float) /\
  uniformResponse 0%float PrimFloat.add PrimFloat.mul 0.5%float Float64.sobelY
  = 0%float.
Proof.
  assert (Hgeneric :
    forall (F : Type) (fzero : F) (fadd fmul : F -> F -> F)
           (image kernel : list (list F)) (height width kHeight kWidth : Z)
           (c : F),
      rectangular image height width -> 1 <= height ->
      rectangular kernel kHeight kWidth -> 1 <= kHeight ->
      (forall i j, 0 <= i < height -> 0 <= j < width ->
                   cell image i j = Some c) ->
      exists result,
        convolve fzero fadd fmul image kernel = Done result /\
        forall i j, 0 <= i < height -> 0 <= j < width ->
          Z.quot kHeight 2 <= i -> i + kHeight <= Z.quot kHeight 2 + height ->
          Z.quot kWidth 2 <= j -> j + kWidth <= Z.quot kWidth 2 + width ->
          cell result i j = Some (uniformResponse fzero fadd fmul c kernel)).
  { intros F fzero fadd fmul image kernel height width kHeight kWidth c
           Himg Hh Hker HkH Hc.
    exists (tabulate height width
              (convolved fzero fadd fmul image kernel kHeight kWidth)).
    split; [now apply convolve_convolved|].
    intros i j Hi Hj Hi1 Hi2 Hj1 Hj2. rewrite cell_tabulate by assumption.
    f_equal. now apply (convolved_uniform fzero fadd fmul image kernel
                          height width kHeight kWidth Hker c Hc). }
  split; [exact Hgeneric|]. split; [|split; [|reflexivity]].
  - intros image height width c Himg Hh Hc H1 H2.
    destruct (Hgeneric float 0%float PrimFloat.add PrimFloat.mul image
                Float64.sobelX height width 3 3 c Himg Hh
                ltac:(split; [reflexivity|repeat constructor]) ltac:(lia) Hc)
      as (result & Hres & Hinterior).
    exists result. split; [exact Hres|]. intros i j Hi1 Hi2 Hj1 Hj2.
    change (Z.quot 3 2) with 1 in Hinterior.
    rewrite (Hinterior i j) by lia.
    now rewrite (uniformResponse_sobelX c H1 H2).
  - intros r Hr.
    pose proof (allFrom_spec _ _ _ r luminance_products_checked ltac:(lia))
      as H.
    cbn beta in H. apply andb_prop in H as [H1 H2].
    split; [exact H1|]. split; [exact H2|].
    now apply uniformResponse_sobelX.
Qed.

Lemma cell_uniformGrid {A : Type} h w (c : A) i j :
  0 <= i < h -> 0 <= j < w -> cell (uniformGrid h w c) i j = Some c.
Proof. intros Hi Hj. unfold uniformGrid. now rewrite cell_tabulate. Qed.

Lemma uniform_grid_interior_witness :
  exists result,
    Float64.convolve (uniformGrid 5 5 0x1.999999999999ap-4%float)
      Float64.sobelX = Done result /\
    cell result 2 2 = Some 0%float.
Proof.
  destruct (proj1 (proj2 uniform_grid_interior)
              (uniformGrid 5 5 0x1.999999999999ap-4%float) 5 5
              0x1.999999999999ap-4%float)
    as (result & Hres & Hinterior);
    [split; [reflexivity|repeat constructor]|lia
    |intros i j Hi Hj; now apply cell_uniformGrid|reflexivity|reflexivity|].
  exists result. split; [exact Hres|]. apply Hinterior; lia.
Defined.

(** ** The gradient combiner *)

(** C7.  For gradient grids [Gx] and [Gy] of the same shape, with at least
    one row and one column, whose magnitudes
    [M(i,j) = sqrt(Gx(i,j)^2 + Gy(i,j)^2)] have [min < max]: [min] and
    [max], the extrema the scan finds, are cells of [M], no cell is below
    [min] and none above [max]; the combiner returns a grid of the shape
    of its inputs whose cell [(i,j)] is [255 * (M(i,j) - min) / (max - min)],
    a [float64] to which no rounding to an integer is applied.  The loops
    only read [gradientX] and [gradientY]; every store goes to the slice
    [edges] the function allocates. *)
Theorem combiner_contract (gradientX gradientY : list (list float))
    (height width : Z) :
  rectangular gradientX height width -> rectangular gradientY height width ->
  1 <= height -> 1 <= width ->
  let M := tabulate height width (Float64.magnitude gradientX gradientY) in
  PrimFloat.ltb (Float64.minOf M) (Float64.maxOf M) = true ->
  (forall i j x y, cell gradientX i j = Some x -> cell gradientY i j = Some y ->
     cell M i j = Some (PrimFloat.sqrt (x * x + y * y))%float) /\
  (exists i j, cell M i j = Some (Float64.minOf M)) /\
  (exists i j, cell M i j = Some (Float64.maxOf M)) /\
  (forall i j m, cell M i j = Some m ->
     PrimFloat.ltb m (Float64.minOf M) = false /\
     PrimFloat.ltb (Float64.maxOf M) m = false) /\
  exists result,
    Float64.combineAndNormalize gradientX gradientY = Done result /\
    rectangular result height width /\
    forall i j m, cell M i j = Some m ->
      cell result i j
      = Some (255 * (m - Float64.minOf M)
              / (Float64.maxOf M - Float64.minOf M))%float.
Proof.
  intros Hgx Hgy Hh Hw M _.
  assert (HM : rectangular M height width)
    by (apply rectangular_tabulate; lia).
  destruct (extrema_of_grid M height width HM Hh Hw) as (Hmin & Hmax & Hext).
  split; [|split; [exact Hmin|split; [exact Hmax|split; [exact Hext|]]]].
  - intros i j x y Hx Hy.
    destruct (decide (0 <= i < height /\ 0 <= j < width)) as [[Hi Hj]|Hout].
    + unfold M. rewrite cell_tabulate by assumption. unfold Float64.magnitude.
      now rewrite (at_cell _ _ _ _ _ Hx), (at_cell _ _ _ _ _ Hy).
    + now rewrite (cell_outside gradientX height width) in Hx.
  - exists (tabulate height width
              (fun i j => Float64.rescale (Float64.minOf M) (Float64.maxOf M)
                            (Float64.magnitude gradientX gradientY i j))).
    split; [exact (combineAndNormalize_rescale _ _ _ _ Hgx Hgy Hh Hw)|].
    split; [apply rectangular_tabulate; lia|].
    intros i j m Hm.
    destruct (decide (0 <= i < height /\ 0 <= j < width)) as [[Hi Hj]|Hout].
    + unfold M in Hm. rewrite cell_tabulate in Hm by assumption.
      injection Hm as <-. now rewrite cell_tabulate.
    + rewrite (cell_outside M height width) in Hm;
        [discriminate|apply rectangular_tabulate; lia|exact Hout].
Qed.

Lemma combiner_contract_witness :
  exists result,
    Float64.combineAndNormalize [[1; 0; -1]; [2; 0; -2]]%float
      [[1; 2; 1]; [-1; -2; -1]]%float = Done result /\
    rectangular result 2 3.
Proof.
  destruct (combiner_contract [[1; 0; -1]; [2; 0; -2]]%float
              [[1; 2; 1]; [-1; -2; -1]]%float 2 3)
    as (_ & _ & _ & _ & result & Hres & Hrect & _);
    [rectangular_by_computation|rectangular_by_computation|lia|lia
    |vm_compute; reflexivity|].
  exists result. split; [exact Hres|exact Hrect].
Defined.

(** C4.  The code does not have the guard the claim asks for: when all
    magnitudes are equal, here for the all-zero gradients of a 5 x 5 image,
    [min = max] and every cell is [255 * 0 / 0], a NaN, not [0]. *)
Theorem normalize_degenerate :
  Float64.combineAndNormalize (uniformGrid 5 5 0%float) (uniformGrid 5 5 0%float)
  = Done (uniformGrid 5 5 nan).
Proof. vm_compute. reflexivity. Qed.

(** ** Zero-sized grids and kernels *)

(** C5, as stated, fails: a kernel whose only row is empty is accepted,
    and the convolution returns a grid. *)
Lemma zero_sized_kernel_accepted :
  Float64.convolve [[1]]%float [[]] = Done [[0]]%float /\
  ~ (forall image kernel : list (list float),
       zeroSized image \/ zeroSized kernel ->
       exists p, Float64.convolve image kernel = Panic p).
Proof.
  split; [reflexivity|]. intros Hfail.
  destruct (Hfail [[1]]%float [[]]) as [p Hp]; [|discriminate Hp].
  right. exists 1, 0. split; [rectangular_by_computation|now right].
Qed.

(** C5, amended.  A grid without rows, or a kernel without rows, stops
    both convolutions with the run-time panic "index out of range", and
    no grid is returned; the combiner stops with the same panic on gradient
    grids without rows or without columns.  Zero columns are no error for
    the convolutions: a grid of [H] empty rows gives [H] empty rows, and a
    kernel of empty rows gives the all-zero grid. *)
Theorem degenerate_dimensions :
  (forall (F : Type) (fzero : F) (fadd fmul : F -> F -> F)
          (kernel : list (list F)) sched numWorkers,
     convolve fzero fadd fmul [] kernel = Panic IndexOutOfRange /\
     convolveParallel fzero fadd fmul sched [] kernel numWorkers
     = Panic IndexOutOfRange) /\
  (forall (F : Type) (fzero : F) (fadd fmul : F -> F -> F)
          (image : list (list F)) sched numWorkers,
     image <> [] ->
     convolve fzero fadd fmul image [] = Panic IndexOutOfRange /\
     convolveParallel fzero fadd fmul sched image [] numWorkers
     = Panic IndexOutOfRange) /\
  (forall gradientY,
     Float64.combineAndNormalize [] gradientY = Panic IndexOutOfRange) /\
  (forall gradientX gradientY height,
     rectangular gradientX height 0 -> rectangular gradientY height 0 ->
     1 <= height ->
     Float64.combineAndNormalize gradientX gradientY = Panic IndexOutOfRange) /\
  (forall (F : Type) (fzero : F) (fadd fmul : F -> F -> F)
          (image kernel : list (list F)) height kHeight kWidth sched numWorkers,
     rectangular image height 0 -> 1 <= height ->
     rectangular kernel kHeight kWidth -> 1 <= kHeight -> 1 <= numWorkers ->
     exists result,
       convolve fzero fadd fmul image kernel = Done result /\
       convolveParallel fzero fadd fmul sched image kernel numWorkers
       = Done result /\
       rectangular result height 0) /\
  (forall (F : Type) (fzero : F) (fadd fmul : F -> F -> F)
          (image kernel : list (list F)) height width kHeight sched numWorkers,
     rectangular image height width -> 1 <= height ->
     rectangular kernel kHeight 0 -> 1 <= kHeight -> 1 <= numWorkers ->
     convolve fzero fadd fmul image kernel
     = Done (uniformGrid height width fzero) /\
     convolveParallel fzero fadd fmul sched image kernel numWorkers
     = Done (uniformGrid height width fzero)).
Proof.
  split; [intros; split; reflexivity|].
  split.
  { intros F fzero fadd fmul [|row0 image] sched numWorkers Himg;
      [contradiction|]. split; reflexivity. }
  split; [intros; reflexivity|].
  split; [intros; now apply combineAndNormalize_no_column with height|].
  split.
  - intros F fzero fadd fmul image kernel height kHeight kWidth sched
      numWorkers Himg Hh Hker HkH HN.
    exists (tabulate height 0
              (convolved fzero fadd fmul image kernel kHeight kWidth)).
    split; [now apply convolve_convolved|].
    split; [now apply convolveParallel_convolved|].
    apply rectangular_tabulate; lia.
  - intros F fzero fadd fmul image kernel height width kHeight sched
      numWorkers Himg Hh Hker HkH HN.
    destruct (first_row image _ _ Himg Hh) as (_ & _ & _ & Hw).
    assert (Hzero : tabulate height width
                      (convolved fzero fadd fmul image kernel kHeight 0)
                    = uniformGrid height width fzero).
    { apply tabulate_ext; [lia|lia|]. intros i j _ _.
      apply convolved_no_column. }
    rewrite <- Hzero. split.
    + now apply convolve_convolved.
    + now apply convolveParallel_convolved.
Qed.

Lemma degenerate_dimensions_witness :
  Float64.convolve [[1]]%float [[]] = Done (uniformGrid 1 1 0%float) /\
  Float64.convolveParallel [0]%nat [[1]]%float [[]] 3
  = Done (uniformGrid 1 1 0%float).
Proof.
  apply (proj2 (proj2 (proj2 (proj2 (proj2 degenerate_dimensions))))
           float 0%float PrimFloat.add PrimFloat.mul [[1]]%float [[]] 1 1 1);
    [rectangular_by_computation|lia|rectangular_by_computation|lia|lia].
Defined.

(** ** Quantisation *)

(** C8, as stated, fails: the code converts with [uint8(...)] and has no
    clamp.  For a value the type cannot represent Go leaves the result to
    the implementation; with the implementation that keeps the low eight
    bits, 300.0 becomes 44 and -1.0 becomes 255. *)
Lemma quantize_not_clamped :
  Float64.float64ArrayToImage Float64.wrapAround [[300; -1]]%float
    = Done (Float64.mkGray [44; 255] 2 2 1) /\
  ~ (forall unrepresentable : float -> Z,
       (forall x, 0 <= unrepresentable x <= 255) ->
       forall v,
         (PrimFloat.ltb v 0 = true -> Float64.uint8 unrepresentable v = 0) /\
         (PrimFloat.ltb 255 v = true -> Float64.uint8 unrepresentable v = 255)).
Proof.
  split; [vm_compute; reflexivity|]. intros Hclamp.
  assert (Hbyte : forall x, 0 <= Float64.wrapAround x <= 255).
  { intros x. unfold Float64.wrapAround.
    destruct (Float64.truncate x) as [n|]; [|lia].
    pose proof (Z.mod_pos_bound n 256 ltac:(lia)). lia. }
  destruct (Hclamp Float64.wrapAround Hbyte 300%float) as [_ H300].
  specialize (H300 eq_refl). vm_compute in H300. discriminate H300.
Qed.

(** C8, amended.  Every cell [v] becomes the sample [uint8(v)], whatever
    the number of workers and their schedule.  The conversion discards the
    fraction and does not round: for [-1 < v < 256] the sample is the
    integer part of [v], which lies in [0, 255]; in particular it is 0 for
    [-1 < v < 0] and 255 for [255 < v < 256].  Outside that interval the
    sample is whatever the implementation makes of an unrepresentable
    value: nothing clamps it. *)
Theorem quantize_truncates :
  (forall unrepresentable v,
     PrimFloat.ltb (-1) v = true -> PrimFloat.ltb v 256 = true ->
     exists n, Float64.truncate v = Some n /\ 0 <= n <= 255 /\
               Float64.uint8 unrepresentable v = n) /\
  (forall unrepresentable v,
     PrimFloat.ltb (-1) v = true -> PrimFloat.ltb v 0 = true ->
     Float64.uint8 unrepresentable v = 0) /\
  (forall unrepresentable v,
     PrimFloat.ltb 255 v = true -> PrimFloat.ltb v 256 = true ->
     Float64.uint8 unrepresentable v = 255) /\
  (forall unrepresentable (data : list (list float)) height width sched
          numWorkers,
     rectangular data height width -> 1 <= height -> 1 <= numWorkers ->
     exists gray,
       Float64.float64ArrayToImage unrepresentable data = Done gray /\
       Float64.float64ArrayToImageParallel unrepresentable sched data numWorkers
       = Done gray /\
       Float64.MaxX gray = width /\ Float64.MaxY gray = height /\
       Float64.Stride gray = width /\
       len (Float64.Pix gray) = width * height /\
       forall y x v, cell data y x = Some v ->
         Float64.Pix gray !! Z.to_nat (y * width + x)
         = Some (Float64.uint8 unrepresentable v)).
Proof.
  split.
  { intros u v Hlo Hhi.
    destruct (truncate_in_range v Hlo Hhi) as (n & Hn & Hrange).
    exists n. split; [exact Hn|]. split; [exact Hrange|].
    unfold Float64.uint8. rewrite Hn.
    destruct (Z.leb_spec 0 n); [|lia]. destruct (Z.leb_spec n 255); [|lia].
    reflexivity. }
  split.
  { intros u v Hlo Hhi. unfold Float64.uint8.
    now rewrite (truncate_below_zero v Hlo Hhi). }
  split.
  { intros u v Hlo Hhi. unfold Float64.uint8.
    now rewrite (truncate_above_255 v Hlo Hhi). }
  intros u data height width sched numWorkers Hdata Hh HN.
  destruct (float64ArrayToImage_quantized u data height width Hdata Hh)
    as (gray & Hseq & Hq).
  destruct (float64ArrayToImageParallel_quantized u data height width Hdata Hh
              sched numWorkers HN) as (gray' & Hpar & Hq').
  assert (gray' = gray) as ->
    by exact (quantized_unique u data height width Hdata Hh gray' gray Hq' Hq).
  exists gray. split; [exact Hseq|]. split; [exact Hpar|].
  destruct Hq as [(HS & HX & HY & HP) Hpix]. tauto.
Qed.

Lemma quantize_truncates_witness :
  Float64.uint8 Float64.wrapAround 0x1.ffccccccccccdp+7%float = 255 /\
  exists gray,
    Float64.float64ArrayToImage Float64.wrapAround
      [[0.5; 0x1.ffccccccccccdp+7]; [2.5; 3.5]]%float = Done gray /\
    Float64.float64ArrayToImageParallel Float64.wrapAround [1; 0]%nat
      [[0.5; 0x1.ffccccccccccdp+7]; [2.5; 3.5]]%float 2 = Done gray.
Proof.
  split.
  - apply (proj1 (proj2 (proj2 quantize_truncates))); reflexivity.
  - destruct (proj2 (proj2 (proj2 quantize_truncates)) Float64.wrapAround
                [[0.5; 0x1.ffccccccccccdp+7]; [2.5; 3.5]]%float 2 2
                [1; 0]%nat 2)
      as (gray & Hseq & Hpar & _);
      [rectangular_by_computation|lia|lia|].
    exists gray. split; [exact Hseq|exact Hpar].
Defined.

(** * Further properties of the programs *)

(** ** Worker counts that start no goroutine *)

Lemma interleaving_nil {E : Type} (sched : list nat) :
  interleaving sched ([] : list (list E)) = [].
Proof. induction sched as [|w sched IH]; [reflexivity|exact IH]. Qed.

(** X1.  [convolveParallel] accepts a negative worker count: the division
    [height / numWorkers] succeeds, the loop over [workerID] starts no
    goroutine, nothing is sent, and the freshly allocated result comes
    back: the [height] x [width] grid of zeros, whatever the image and
    the kernel hold. *)
Theorem convolveParallel_negative_workers {F : Type} (fzero : F)
    (fadd fmul : F -> F -> F) (image kernel : list (list F))
    (height width kHeight kWidth : Z) (sched : list nat) (numWorkers : Z) :
  rectangular image height width -> 1 <= height ->
  rectangular kernel kHeight kWidth -> 1 <= kHeight ->
  numWorkers < 0 ->
  convolveParallel fzero fadd fmul sched image kernel numWorkers
  = Done (uniformGrid height width fzero).
Proof.
  intros Himg Hh Hker HkH HN.
  destruct (width_nonneg image kernel _ _ _ _ Himg Hh Hker HkH) as [Hw HkW].
  destruct (first_row image _ _ Himg Hh) as (row0 & Hrow0 & Hlen0 & _).
  destruct (first_row kernel _ _ Hker HkH) as (krow0 & Hkrow0 & Hklen0 & _).
  pose proof Himg as [Hlen _]. pose proof Hker as [Hklen _].
  pose proof (half_bounds kHeight ltac:(lia)) as [? _].
  pose proof (half_bounds kWidth HkW) as [? _].
  unfold convolveParallel. rewrite Hrow0, Hkrow0. cbn [bind].
  rewrite Hlen, Hlen0, Hklen, Hklen0.
  rewrite padImage_padded by (assumption || lia). cbn [bind].
  rewrite make2_tabulate by lia. cbn [bind].
  unfold quo. destruct (Z.eqb_spec numWorkers 0) as [?|_]; [lia|]. cbn [bind].
  rewrite (range_nil 0 numWorkers) by lia. cbn [fmap list_fmap].
  now rewrite interleaving_nil.
Qed.

Lemma convolveParallel_negative_workers_witness :
  Float64.convolveParallel [0; 1]%nat [[1; 2]; [3; 4]]%float Float64.sobelX (-3)
  = Done [[0; 0]; [0; 0]]%float.
Proof.
  apply (convolveParallel_negative_workers 0%float PrimFloat.add PrimFloat.mul
           _ _ 2 2 3 3);
    [rectangular_by_computation|lia|rectangular_by_computation|lia|lia].
Defined.

(** X2.  The row-partitioned [float64ArrayToImage] with a worker count
    that starts no goroutine: with [numWorkers = 0] it stops at
    [height / numWorkers] (integer divide by zero), after the image has
    been allocated; with a negative count it returns the image as
    [image.NewGray] made it, every sample 0, whatever the data hold. *)
Theorem float64ArrayToImage_no_goroutine (unrepresentable : float -> Z)
    (data : list (list float)) (height width : Z) (sched : list nat) :
  rectangular data height width -> 1 <= height ->
  Float64.float64ArrayToImageParallel unrepresentable sched data 0
  = Panic DivideByZero /\
  forall numWorkers, numWorkers < 0 ->
    Float64.float64ArrayToImageParallel unrepresentable sched data numWorkers
    = Done (Float64.mkGray (replicate (Z.to_nat (width * height)) 0)
              width width height).
Proof.
  intros Hdata Hh.
  destruct (first_row data _ _ Hdata Hh) as (row0 & Hrow0 & Hlen0 & Hw).
  pose proof Hdata as [Hlen _].
  unfold Float64.float64ArrayToImageParallel. rewrite Hrow0. cbn [bind].
  rewrite Hlen, Hlen0. unfold Float64.NewGray.
  rewrite make_replicate by nia. cbn [bind]. split; [reflexivity|].
  intros numWorkers HN.
  unfold quo. destruct (Z.eqb_spec numWorkers 0) as [?|_]; [lia|]. cbn [bind].
  rewrite (range_nil 0 numWorkers) by lia. cbn [fmap list_fmap].
  rewrite interleaving_nil. cbn [run].
  rewrite <- Z.mul_assoc, !Z.mul_1_l. reflexivity.
Qed.

Lemma float64ArrayToImage_no_goroutine_witness :
  Float64.float64ArrayToImageParallel Float64.wrapAround [0]%nat
    [[7; 8]; [9; 10]]%float 0 = Panic DivideByZero /\
  Float64.float64ArrayToImageParallel Float64.wrapAround [0]%nat
    [[7; 8]; [9; 10]]%float (-1) = Done (Float64.mkGray [0; 0; 0; 0] 2 2 2).
Proof.
  destruct (float64ArrayToImage_no_goroutine Float64.wrapAround
              [[7; 8]; [9; 10]]%float 2 2 [0]%nat) as [Hzero Hneg];
    [rectangular_by_computation|lia|].
  split; [exact Hzero|]. apply (Hneg (-1)). lia.
Defined.

(** ** A kernel with a single weight *)

Lemma range_singleton lo : range lo (lo + 1) = [lo].
Proof. rewrite range_cons by lia. now rewrite range_nil by lia. Qed.

Lemma rectangular_fmap {A B : Type} (f : A -> B) (g : list (list A)) h w :
  rectangular g h w -> rectangular ((fun row : list A => f <$> row) <$> g) h w.
Proof.
  intros [Hlen Hrows]. split.
  - unfold len in *. now rewrite length_fmap.
  - apply Forall_fmap. eapply Forall_impl; [exact Hrows|].
    intros row Hrow. cbn. unfold len in *. now rewrite length_fmap.
Qed.

Lemma cell_fmap {A B : Type} (f : A -> B) (g : list (list A)) i j :
  cell ((fun row : list A => f <$> row) <$> g) i j = f <$> cell g i j.
Proof.
  unfold cell. destruct ((i <? 0) || (j <? 0)); [reflexivity|].
  rewrite list_lookup_fmap. destruct (g !! Z.to_nat i) as [row|]; cbn;
    [apply list_lookup_fmap|reflexivity].
Qed.

(** X3.  With a kernel that holds the single weight [k] the half-extents
    are [1/2 = 0]: padding is a plain copy of the image, and every cell
    [v] of the image becomes [0 + v * k]. *)
Theorem convolve_single_weight {F : Type} (fzero : F)
    (fadd fmul : F -> F -> F) (image : list (list F)) (height width : Z)
    (k : F) :
  rectangular image height width -> 1 <= height ->
  padImage fzero image height width (Z.quot 1 2) (Z.quot 1 2) = Done image /\
  convolve fzero fadd fmul image [[k]]
  = Done ((fun row : list F => (fun v => fadd fzero (fmul v k)) <$> row)
            <$> image).
Proof.
  intros Himg Hh.
  destruct (first_row image _ _ Himg Hh) as (_ & _ & _ & Hw).
  split.
  - change (Z.quot 1 2) with 0.
    rewrite padImage_padded by (assumption || lia). f_equal.
    rewrite !Z.add_0_r. symmetry.
    apply rectangular_cells; [lia|lia|exact Himg|]. intros i j Hi Hj.
    pose proof (padded_inside fzero image height width 0 0 i j Himg
                  ltac:(lia) ltac:(lia)) as H.
    now rewrite !Z.sub_0_r in H.
  - rewrite (convolve_convolved fzero fadd fmul image [[k]] height width 1 1)
      by (assumption || lia || rectangular_by_computation).
    f_equal. symmetry.
    apply rectangular_cells; [lia|lia|now apply rectangular_fmap|].
    intros i j Hi Hj. rewrite cell_fmap.
    destruct (rectangular_cell image _ _ i j Himg Hi Hj)
      as (_ & v & _ & _ & _ & Hv).
    rewrite Hv. cbn [fmap option_fmap option_map]. f_equal.
    unfold convolved, weightedSum, padded.
    change (range 0 1) with [0]. cbn [foldl].
    change (Z.quot 1 2) with 0. rewrite !Z.add_0_r, !Z.sub_0_r.
    now rewrite (at_cell fzero image i j v Hv).
Qed.

Lemma convolve_single_weight_witness :
  padImage 0%float [[1; 2]; [3; 4]]%float 2 2 (Z.quot 1 2) (Z.quot 1 2)
  = Done [[1; 2]; [3; 4]]%float /\
  Float64.convolve [[1; 2]; [3; 4]]%float [[2]]%float
  = Done [[2; 4]; [6; 8]]%float.
Proof.
  apply (convolve_single_weight 0%float PrimFloat.add PrimFloat.mul
           [[1; 2]; [3; 4]]%float 2 2 2%float);
    [rectangular_by_computation|lia].
Defined.

(** ** One goroutine per row *)

Lemma stored_row_worker width row :
  omap stored (PerRow.worker width row) = pair row <$> range 0 width.
Proof.
  unfold PerRow.worker. rewrite range_singleton. cbn [fmap list_fmap concat].
  rewrite !omap_app. cbn. rewrite !app_nil_r.
  induction (range 0 width) as [|j l IH]; cbn; [reflexivity|now f_equal].
Qed.

Lemma stored_row_workers width rows :
  omap stored (concat (PerRow.worker width <$> rows)) = cellsOf rows width.
Proof.
  unfold cellsOf. induction rows as [|r rows IH]; [reflexivity|].
  cbn [fmap list_fmap concat]. now rewrite omap_app, IH, stored_row_worker.
Qed.

Lemma elem_of_row_workers sched height width a :
  elem_of a (interleaving sched (PerRow.worker width <$> range 0 height)) <->
  match a with
  | Store i j => 0 <= i < height /\ 0 <= j < width
  | Send row => 0 <= row < height
  end.
Proof.
  rewrite interleaving_Permutation. destruct a as [i j|row].
  - rewrite <- elem_of_range, <- elem_of_cellsOf, <- stored_row_workers.
    rewrite list_elem_of_omap. split.
    + intros H. now exists (Store i j).
    + now intros ([i' j'|w'] & H & [= -> ->]).
  - rewrite elem_of_concat. split.
    + intros (l & Hl & Hw). apply list_elem_of_fmap in Hl as (r & -> & Hr).
      apply elem_of_range in Hr. unfold PerRow.worker in Hw.
      apply elem_of_app in Hw as [Hw|Hw].
      * apply elem_of_concat in Hw as (l & Hl & Hw).
        apply list_elem_of_fmap in Hl as (i & -> & _).
        apply list_elem_of_fmap in Hw as (j & [=] & _).
      * apply list_elem_of_singleton in Hw as [= ->]. exact Hr.
    + intros Hr. exists (PerRow.worker width row). split.
      * apply list_elem_of_fmap. exists row. split; [reflexivity|].
        now apply elem_of_range.
      * unfold PerRow.worker. apply elem_of_app. right. left.
Qed.

(** Sending a row of [result] and copying it onto itself changes
    nothing. *)
Lemma perform_Send_row {F : Type} (fzero : F) (fadd fmul : F -> F -> F)
    (P kernel result : list (list F)) kHeight kWidth row :
  0 <= row < len result ->
  PerRow.perform fzero fadd fmul P kernel kHeight kWidth (Send row) result
  = Done result.
Proof.
  intros Hrow. cbn [PerRow.perform].
  destruct (lookup_lt_is_Some_2 result (Z.to_nat row)) as [r Hr];
    [unfold len in Hrow; lia|].
  rewrite slice_take_drop by lia. cbn [bind].
  replace (Z.to_nat (row + 1 - row)) with 1%nat by lia.
  rewrite (drop_S _ _ _ Hr). cbn [take].
  rewrite take_0. change (index [r] 0) with (Done r). cbn [bind].
  rewrite (index_lookup result row r) by (lia || assumption). cbn [bind].
  rewrite assign_insert by lia. f_equal.
  unfold copy. rewrite firstn_all, drop_all, app_nil_r.
  now apply list_insert_id.
Qed.

(** The one-goroutine-per-row strategy computes the contract. *)
Lemma perRow_convolved {F : Type} (fzero : F)
    (fadd fmul : F -> F -> F) (image kernel : list (list F))
    (height width kHeight kWidth : Z) sched :
  rectangular image height width -> 1 <= height ->
  rectangular kernel kHeight kWidth -> 1 <= kHeight ->
  PerRow.convolveParallel fzero fadd fmul sched image kernel
  = Done (tabulate height width
            (convolved fzero fadd fmul image kernel kHeight kWidth)).
Proof.
  intros Himg Hh Hker HkH.
  set (R := convolved fzero fadd fmul image kernel kHeight kWidth).
  destruct (width_nonneg image kernel _ _ _ _ Himg Hh Hker HkH) as [Hw HkW].
  destruct (first_row image _ _ Himg Hh) as (row0 & Hrow0 & Hlen0 & _).
  destruct (first_row kernel _ _ Hker HkH) as (krow0 & Hkrow0 & Hklen0 & _).
  pose proof Himg as [Hlen _]. pose proof Hker as [Hklen _].
  pose proof (half_bounds kHeight ltac:(lia)) as [? _].
  pose proof (half_bounds kWidth HkW) as [? _].
  unfold PerRow.convolveParallel. rewrite Hrow0, Hkrow0. cbn [bind].
  rewrite Hlen, Hlen0, Hklen, Hklen0.
  rewrite padImage_padded by (assumption || lia). cbn [bind].
  rewrite make2_tabulate by lia. cbn [bind].
  set (paddedImage := tabulate _ _ _).
  set (es := interleaving sched _).
  destruct (run_cells
              (PerRow.perform fzero fadd fmul paddedImage kernel kHeight kWidth)
              stored
              (fun a _ => match a with Store i j => R i j | Send _ => fzero end)
              es (tabulate height width (fun _ _ => fzero)) height width)
    as (g' & Hrun & Hg' & Hin & _).
  - apply rectangular_tabulate; lia.
  - intros a g Ha Hg. apply elem_of_row_workers in Ha.
    destruct a as [i j|row]; cbn [stored].
    + split; [lia|]. split; [lia|]. intros old _.
      now apply convolveCell_assign2.
    + apply perform_Send_row. destruct Hg as [-> _]. exact Ha.
  - unfold es. rewrite interleaving_Permutation, stored_row_workers.
    apply NoDup_cellsOf, NoDup_range.
  - rewrite Hrun. f_equal.
    apply rectangular_cells; [lia|lia|exact Hg'|]. intros i j Hi Hj.
    destruct (Hin (Store i j) i j) as (old & _ & Hnew);
      [|reflexivity|exact Hnew].
    now apply elem_of_row_workers.
Qed.

(** X4.  The strategy of [src/Javascript/maingo.go], one goroutine for
    every row, returns under every schedule the very grid the sequential
    [convolve] returns. *)
Theorem per_row_equals_sequential {F : Type} (fzero : F)
    (fadd fmul : F -> F -> F) (image kernel : list (list F))
    (height width kHeight kWidth : Z) :
  rectangular image height width -> 1 <= height ->
  rectangular kernel kHeight kWidth -> 1 <= kHeight ->
  exists result,
    convolve fzero fadd fmul image kernel = Done result /\
    forall sched,
      PerRow.convolveParallel fzero fadd fmul sched image kernel = Done result.
Proof.
  intros Himg Hh Hker HkH.
  exists (tabulate height width
            (convolved fzero fadd fmul image kernel kHeight kWidth)).
  split; [now apply convolve_convolved|].
  intros sched. now apply perRow_convolved.
Qed.

Lemma per_row_equals_sequential_witness :
  exists result,
    Float64.convolve [[0; 0; 0]; [0; 1; 0]; [0; 0; 0]]%float Float64.sobelY
      = Done result /\
    forall sched,
      PerRow.convolveParallel 0%float PrimFloat.add PrimFloat.mul sched
        [[0; 0; 0]; [0; 1; 0]; [0; 0; 0]]%float Float64.sobelY = Done result.
Proof.
  apply (per_row_equals_sequential 0%float PrimFloat.add PrimFloat.mul
           _ _ 3 3 3 3);
    [rectangular_by_computation|lia|rectangular_by_computation|lia].
Defined.

(** The one-goroutine-per-row quantiser sets every pixel. *)
Lemma perRow_quantized (unrepresentable : float -> Z)
    (data : list (list float)) (height width : Z) sched :
  rectangular data height width -> 1 <= height ->
  forall gray,
    Float64.float64ArrayToImage unrepresentable data = Done gray ->
    PerRow.float64ArrayToImageParallel unrepresentable sched data = Done gray.
Proof.
  intros Hdata Hh gray Hgray.
  destruct (float64ArrayToImage_quantized unrepresentable data height width
              Hdata Hh) as (gray1 & Hseq & Hq).
  assert (gray1 = gray) as -> by congruence.
  destruct (first_row data _ _ Hdata Hh) as (row0 & Hrow0 & Hlen0 & Hw).
  pose proof Hdata as [Hlen _].
  destruct (NewGray_ok data height width Hdata Hh) as (gray0 & Hnew & Hok0).
  unfold PerRow.float64ArrayToImageParallel. rewrite Hrow0. cbn [bind].
  rewrite Hlen, Hlen0, Hnew. cbn [bind].
  destruct (run_setPixel unrepresentable data height width Hdata Hh
              (interleaving sched
                 ((fun y => pair y <$> range 0 width) <$> range 0 height))
              gray0) as (gray' & Hpar & Hq').
  - apply interleaving_Permutation.
  - exact Hok0.
  - rewrite Hpar. f_equal.
    exact (quantized_unique unrepresentable data height width Hdata Hh
             gray' gray Hq' Hq).
Qed.

(** X5.  The quantiser of [src/Javascript/maingo.go], one goroutine for
    every row, returns under every schedule the very image the
    sequential [float64ArrayToImage] returns. *)
Theorem per_row_quantize_equals_sequential (unrepresentable : float -> Z)
    (data : list (list float)) (height width : Z) :
  rectangular data height width -> 1 <= height ->
  exists gray,
    Float64.float64ArrayToImage unrepresentable data = Done gray /\
    forall sched,
      PerRow.float64ArrayToImageParallel unrepresentable sched data = Done gray.
Proof.
  intros Hdata Hh.
  destruct (float64ArrayToImage_quantized unrepresentable data height width
              Hdata Hh) as (gray & Hseq & _).
  exists gray. split; [exact Hseq|]. intros sched.
  now apply (perRow_quantized unrepresentable data height width).
Qed.

Lemma per_row_quantize_equals_sequential_witness :
  exists gray,
    Float64.float64ArrayToImage Float64.wrapAround
      [[0.5; 254.5]; [2.5; 3.5]]%float = Done gray /\
    forall sched,
      PerRow.float64ArrayToImageParallel Float64.wrapAround sched
        [[0.5; 254.5]; [2.5; 3.5]]%float = Done gray.
Proof.
  apply (per_row_quantize_equals_sequential Float64.wrapAround _ 2 2);
    [rectangular_by_computation|lia].
Defined.

(** ** Grids whose rows differ in length *)

Lemma index_fmap {A B : Type} (f : A -> B) (s : list A) i :
  index (f <$> s) i = (x <- index s i ;; Done (f x)).
Proof.
  unfold index. destruct (i <? 0); [reflexivity|].
  rewrite list_lookup_fmap. now destruct (s !! Z.to_nat i).
Qed.

Lemma index_take {A : Type} (row : list A) (n : nat) j :
  j < Z.of_nat n -> index (take n row) j = index row j.
Proof.
  intros Hj. unfold index. destruct (Z.ltb_spec j 0); [reflexivity|].
  now rewrite lookup_take_lt by lia.
Qed.

Lemma for_range_ext {S : Type} (body body' : Z -> S -> outcome S) lo hi s :
  (forall i s, lo <= i < hi -> body i s = body' i s) ->
  for_range lo hi body s = for_range lo hi body' s.
Proof.
  intros H. rewrite !for_range_run. apply run_ext.
  intros i s' Hi. apply H. now apply elem_of_range.
Qed.

Lemma padImage_take {F : Type} (fzero : F) (image : list (list F))
    height width padHeight padWidth :
  padImage fzero (take (Z.to_nat width) <$> image) height width padHeight padWidth
  = padImage fzero image height width padHeight padWidth.
Proof.
  unfold padImage. destruct (make2 fzero _ _) as [P|p]; [|reflexivity].
  cbn [bind]. apply for_range_ext. intros i s Hi.
  apply for_range_ext. intros j s' Hj.
  rewrite index_fmap. destruct (index image i) as [row|p]; [|reflexivity].
  cbn [bind]. now rewrite index_take by lia.
Qed.

Lemma kernelSum_take {F : Type} (fzero : F) (fadd fmul : F -> F -> F)
    (P kernel : list (list F)) kHeight kWidth i j :
  kernelSum fzero fadd fmul P (take (Z.to_nat kWidth) <$> kernel)
    kHeight kWidth i j
  = kernelSum fzero fadd fmul P kernel kHeight kWidth i j.
Proof.
  unfold kernelSum. apply for_range_ext. intros ii s Hii.
  apply for_range_ext. intros jj s' Hjj.
  destruct (index P (i + ii)) as [prow|p]; [|reflexivity]. cbn [bind].
  destruct (index prow (j + jj)) as [v|p]; [|reflexivity]. cbn [bind].
  rewrite index_fmap. destruct (index kernel ii) as [krow|p]; [|reflexivity].
  cbn [bind]. now rewrite index_take by lia.
Qed.

Lemma len_trim {A : Type} (g : list (list A)) : len (trim g) = len g.
Proof.
  destruct g as [|row0 g]; [reflexivity|].
  unfold trim, len. now rewrite length_fmap.
Qed.

Lemma index_trim_first {A : Type} (g : list (list A)) :
  index (trim g) 0 = index g 0.
Proof.
  destruct g as [|row0 g]; [reflexivity|]. cbn. now rewrite firstn_all.
Qed.

Lemma trim_take {A : Type} (g : list (list A)) row0 :
  index g 0 = Done row0 -> trim g = take (Z.to_nat (len row0)) <$> g.
Proof.
  destruct g as [|r g]; [discriminate|]. intros [= ->].
  unfold trim, len. now rewrite Nat2Z.id.
Qed.

Lemma rectangular_trim {A : Type} (g : list (list A)) row0 :
  index g 0 = Done row0 ->
  Forall (fun row => len row0 <= len row) g ->
  rectangular (trim g) (len g) (len row0).
Proof.
  intros Hrow0 Hrows. rewrite (trim_take g row0 Hrow0). split.
  - unfold len. now rewrite length_fmap.
  - apply Forall_fmap. eapply Forall_impl; [exact Hrows|].
    intros row Hrow. cbn. unfold len in *. rewrite length_take. lia.
Qed.

(** X6.  [convolve] and [convolveParallel] never read a cell that lies
    beyond the length of the first row, in the image and in the kernel:
    on every input, rectangular or not, they return what they return
    when those cells are cut off.  When no row is shorter than the first,
    what is left is a rectangular grid: rows longer than the first are
    silently truncated. *)
Theorem convolve_reads_first_row_columns {F : Type} (fzero : F)
    (fadd fmul : F -> F -> F) (image kernel : list (list F)) :
  convolve fzero fadd fmul image kernel
  = convolve fzero fadd fmul (trim image) (trim kernel) /\
  (forall sched numWorkers,
     convolveParallel fzero fadd fmul sched image kernel numWorkers
     = convolveParallel fzero fadd fmul sched (trim image) (trim kernel)
         numWorkers) /\
  (forall row0,
     index image 0 = Done row0 ->
     Forall (fun row => len row0 <= len row) image ->
     rectangular (trim image) (len image) (len row0)).
Proof.
  split; [|split; [intros sched numWorkers|apply rectangular_trim]];
    unfold convolve, convolveParallel;
    rewrite !len_trim, !index_trim_first;
    (destruct (index image 0) as [row0|p] eqn:Hrow0; [|reflexivity]);
    cbn [bind];
    (destruct (index kernel 0) as [krow0|p] eqn:Hkrow0; [|reflexivity]);
    cbn [bind];
    rewrite (trim_take image row0 Hrow0), (trim_take kernel krow0 Hkrow0);
    rewrite padImage_take;
    (destruct (padImage fzero image _ _ _ _) as [P|p]; [|reflexivity]);
    cbn [bind];
    (destruct (make2 fzero _ _) as [result|p]; [|reflexivity]); cbn [bind].
  - apply for_range_ext. intros i s Hi. apply for_range_ext. intros j s' Hj.
    unfold convolveCell. now rewrite kernelSum_take.
  - destruct (quo _ _) as [rowsPerWorker|p]; [|reflexivity]. cbn [bind].
    apply run_ext. intros [i j|w] s _; [|reflexivity].
    cbn [perform]. unfold convolveCell. now rewrite kernelSum_take.
Qed.

Lemma convolve_reads_first_row_columns_witness :
  Float64.convolve [[1; 2]; [3; 4; 5]]%float [[1]; [2; 7]]%float
  = Float64.convolve [[1; 2]; [3; 4]]%float [[1]; [2]]%float /\
  rectangular (trim [[1; 2]; [3; 4; 5]]%float) 2 2.
Proof.
  destruct (convolve_reads_first_row_columns 0%float PrimFloat.add
              PrimFloat.mul [[1; 2]; [3; 4; 5]]%float [[1]; [2; 7]]%float)
    as (Hseq & _ & Hrect).
  split; [exact Hseq|].
  apply (Hrect [1; 2]%float); [reflexivity|].
  repeat constructor; unfold len; cbn; lia.
Defined.

Lemma index_Panic {A : Type} (s : list A) i p :
  index s i = Panic p -> p = IndexOutOfRange.
Proof.
  unfold index. destruct (i <? 0); [now intros [= <-]|].
  destruct (s !! Z.to_nat i); [discriminate|now intros [= <-]].
Qed.

(** A list of actions one of which is bound to panic, the others
    panicking in the same way or not at all, panics. *)
Lemma run_Panic {E S : Type} (ok : S -> Prop) (exec : E -> S -> outcome S)
    es s0 p :
  ok s0 ->
  (forall e s, elem_of e es -> ok s ->
     exec e s = Panic p \/ exists s', exec e s = Done s' /\ ok s') ->
  (exists e, elem_of e es /\ forall s, ok s -> exec e s = Panic p) ->
  run exec es s0 = Panic p.
Proof.
  revert s0. induction es as [|e es IH]; intros s0 Hok Hstep (bad & Hin & Hbad).
  - inversion Hin.
  - cbn [run].
    destruct (Hstep e s0 ltac:(left) Hok) as [Hp|(s' & Hd & Hok')].
    + now rewrite Hp.
    + rewrite Hd. cbn [bind]. apply IH; [exact Hok'| |].
      * intros e' s Hin' Hs. apply Hstep; [now right|exact Hs].
      * exists bad. split; [|exact Hbad].
        apply elem_of_cons in Hin as [->|Hin]; [|exact Hin].
        rewrite (Hbad s0 Hok) in Hd. discriminate Hd.
Qed.

Lemma padImage_short_row {F : Type} (fzero : F) (image : list (list F))
    width padHeight padWidth (i : nat) row :
  0 <= padHeight -> 0 <= padWidth ->
  image !! i = Some row -> len row < width ->
  padImage fzero image (len image) width padHeight padWidth
  = Panic IndexOutOfRange.
Proof.
  intros HpH HpW Hrow Hshort.
  pose proof (lookup_lt_Some _ _ _ Hrow) as Hi.
  assert (Hlen : 0 <= len row) by (unfold len; lia).
  unfold padImage. rewrite make2_tabulate by (unfold len; lia). cbn [bind].
  rewrite for_range_run.
  erewrite run_ext; [|intros i' s _; apply for_range_run].
  rewrite (run_nested (fun i' j' P =>
             row' <- index image i' ;; v <- index row' j' ;;
             assign2 P (i' + padHeight) (j' + padWidth) v)).
  fold (cellsOf (range 0 (len image)) width).
  apply (run_Panic (fun P => rectangular P (len image + 2 * padHeight)
                               (width + 2 * padWidth))).
  - apply rectangular_tabulate; unfold len; lia.
  - intros [i' j'] P Hin HP. apply elem_of_cellsOf in Hin as [Hi' Hj'].
    apply elem_of_range in Hi'.
    destruct (lookup_lt_is_Some_2 image (Z.to_nat i')) as [row' Hrow'];
      [unfold len in Hi'; lia|].
    rewrite (index_lookup image i' row') by (lia || assumption). cbn [bind].
    destruct (index row' j') as [v|p] eqn:Hv.
    + right. cbn [bind].
      destruct (assign2_rectangular P _ _ (i' + padHeight) (j' + padWidth) v HP)
        as (P' & HP' & Hrect & _); [lia|lia|].
      now exists P'.
    + left. cbn [bind]. now rewrite (index_Panic _ _ _ Hv).
  - exists (Z.of_nat i, len row). split.
    + apply elem_of_cellsOf. split; [apply elem_of_range; unfold len; lia|lia].
    + intros P _. rewrite (index_lookup image (Z.of_nat i) row)
        by (lia || now rewrite Nat2Z.id).
      cbn [bind]. unfold index. destruct (Z.ltb_spec (len row) 0); [reflexivity|].
      unfold len. rewrite Nat2Z.id.
      now rewrite (lookup_ge_None_2 row (length row)) by lia.
Qed.

(** X7.  An image one of whose rows is shorter than the first row stops
    [convolve], [convolveParallel] (whatever the worker count) and the
    one-goroutine-per-row [convolveParallel] with the run-time panic
    "index out of range", whatever the kernel: the padding loop reads
    [image[i][j]] for every [j] below the length of the first row. *)
Theorem convolve_short_row {F : Type} (fzero : F) (fadd fmul : F -> F -> F)
    (image kernel : list (list F)) (row0 row : list F) (i : nat) :
  index image 0 = Done row0 -> image !! i = Some row -> len row < len row0 ->
  convolve fzero fadd fmul image kernel = Panic IndexOutOfRange /\
  (forall sched numWorkers,
     convolveParallel fzero fadd fmul sched image kernel numWorkers
     = Panic IndexOutOfRange) /\
  (forall sched,
     PerRow.convolveParallel fzero fadd fmul sched image kernel
     = Panic IndexOutOfRange).
Proof.
  intros Hrow0 Hrow Hshort.
  assert (Hpad : forall krow0 : list F,
             padImage fzero image (len image) (len row0)
               (Z.quot (len kernel) 2) (Z.quot (len krow0) 2)
             = Panic IndexOutOfRange).
  { intros krow0. apply (padImage_short_row fzero image _ _ _ i row);
      try assumption; apply half_bounds; unfold len; lia. }
  repeat split; intros; unfold convolve, convolveParallel,
    PerRow.convolveParallel; rewrite Hrow0; cbn [bind];
    (destruct (index kernel 0) as [krow0|p] eqn:Hk;
       [|now rewrite (index_Panic _ _ _ Hk)]);
    cbn [bind]; now rewrite Hpad.
Qed.

Lemma convolve_short_row_witness :
  Float64.convolve [[1; 2; 3]; [4; 5]]%float Float64.sobelX
  = Panic IndexOutOfRange /\
  (forall sched numWorkers,
     Float64.convolveParallel sched [[1; 2; 3]; [4; 5]]%float Float64.sobelX
       numWorkers = Panic IndexOutOfRange) /\
  (forall sched,
     PerRow.convolveParallel 0%float PrimFloat.add PrimFloat.mul sched
       [[1; 2; 3]; [4; 5]]%float Float64.sobelX = Panic IndexOutOfRange).
Proof.
  apply (convolve_short_row 0%float PrimFloat.add PrimFloat.mul
           [[1; 2; 3]; [4; 5]]%float Float64.sobelX [1; 2; 3]%float
           [4; 5]%float 1%nat);
    [reflexivity|reflexivity|unfold len; cbn; lia].
Defined.
(** ** Gradient grids of different shapes *)

Lemma index_cell {A B : Type} (g : list (list A)) i j (k : A -> outcome B) :
  (row <- index g i ;; v <- index row j ;; k v)
  = match cell g i j with
    | Some v => k v
    | None => Panic IndexOutOfRange
    end.
Proof.
  unfold index, cell. destruct (i <? 0); [reflexivity|]. cbn [orb].
  destruct (g !! Z.to_nat i) as [row|]; cbn [bind].
  - destruct (j <? 0); [reflexivity|]. now destruct (row !! Z.to_nat j).
  - now destruct (j <? 0).
Qed.

(** X8.  [combineAndNormalize] takes its shape from [gradientX] alone and
    reads [gradientY] at the cells of that shape only: a [gradientY] with
    more rows or longer rows gives the same outcome as its part inside
    the shape of [gradientX], and a [gradientY] that lacks one of those
    cells stops the function with the panic "index out of range". *)
Theorem combineAndNormalize_reads_window
    (gradientX gradientY : list (list float)) (height width : Z) :
  rectangular gradientX height width -> 1 <= height ->
  (forall gradientY',
     (forall i j, 0 <= i < height -> 0 <= j < width ->
                  cell gradientY' i j = cell gradientY i j) ->
     Float64.combineAndNormalize gradientX gradientY'
     = Float64.combineAndNormalize gradientX gradientY) /\
  ((exists i j, 0 <= i < height /\ 0 <= j < width /\
                cell gradientY i j = None) ->
   Float64.combineAndNormalize gradientX gradientY = Panic IndexOutOfRange).
Proof.
  intros HgX Hh.
  destruct (first_row gradientX _ _ HgX Hh) as (row0 & Hrow0 & Hlen0 & Hw).
  pose proof HgX as [Hlen _].
  split.
  - intros gradientY' Hwindow.
    unfold Float64.combineAndNormalize, Float64.magnitudeGrid.
    destruct (make [] (len gradientX)) as [edges0|p]; [|reflexivity].
    cbn [bind].
    destruct (for_range 0 (len edges0) _ edges0) as [edges|p]; [|reflexivity].
    cbn [bind]. f_equal. rewrite Hlen.
    apply for_range_ext. intros i s Hi. rewrite Hrow0. cbn [bind].
    rewrite Hlen0. apply for_range_ext. intros j s' Hj.
    destruct (index gradientX i) as [gxi|p]; [|reflexivity]. cbn [bind].
    destruct (index gxi j) as [x|p]; [|reflexivity]. cbn [bind].
    rewrite !index_cell. now rewrite Hwindow.
  - intros (i0 & j0 & Hi0 & Hj0 & Hnone).
    unfold Float64.combineAndNormalize, Float64.magnitudeGrid.
    rewrite Hlen, make_replicate by lia. cbn [bind].
    assert (Halloc :
      for_range 0 (len (replicate (Z.to_nat height) ([] : list float)))
        (fun i edges =>
           gx0 <- index gradientX 0 ;;
           row <- make 0%float (len gx0) ;;
           assign edges i row)
        (replicate (Z.to_nat height) [])
      = Done (tabulate height width (fun _ _ => 0%float))).
    { rewrite <- (make2_tabulate 0%float height width) by lia.
      unfold make2. rewrite make_replicate by lia. cbn [bind].
      rewrite !for_range_run. apply run_ext. intros i s _.
      rewrite Hrow0. cbn [bind]. now rewrite Hlen0. }
    rewrite Halloc. cbn [bind]. clear Halloc.
    rewrite for_range_run.
    erewrite run_ext;
      [|intros i s _; rewrite Hrow0; cbn [bind]; rewrite Hlen0;
        apply for_range_run].
    rewrite (run_nested (fun i j edges =>
               gxi <- index gradientX i ;;
               x <- index gxi j ;;
               gyi <- index gradientY i ;;
               y <- index gyi j ;;
               assign2 edges i j (sqrt (x * x + y * y))%float)).
    fold (cellsOf (range 0 height) width).
    rewrite (run_Panic (fun edges => rectangular edges height width) _ _ _
               IndexOutOfRange); [reflexivity| | |].
    + apply rectangular_tabulate; lia.
    + intros [i j] edges Hij Hedges. apply elem_of_cellsOf in Hij as [Hi Hj].
      apply elem_of_range in Hi.
      destruct (rectangular_cell gradientX _ _ i j HgX Hi Hj)
        as (_ & x & _ & _ & _ & Hx).
      rewrite index_cell, Hx, index_cell.
      destruct (cell gradientY i j) as [y|]; [right|now left].
      destruct (assign2_rectangular edges _ _ i j
                  (sqrt (x * x + y * y))%float Hedges Hi Hj)
        as (edges' & Hedges' & Hrect & _).
      now exists edges'.
    + exists (i0, j0). split.
      * apply elem_of_cellsOf. split; [now apply elem_of_range|exact Hj0].
      * intros edges _.
        destruct (rectangular_cell gradientX _ _ i0 j0 HgX Hi0 Hj0)
          as (_ & x & _ & _ & _ & Hx).
        now rewrite index_cell, Hx, index_cell, Hnone.
Qed.

Lemma combineAndNormalize_reads_window_witness :
  Float64.combineAndNormalize [[3; 0]]%float [[4; 1; 9]; [7; 7; 7]]%float
  = Float64.combineAndNormalize [[3; 0]]%float [[4; 1]]%float /\
  Float64.combineAndNormalize [[3; 0]]%float [[4]]%float
  = Panic IndexOutOfRange.
Proof.
  split.
  - apply (proj1 (combineAndNormalize_reads_window [[3; 0]]%float
                    [[4; 1]]%float 1 2 ltac:(split; [reflexivity|repeat constructor])
                    ltac:(lia))).
    intros i j Hi Hj. assert (i = 0) as -> by lia.
    assert (j = 0 \/ j = 1) as [-> | ->] by lia; reflexivity.
  - apply (proj2 (combineAndNormalize_reads_window [[3; 0]]%float
                    [[4]]%float 1 2 ltac:(split; [reflexivity|repeat constructor])
                    ltac:(lia))).
    exists 0, 1. repeat split; lia.
Defined.

(** ** Goroutines that own their rows *)

Lemma filter_none {E : Type} (P : E -> Prop) `{!forall e, Decision (P e)}
    (l : list E) :
  (forall x, elem_of x l -> ~ P x) -> filter P l = [].
Proof.
  induction l as [|x l IH]; intros Hl; [reflexivity|].
  rewrite filter_cons. destruct (decide (P x)) as [HP|_].
  - now destruct (Hl x ltac:(left)).
  - apply IH. intros y Hy. apply Hl. now right.
Qed.

(** The actions of one goroutine keep their order in every
    interleaving: if the actions that satisfy [P] all belong to the same
    goroutine, they come in the order in which that goroutine performs
    them. *)
Lemma filter_interleaving {E : Type} (P : E -> Prop)
    `{!forall e, Decision (P e)} sched (pending : list (list E)) :
  (forall i j gi gj a b,
     pending !! i = Some gi -> pending !! j = Some gj ->
     elem_of a gi -> elem_of b gj -> P a -> P b -> i = j) ->
  filter P (interleaving sched pending) = filter P (concat pending).
Proof.
  revert pending. induction sched as [|w sched IH]; intros pending Hown;
    [reflexivity|].
  cbn [interleaving].
  destruct (pending !! w) as [[|e rest]|] eqn:Hw; [now apply IH| |now apply IH].
  pose proof (lookup_lt_Some _ _ _ Hw) as Hlt.
  assert (Hown' : forall i j gi gj a b,
             <[w := rest]> pending !! i = Some gi ->
             <[w := rest]> pending !! j = Some gj ->
             elem_of a gi -> elem_of b gj -> P a -> P b -> i = j).
  { assert (Hsub : forall i gi a,
               <[w := rest]> pending !! i = Some gi -> elem_of a gi ->
               exists gi', pending !! i = Some gi' /\ elem_of a gi').
    { intros i gi a Hi Ha. destruct (decide (i = w)) as [->|Hne].
      - rewrite list_lookup_insert_eq in Hi by exact Hlt.
        injection Hi as <-. exists (e :: rest). split; [exact Hw|now right].
      - rewrite list_lookup_insert_ne in Hi by congruence. now exists gi. }
    intros i j gi gj a b Hi Hj Ha Hb HPa HPb.
    destruct (Hsub i gi a Hi Ha) as (gi' & Hi' & Ha').
    destruct (Hsub j gj b Hj Hb) as (gj' & Hj' & Hb').
    exact (Hown i j gi' gj' a b Hi' Hj' Ha' Hb' HPa HPb). }
  assert (Hcat : concat pending
                 = concat (take w pending) ++ (e :: rest)
                   ++ concat (drop (S w) pending)).
  { rewrite <- (take_drop_middle pending w (e :: rest) Hw) at 1.
    now rewrite concat_app. }
  rewrite filter_cons, (IH _ Hown'), Hcat.
  rewrite insert_take_drop by exact Hlt.
  rewrite !concat_app. cbn [concat]. rewrite !filter_app, filter_cons.
  destruct (decide (P e)) as [HPe|HPe]; [|reflexivity].
  assert (Hpre : filter P (concat (take w pending)) = []).
  { apply filter_none. intros a Ha HPa.
    apply elem_of_concat in Ha as (gi & Hgi & Ha).
    apply list_elem_of_lookup in Hgi as (i & Hi).
    apply lookup_take_Some in Hi as [Hi Hilt].
    assert (i = w) by exact (Hown i w gi (e :: rest) a e Hi Hw Ha
                               ltac:(left) HPa HPe).
    lia. }
  now rewrite Hpre.
Qed.

(** A state made of rows, each action working on one row: the rows are
    independent, so the state after a list of actions is, row by row,
    what the actions of that row make of it. *)
Lemma run_rows {R E : Type} (rowOf : E -> Z) (local : E -> R -> outcome R)
    (exec : E -> list R -> outcome (list R)) :
  (forall e s r, 0 <= rowOf e -> s !! Z.to_nat (rowOf e) = Some r ->
     exec e s = (r' <- local e r ;; Done (<[Z.to_nat (rowOf e) := r']> s))) ->
  forall es s final,
    length final = length s ->
    (forall e, elem_of e es -> 0 <= rowOf e < len s) ->
    (forall (y : nat) r, s !! y = Some r ->
       exists r', final !! y = Some r' /\
         run local (filter (fun e => rowOf e = Z.of_nat y) es) r = Done r') ->
    run exec es s = Done final.
Proof.
  intros Hexec es. induction es as [|e es IH]; intros s final Hlen Hrange Hrows.
  - cbn [run]. f_equal. apply list_eq_same_length with (length s);
      [exact Hlen|reflexivity|].
    intros y r r' _ Hr Hr'. destruct (Hrows y r Hr) as (r'' & Hfinal & Hrun).
    cbn in Hrun. congruence.
  - cbn [run]. destruct (Hrange e ltac:(left)) as [H0 Hlt].
    destruct (lookup_lt_is_Some_2 s (Z.to_nat (rowOf e))) as [r0 Hr0];
      [unfold len in Hlt; lia|].
    destruct (Hrows _ r0 Hr0) as (r' & Hfinal & Hrun).
    rewrite filter_cons in Hrun. rewrite Z2Nat.id in Hrun by lia.
    destruct (decide (rowOf e = rowOf e)) as [_|Hne]; [|congruence].
    cbn [run] in Hrun.
    rewrite (Hexec e s r0 H0 Hr0).
    destruct (local e r0) as [r1|p]; [|discriminate Hrun]. cbn [bind] in *.
    apply IH.
    + now rewrite length_insert.
    + intros e' He'. unfold len. rewrite length_insert. apply Hrange. now right.
    + intros y r Hr. destruct (decide (y = Z.to_nat (rowOf e))) as [->|Hne].
      * rewrite list_lookup_insert_eq in Hr by (unfold len in Hlt; lia).
        injection Hr as <-. exists r'. split; [exact Hfinal|].
        now rewrite Z2Nat.id by lia.
      * rewrite list_lookup_insert_ne in Hr by congruence.
        destruct (Hrows y r Hr) as (r'' & Hfinal' & Hrun').
        exists r''. split; [exact Hfinal'|].
        rewrite filter_cons in Hrun'.
        destruct (decide (rowOf e = Z.of_nat y)) as [Heq|_]; [lia|exact Hrun'].
Qed.

(** ** The grid of luminances *)

Lemma omap_Some_fmap {A B : Type} (f : A -> B) (l : list A) :
  omap (fun x => Some (f x)) l = f <$> l.
Proof. induction l as [|x l IH]; cbn; [reflexivity|now f_equal]. Qed.

Lemma lookup_tabulate {A : Type} h w (f : Z -> Z -> A) (y : nat) :
  Z.of_nat y < h ->
  tabulate h w f !! y = Some (f (Z.of_nat y) <$> range 0 w).
Proof.
  intros Hy. unfold tabulate. rewrite list_lookup_fmap.
  now rewrite lookup_range by lia.
Qed.

Lemma filter_fillRows width rows y :
  NoDup rows ->
  filter (fun e => rowOfFill e = y) (concat (fillRow width <$> rows))
  = if decide (elem_of y rows) then fillRow width y else [].
Proof.
  assert (Hsame : forall r, filter (fun e => rowOfFill e = r) (fillRow width r)
                            = fillRow width r).
  { intros r. unfold fillRow. rewrite filter_cons.
    destruct (decide (rowOfFill (Alloc r) = r)) as [_|Hne]; [|now cbn in Hne].
    f_equal. induction (range 0 width) as [|x l IH]; [reflexivity|].
    cbn [fmap list_fmap]. rewrite filter_cons.
    destruct (decide (rowOfFill (Fill r x) = r)) as [_|Hne]; [|now cbn in Hne].
    now f_equal. }
  assert (Hother : forall r, r <> y ->
             filter (fun e => rowOfFill e = y) (fillRow width r) = []).
  { intros r Hr. apply filter_none. intros a Ha. unfold fillRow in Ha.
    apply elem_of_cons in Ha as [->|Ha]; [exact Hr|].
    apply list_elem_of_fmap in Ha as (x & -> & _). exact Hr. }
  induction rows as [|r rows IH]; intros Hnd; [reflexivity|].
  apply NoDup_cons in Hnd as [Hr Hnd].
  cbn [fmap list_fmap concat]. rewrite filter_app, (IH Hnd).
  destruct (decide (r = y)) as [->|Hne].
  - rewrite Hsame. destruct (decide (elem_of y rows)) as [Hin|_]; [contradiction|].
    rewrite app_nil_r. destruct (decide (elem_of y (y :: rows))) as [_|Hnot];
      [reflexivity|]. destruct Hnot. left.
  - rewrite (Hother r Hne). cbn [app].
    destruct (decide (elem_of y rows)) as [Hin|Hnin];
      destruct (decide (elem_of y (r :: rows))) as [Hin'|Hnin'];
      try reflexivity.
    + destruct Hnin'. now right.
    + apply elem_of_cons in Hin' as [->|Hin']; [congruence|contradiction].
Qed.

Lemma elem_of_fillRows width rows a :
  elem_of a (concat (fillRow width <$> rows)) -> elem_of (rowOfFill a) rows.
Proof.
  intros Ha. apply elem_of_concat in Ha as (l & Hl & Ha).
  apply list_elem_of_fmap in Hl as (r & -> & Hr). unfold fillRow in Ha.
  apply elem_of_cons in Ha as [->|Ha]; [exact Hr|].
  now apply list_elem_of_fmap in Ha as (x & -> & _).
Qed.

Section LuminanceFacts.

Variables (img : Image.Image) (pix : Z -> Z -> Image.Color) (width height : Z).
Hypothesis img_width : Image.Dx (Image.Bounds img) = width.
Hypothesis img_height : Image.Dy (Image.Bounds img) = height.
Hypothesis width_nonneg : 0 <= width.
Hypothesis height_nonneg : 0 <= height.
Hypothesis img_At :
  forall x y, 0 <= x < width -> 0 <= y < height ->
              Image.At img x y = Done (pix x y).

Let lum (y x : Z) : float := Image.luminance (Image.red (pix x y)).

Lemma imageToFloat64Array_luminance :
  Sequential.imageToFloat64Array img = Done (tabulate height width lum).
Proof.
  unfold Sequential.imageToFloat64Array. rewrite img_width, img_height.
  rewrite make2_tabulate by lia. cbn [bind].
  rewrite for_range_run.
  erewrite run_ext; [|intros x s _; apply for_range_run].
  rewrite (run_nested (fun x y => readPixel img y x)).
  fold (cellsOf (range 0 width) height).
  destruct (run_cells
              (fun '(x, y) => readPixel img y x)
              (fun e : Z * Z => Some (e.2, e.1))
              (fun e _ => lum e.2 e.1)
              (cellsOf (range 0 width) height)
              (tabulate height width (fun _ _ => 0%float)) height width)
    as (g' & Hrun & Hg' & Hin & _).
  - apply rectangular_tabulate; lia.
  - intros [x y] g Hxy Hg. apply elem_of_cellsOf in Hxy as [Hx Hy].
    apply elem_of_range in Hx. cbn [fst snd].
    split; [lia|]. split; [lia|]. intros old _.
    unfold readPixel. now rewrite img_At by lia.
  - rewrite (omap_Some_fmap (fun e : Z * Z => (e.2, e.1))).
    apply NoDup_fmap_2_strong.
    + intros [x y] [x' y'] _ _ [= -> ->]. reflexivity.
    + apply NoDup_cellsOf, NoDup_range.
  - rewrite Hrun. f_equal.
    apply rectangular_cells; [lia|lia|exact Hg'|]. intros y x Hy Hx.
    destruct (Hin (x, y) y x) as (old & _ & Hnew); [|reflexivity|exact Hnew].
    apply elem_of_cellsOf. split; [now apply elem_of_range|exact Hy].
Qed.

(** What an action does to its row. *)
Let localFill (a : fill) (row : list float) : outcome (list float) :=
  match a with
  | Alloc _ => make 0%float width
  | Fill y x => c <- Image.At img x y ;;
                assign row x (Image.luminance (Image.red c))
  end.

Lemma performFill_local a (s : list (list float)) row :
  0 <= rowOfFill a -> s !! Z.to_nat (rowOfFill a) = Some row ->
  performFill img width a s
  = (row' <- localFill a row ;; Done (<[Z.to_nat (rowOfFill a) := row']> s)).
Proof.
  intros H0 Hrow. pose proof (lookup_lt_Some _ _ _ Hrow) as Hlt.
  destruct a as [y|y x]; cbn [performFill localFill rowOfFill] in *.
  - destruct (make 0%float width) as [row'|p]; [|reflexivity]. cbn [bind].
    apply assign_insert. unfold len. lia.
  - unfold readPixel. destruct (Image.At img x y) as [c|p]; [|reflexivity].
    cbn [bind]. unfold assign2.
    rewrite (index_lookup s y row) by (lia || assumption). cbn [bind].
    destruct (assign row x _) as [row'|p]; [|reflexivity]. cbn [bind].
    apply assign_insert. unfold len. lia.
Qed.

(** The actions of a row, in their order, fill the row. *)
Lemma run_fillRow y row0 :
  0 <= y < height ->
  run localFill (fillRow width y) row0 = Done (lum y <$> range 0 width).
Proof.
  intros Hy. unfold fillRow. cbn [run localFill].
  rewrite make_replicate by lia. cbn [bind].
  destruct (run_stores
              (fun (row : list float) (x : Z) =>
                 if x <? 0 then None else row !! Z.to_nat x)
              (fun row => len row = width)
              localFill
              (fun a => match a with Fill _ x => Some x | Alloc _ => None end)
              (fun a _ => match a with
                          | Fill y x => lum y x
                          | Alloc _ => 0%float
                          end)
              (Fill y <$> range 0 width)
              (replicate (Z.to_nat width) 0%float))
    as (row & Hrun & Hlen & Hin & _).
  - intros a row Ha Hrow. apply list_elem_of_fmap in Ha as (x & -> & Hx).
    apply elem_of_range in Hx. cbn [localFill].
    rewrite img_At by lia. cbn [bind]. rewrite assign_insert by lia.
    eexists. split; [reflexivity|]. unfold len in *. split.
    + now rewrite length_insert.
    + split.
      * destruct (Z.ltb_spec x 0); [lia|].
        destruct (lookup_lt_is_Some_2 row (Z.to_nat x)) as [old Hold]; [lia|].
        exists old. split; [exact Hold|]. apply list_lookup_insert_eq. lia.
      * intros x' Hx'. destruct (Z.ltb_spec x' 0); [reflexivity|].
        apply list_lookup_insert_ne. lia.
  - replace (omap _ (Fill y <$> range 0 width)) with (range 0 width);
      [apply NoDup_range|].
    induction (range 0 width) as [|x l IH]; cbn; [reflexivity|now f_equal].
  - unfold len. rewrite length_replicate. lia.
  - rewrite Hrun. f_equal. unfold len in Hlen.
    apply list_eq_same_length with (Z.to_nat width);
      [now rewrite length_fmap, length_range; f_equal; lia|lia|].
    intros n v v' Hn Hv Hv'.
    destruct (Hin (Fill y (Z.of_nat n)) (Z.of_nat n)) as (old & _ & Hnew);
      [apply list_elem_of_fmap; exists (Z.of_nat n); split;
         [reflexivity|apply elem_of_range; lia]
      |reflexivity|].
    cbn beta in Hnew. destruct (Z.ltb_spec (Z.of_nat n) 0); [lia|].
    rewrite Nat2Z.id in Hnew.
    rewrite list_lookup_fmap, lookup_range in Hv' by lia.
    cbn [fmap option_fmap option_map] in Hv'. rewrite Z.add_0_l in Hv'.
    congruence.
Qed.

(** Goroutines that share the rows among themselves fill the grid,
    whatever the schedule. *)
Lemma run_fill_goroutines sched (goroutines : list (list fill)) :
  concat goroutines = concat (fillRow width <$> range 0 height) ->
  (forall i j gi gj a b,
     goroutines !! i = Some gi -> goroutines !! j = Some gj ->
     elem_of a gi -> elem_of b gj -> rowOfFill a = rowOfFill b -> i = j) ->
  run (performFill img width) (interleaving sched goroutines)
      (replicate (Z.to_nat height) [])
  = Done (tabulate height width lum).
Proof.
  intros Hcat Hown.
  apply (run_rows rowOfFill localFill); [exact performFill_local| | |].
  - unfold tabulate. rewrite length_fmap, length_range, length_replicate.
    f_equal. lia.
  - intros a Ha. rewrite interleaving_Permutation, Hcat in Ha.
    apply elem_of_fillRows, elem_of_range in Ha.
    unfold len. rewrite length_replicate. lia.
  - intros y r Hr. apply lookup_replicate in Hr as [-> Hy].
    exists (lum (Z.of_nat y) <$> range 0 width).
    split; [apply lookup_tabulate; lia|].
    rewrite (filter_interleaving (fun e => rowOfFill e = Z.of_nat y)).
    + rewrite Hcat, filter_fillRows by apply NoDup_range.
      destruct (decide (elem_of (Z.of_nat y) (range 0 height))) as [_|Hnot].
      * apply run_fillRow. lia.
      * destruct Hnot. apply elem_of_range. lia.
    + intros i j gi gj a b Hi Hj Ha Hb HPa HPb.
      apply (Hown i j gi gj a b Hi Hj Ha Hb). congruence.
Qed.

End LuminanceFacts.

Lemma lookup_range_Some lo hi (n : nat) k :
  range lo hi !! n = Some k -> k = lo + Z.of_nat n /\ k < hi.
Proof.
  intros H. pose proof (lookup_lt_Some _ _ _ H) as Hlt.
  rewrite length_range in Hlt.
  rewrite lookup_range in H by lia. injection H as <-. lia.
Qed.

Lemma concat_concat_fmap {A B C : Type} (f : B -> list C) (g : A -> list B)
    (ws : list A) :
  concat ((fun i => concat (f <$> g i)) <$> ws)
  = concat (f <$> concat (g <$> ws)).
Proof.
  induction ws as [|w ws IH]; [reflexivity|].
  cbn [fmap list_fmap concat]. now rewrite fmap_app, concat_app, IH.
Qed.

(** The three conversions return the same grid. *)
Lemma imageToFloat64Array_agree (img : Image.Image)
    (pix : Z -> Z -> Image.Color) (width height : Z) :
  Image.Dx (Image.Bounds img) = width -> Image.Dy (Image.Bounds img) = height ->
  0 <= width -> 0 <= height ->
  (forall x y, 0 <= x < width -> 0 <= y < height ->
               Image.At img x y = Done (pix x y)) ->
  let imageData :=
    tabulate height width (fun y x => Image.luminance (Image.red (pix x y))) in
  Sequential.imageToFloat64Array img = Done imageData /\
  (forall sched numWorkers, 1 <= numWorkers ->
     Partitioned.imageToFloat64Array sched img numWorkers
     = Image.Returned imageData) /\
  (forall sched,
     PerRow.imageToFloat64ArrayParallel sched img = Done imageData).
Proof.
  intros Hwidth Hheight Hw Hh Hat imageData.
  split; [now apply imageToFloat64Array_luminance|]. split.
  - intros sched numWorkers HN. unfold Partitioned.imageToFloat64Array.
    rewrite Hwidth, Hheight, make_replicate by lia.
    destruct (Z.ltb_spec numWorkers 0) as [?|_]; [lia|].
    unfold quo. destruct (Z.eqb_spec numWorkers 0) as [?|_]; [lia|].
    cbn [bind]. unfold Image.lift.
    rewrite (run_fill_goroutines img pix width height); try easy.
    + rewrite concat_concat_fmap. now rewrite concat_workerRows.
    + intros i j gi gj a b Hi Hj Ha Hb Hrow.
      rewrite list_lookup_fmap in Hi, Hj.
      destruct (range 0 numWorkers !! i) as [wi|] eqn:Hwi; [|discriminate].
      destruct (range 0 numWorkers !! j) as [wj|] eqn:Hwj; [|discriminate].
      injection Hi as <-. injection Hj as <-.
      apply lookup_range_Some in Hwi as [-> ?], Hwj as [-> ?].
      apply elem_of_fillRows in Ha, Hb. rewrite Hrow in Ha.
      pose proof (workerRows_disjoint height numWorkers Hh HN
                    (0 + Z.of_nat i) (0 + Z.of_nat j) _
                    ltac:(lia) ltac:(lia) Ha Hb).
      lia.
  - intros sched. unfold PerRow.imageToFloat64ArrayParallel.
    rewrite Hwidth, Hheight, make_replicate by lia. cbn [bind].
    apply (run_fill_goroutines img pix width height); try easy.
    intros i j gi gj a b Hi Hj Ha Hb Hrow.
    rewrite list_lookup_fmap in Hi, Hj.
    destruct (range 0 height !! i) as [yi|] eqn:Hyi; [|discriminate].
    destruct (range 0 height !! j) as [yj|] eqn:Hyj; [|discriminate].
    injection Hi as <-. injection Hj as <-.
    apply lookup_range_Some in Hyi as [-> ?], Hyj as [-> ?].
    assert (Hrows : forall y c, elem_of c (fillRow width y) -> rowOfFill c = y).
    { intros y c Hc. unfold fillRow in Hc.
      apply elem_of_cons in Hc as [->|Hc]; [reflexivity|].
      now apply list_elem_of_fmap in Hc as (x & -> & _). }
    apply Hrows in Ha, Hb. lia.
Qed.





(** ** The range of the luminances *)

Lemma luminance_checked :
  allFrom (Z.to_nat 65536) 0
    (fun r => PrimFloat.leb 0 (Image.luminance r)
              && PrimFloat.leb (Image.luminance r) 1
              && PrimFloat.ltb (Image.luminance r) (Image.luminance (r + 1)))
  = true.
Proof. vm_compute. reflexivity. Qed.

(** X11.  A 16-bit red component [r] becomes [float64(r) / 65535.0]: 0
    becomes 0.0, 65535 becomes 1.0, every value lies in [0, 1], and the
    conversion is strictly increasing, so different components stay
    different. *)
Theorem luminance_unit_interval :
  Image.luminance 0 = 0%float /\ Image.luminance 65535 = 1%float /\
  forall r, 0 <= r <= 65535 ->
    PrimFloat.leb 0 (Image.luminance r) = true /\
    PrimFloat.leb (Image.luminance r) 1 = true /\
    PrimFloat.ltb (Image.luminance r) (Image.luminance (r + 1)) = true.
Proof.
  split; [reflexivity|]. split; [reflexivity|]. intros r Hr.
  pose proof (allFrom_spec _ _ _ r luminance_checked ltac:(lia)) as H.
  cbn beta in H. apply andb_prop in H as [H Hlt].
  apply andb_prop in H as [H0 H1]. auto.
Qed.

Lemma luminance_unit_interval_witness :
  PrimFloat.leb 0 (Image.luminance 32768) = true /\
  PrimFloat.leb (Image.luminance 32768) 1 = true /\
  PrimFloat.ltb (Image.luminance 32768) (Image.luminance (32768 + 1)) = true.
Proof.
  apply (proj2 (proj2 luminance_unit_interval) 32768). lia.
Defined.

(** ** Conversion to gray *)

Lemma NoDup_concat_fmap {A B : Type} (f : A -> list B) (ws : list A) :
  NoDup ws -> (forall w, elem_of w ws -> NoDup (f w)) ->
  (forall w w' e, elem_of w ws -> elem_of w' ws ->
                  elem_of e (f w) -> elem_of e (f w') -> w = w') ->
  NoDup (concat (f <$> ws)).
Proof.
  induction ws as [|w ws IH]; intros Hnd Heach Hdisj; [constructor|].
  apply NoDup_cons in Hnd as [Hw Hnd]. cbn [fmap list_fmap concat].
  apply NoDup_app. split; [apply Heach; left|]. split.
  - intros e He Hin. apply elem_of_concat in Hin as (l & Hl & Hin).
    apply list_elem_of_fmap in Hl as (w' & -> & Hw').
    assert (w = w') as -> by (apply (Hdisj w w' e); try (now right); try left;
                              assumption).
    contradiction.
  - apply IH; [exact Hnd| |].
    + intros w' Hw'. apply Heach. now right.
    + intros w1 w2 e H1 H2. apply Hdisj; now right.
Qed.

Lemma In_spec x y r :
  Image.In x y r = true <->
  Image.MinX r <= x < Image.MaxX r /\ Image.MinY r <= y < Image.MaxY r.
Proof. unfold Image.In. rewrite !andb_true_iff. lia. Qed.

Section GrayFacts.

Variables (img : Image.Image) (pix : Z -> Z -> Image.Color).

Let bounds := Image.Bounds img.
Let width := Image.Dx bounds.
Let height := Image.Dy bounds.

Hypothesis width_nonneg : 0 <= width.
Hypothesis height_nonneg : 0 <= height.
Hypothesis width_int : width < 2 ^ 63.
Hypothesis size_int : width * height < 2 ^ 63.
Hypothesis img_At :
  forall x y, Image.In x y bounds = true -> Image.At img x y = Done (pix x y).

Let offset (x y : Z) : Z :=
  (y - Image.MinY bounds) * width + (x - Image.MinX bounds).

Let ok (g : Image.Gray) : Prop :=
  Image.Rect g = bounds /\ Image.Stride g = width
  /\ len (Image.Pix g) = width * height.

Let converted (g : Image.Gray) : Prop :=
  ok g /\
  forall x y, Image.In x y bounds = true ->
    Image.Pix g !! Z.to_nat (offset x y) = Some (Image.grayModel (pix x y)).

Lemma NewGray_bounds :
  Image.NewGray bounds
  = Image.Returned
      (Image.mkGray (replicate (Z.to_nat (width * height)) 0) width bounds).
Proof.
  unfold Image.NewGray, Image.mul3NonNeg. fold width height.
  destruct (Z.ltb_spec 1 0); [lia|]. destruct (Z.ltb_spec width 0); [lia|].
  destruct (Z.ltb_spec height 0); [lia|]. cbn [orb].
  destruct (Z.leb_spec (2 ^ 64) (1 * width)); [lia|].
  destruct (Z.leb_spec (2 ^ 63) (1 * width * height)); [lia|].
  destruct (Z.ltb_spec (1 * width * height) 0); [nia|].
  rewrite make_replicate by nia. cbn [bind Image.lift].
  now rewrite !Z.mul_1_l.
Qed.

Lemma offset_bounds x y :
  Image.In x y bounds = true -> 0 <= offset x y < width * height.
Proof.
  intros Hin. apply In_spec in Hin. unfold offset, width, height, Image.Dx,
    Image.Dy in *. nia.
Qed.

Lemma offset_inj x y x' y' :
  Image.In x y bounds = true -> Image.In x' y' bounds = true ->
  offset x y = offset x' y' -> (x, y) = (x', y').
Proof.
  intros Hin Hin' Heq. apply In_spec in Hin, Hin'.
  unfold offset, width, height, Image.Dx, Image.Dy in *.
  assert (y = y') by nia. subst y'. f_equal. lia.
Qed.

Lemma convertPixel_insert x y g :
  ok g -> Image.In x y bounds = true ->
  convertPixel img (x, y) g
  = Done (Image.mkGray
            (<[Z.to_nat (offset x y) := Image.grayModel (pix x y)]> (Image.Pix g))
            width bounds).
Proof.
  intros (HR & HS & HP) Hin. pose proof (offset_bounds x y Hin) as Hoff.
  unfold convertPixel. rewrite (img_At x y Hin). cbn [bind].
  unfold Image.Set_, Image.PixOffset. rewrite HR, HS, Hin.
  rewrite Z.mul_1_r. fold (offset x y).
  rewrite assign_insert by lia. reflexivity.
Qed.

(** In whatever order the pixels are converted, the image is the same. *)
Lemma run_convertPixel es g0 :
  NoDup es ->
  (forall x y, elem_of (x, y) es <-> Image.In x y bounds = true) ->
  ok g0 ->
  exists g, run (convertPixel img) es g0 = Done g /\ converted g.
Proof.
  intros Hnd Hes Hok0.
  destruct (run_stores
              (fun (g : Image.Gray) (k : Z * Z) =>
                 if Image.In k.1 k.2 bounds
                 then Image.Pix g !! Z.to_nat (offset k.1 k.2) else None)
              ok (convertPixel img) Some
              (fun e _ => Image.grayModel (pix e.1 e.2))
              es g0)
    as (g & Hrun & Hok & Hin & _).
  - intros [x y] g Hxy Hg. apply Hes in Hxy.
    rewrite (convertPixel_insert x y g Hg Hxy).
    pose proof (offset_bounds x y Hxy) as Hoff.
    destruct Hg as (HR & HS & HP).
    eexists. split; [reflexivity|]. split.
    + unfold ok, len in *. cbn. now rewrite length_insert.
    + cbn [fst snd Image.Pix]. rewrite Hxy. unfold len in HP. split.
      * destruct (lookup_lt_is_Some_2 (Image.Pix g) (Z.to_nat (offset x y)))
          as [old Hold]; [lia|].
        exists old. split; [exact Hold|]. apply list_lookup_insert_eq. lia.
      * intros [x' y'] Hne. cbn [fst snd].
        destruct (Image.In x' y' bounds) eqn:Hin'; [|reflexivity].
        apply list_lookup_insert_ne. intros Heq.
        pose proof (offset_bounds x' y' Hin').
        apply Hne. symmetry. apply offset_inj; [assumption..|lia].
  - now rewrite omap_Some_id.
  - exact Hok0.
  - exists g. split; [exact Hrun|]. split; [exact Hok|].
    intros x y Hxy.
    destruct (Hin (x, y) (x, y)) as (old & _ & Hnew);
      [now apply Hes|reflexivity|].
    cbn [fst snd] in Hnew. now rewrite Hxy in Hnew.
Qed.

(** The samples determine the image. *)
Lemma converted_unique g g' : converted g -> converted g' -> g = g'.
Proof.
  intros [(HR & HS & HP) Hpix] [(HR' & HS' & HP') Hpix'].
  destruct g as [p s r], g' as [p' s' r']. cbn in *. subst.
  f_equal. unfold len in *.
  apply list_eq_same_length with (Z.to_nat (width * height)); [lia|lia|].
  intros n v v' Hn Hv Hv'.
  assert (Hw : 0 < width) by nia.
  pose proof (Z.div_mod (Z.of_nat n) width ltac:(lia)) as Hdm.
  pose proof (Z.mod_pos_bound (Z.of_nat n) width Hw) as Hmod.
  assert (Hdiv : 0 <= Z.of_nat n / width < height).
  { split; [apply Z.div_pos; lia|]. apply Z.div_lt_upper_bound; lia. }
  set (x := Image.MinX bounds + Z.of_nat n mod width).
  set (y := Image.MinY bounds + Z.of_nat n / width).
  assert (Hin : Image.In x y bounds = true).
  { apply In_spec. unfold x, y, width, height, Image.Dx, Image.Dy in *. lia. }
  pose proof (Hpix _ _ Hin) as H1. pose proof (Hpix' _ _ Hin) as H2.
  replace (Z.to_nat (offset x y)) with n in H1, H2
    by (unfold offset, x, y; nia).
  congruence.
Qed.

Lemma convertToGrayscale_converted :
  exists g, Sequential.convertToGrayscale img = Image.Returned g /\ converted g.
Proof.
  unfold Sequential.convertToGrayscale. fold bounds. rewrite NewGray_bounds.
  rewrite for_range_run.
  erewrite run_ext; [|intros x s _; apply for_range_run].
  rewrite (run_nested (fun x y => convertPixel img (x, y))).
  destruct (run_convertPixel
              (concat ((fun x => pair x <$> range (Image.MinY bounds)
                                              (Image.MaxY bounds))
                         <$> range (Image.MinX bounds) (Image.MaxX bounds)))
              (Image.mkGray (replicate (Z.to_nat (width * height)) 0)
                 width bounds))
    as (g & Hrun & Hg).
  - apply NoDup_pairs; [apply NoDup_range|intros _; apply NoDup_range].
  - intros x y. now rewrite elem_of_pairs, !elem_of_range, In_spec.
  - unfold ok, len. cbn. rewrite length_replicate. repeat split. nia.
  - exists g. split; [|exact Hg].
    erewrite run_ext; [rewrite Hrun; reflexivity|]. now intros [x y] s _.
Qed.

Lemma elem_of_grayWorker numWorkers w x y :
  1 <= numWorkers -> 0 <= w < numWorkers ->
  elem_of (x, y)
    (Partitioned.grayWorker bounds numWorkers (Z.quot height numWorkers) w) <->
  Image.MinX bounds <= x < Image.MaxX bounds /\
  elem_of (y - Image.MinY bounds)
    (workerRows height numWorkers (Z.quot height numWorkers) w).
Proof.
  intros HN Hw. unfold Partitioned.grayWorker.
  rewrite elem_of_pairs, !elem_of_range, elem_of_workerRows.
  pose proof (startRow_endRow height numWorkers height_nonneg HN w Hw)
    as (H0 & H1 & H2).
  set (rowsPerWorker := Z.quot height numWorkers) in *. clearbody rowsPerWorker.
  unfold endRow, startRow in *. unfold height, Image.Dy in *.
  destruct (Z.eqb_spec w (numWorkers - 1)); lia.
Qed.

Lemma elem_of_grayWorkers numWorkers x y :
  1 <= numWorkers ->
  elem_of (x, y)
    (concat (Partitioned.grayWorker bounds numWorkers (Z.quot height numWorkers)
               <$> range 0 numWorkers)) <->
  Image.In x y bounds = true.
Proof.
  intros HN. rewrite elem_of_concat, In_spec. split.
  - intros (l & Hl & Hxy). apply list_elem_of_fmap in Hl as (w & -> & Hw).
    apply elem_of_range in Hw.
    apply (elem_of_grayWorker numWorkers w x y HN Hw) in Hxy as [Hx Hy].
    apply elem_of_workerRows in Hy.
    pose proof (startRow_endRow height numWorkers height_nonneg HN w Hw).
    set (rowsPerWorker := Z.quot height numWorkers) in *.
    clearbody rowsPerWorker. unfold height, Image.Dy in *. lia.
  - intros [Hx Hy].
    destruct (workerRows_cover height numWorkers height_nonneg HN
                (y - Image.MinY bounds)) as (w & Hw & Hrow);
      [unfold height, Image.Dy; lia|].
    exists (Partitioned.grayWorker bounds numWorkers
              (Z.quot height numWorkers) w).
    split.
    + apply list_elem_of_fmap. exists w. split; [reflexivity|].
      now apply elem_of_range.
    + now apply elem_of_grayWorker.
Qed.

Lemma NoDup_grayWorkers numWorkers :
  1 <= numWorkers ->
  NoDup (concat (Partitioned.grayWorker bounds numWorkers
                   (Z.quot height numWorkers) <$> range 0 numWorkers)).
Proof.
  intros HN. apply NoDup_concat_fmap.
  - apply NoDup_range.
  - intros w _. unfold Partitioned.grayWorker.
    apply NoDup_pairs; [apply NoDup_range|intros _; apply NoDup_range].
  - intros w w' [x y] Hw Hw' Hin Hin'. apply elem_of_range in Hw, Hw'.
    apply (elem_of_grayWorker numWorkers w x y HN Hw) in Hin as [_ Hy].
    apply (elem_of_grayWorker numWorkers w' x y HN Hw') in Hin' as [_ Hy'].
    exact (workerRows_disjoint height numWorkers height_nonneg HN w w' _
             Hw Hw' Hy Hy').
Qed.

(** The three strategies return the same image. *)
Lemma convertToGrayscale_agree :
  exists g,
    converted g /\
    Sequential.convertToGrayscale img = Image.Returned g /\
    (forall sched numWorkers, 1 <= numWorkers ->
       Partitioned.convertToGrayscale sched img numWorkers = Image.Returned g) /\
    (forall sched, PerRow.convertToGrayscale sched img = Image.Returned g).
Proof.
  destruct convertToGrayscale_converted as (g & Hseq & Hg).
  assert (Hok0 : ok (Image.mkGray (replicate (Z.to_nat (width * height)) 0)
                       width bounds)).
  { unfold ok, len. cbn. rewrite length_replicate. repeat split. nia. }
  exists g. split; [exact Hg|]. split; [exact Hseq|]. split.
  - intros sched numWorkers HN. unfold Partitioned.convertToGrayscale.
    fold bounds. rewrite NewGray_bounds.
    change (Image.MaxY bounds - Image.MinY bounds) with height.
    unfold quo. destruct (Z.eqb_spec numWorkers 0) as [?|_]; [lia|].
    cbn [bind].
    destruct (run_convertPixel
                (interleaving sched
                   (Partitioned.grayWorker bounds numWorkers
                      (Z.quot height numWorkers) <$> range 0 numWorkers))
                (Image.mkGray (replicate (Z.to_nat (width * height)) 0)
                   width bounds)) as (g' & Hrun & Hg'); [| |exact Hok0|].
    + rewrite interleaving_Permutation. now apply NoDup_grayWorkers.
    + intros x y. rewrite interleaving_Permutation.
      now apply elem_of_grayWorkers.
    + rewrite Hrun. cbn [Image.lift]. f_equal.
      exact (converted_unique g' g Hg' Hg).
  - intros sched. unfold PerRow.convertToGrayscale.
    fold bounds. rewrite NewGray_bounds.
    destruct (run_convertPixel
                (interleaving sched
                   ((fun x => pair x <$> range (Image.MinY bounds)
                                           (Image.MaxY bounds))
                      <$> range (Image.MinX bounds) (Image.MaxX bounds)))
                (Image.mkGray (replicate (Z.to_nat (width * height)) 0)
                   width bounds)) as (g' & Hrun & Hg'); [| |exact Hok0|].
    + rewrite interleaving_Permutation.
      apply NoDup_pairs; [apply NoDup_range|intros _; apply NoDup_range].
    + intros x y. rewrite interleaving_Permutation.
      now rewrite elem_of_pairs, !elem_of_range, In_spec.
    + rewrite Hrun. cbn [Image.lift]. f_equal.
      exact (converted_unique g' g Hg' Hg).
Qed.

End GrayFacts.

Lemma grayModel_byte c : 0 <= Image.grayModel c <= 255.
Proof.
  unfold Image.grayModel.
  pose proof (Z.mod_pos_bound
                (Z.shiftr ((19595 * Image.red c + 38470 * Image.green c
                            + 7471 * Image.blue c + Z.shiftl 1 15) mod 2 ^ 32) 24)
                256 ltac:(lia)).
  lia.
Qed.







(** ** Gray images *)

Lemma gray_checked :
  allFrom 256 0
    (fun v => (Image.grayModel (Image.grayRGBA v) =? v)
              && (Image.red (Image.grayRGBA v) =? 257 * v))
  = true.
Proof. vm_compute. reflexivity. Qed.

Lemma grayModel_grayRGBA v :
  0 <= v <= 255 ->
  Image.grayModel (Image.grayRGBA v) = v /\
  Image.red (Image.grayRGBA v) = 257 * v.
Proof.
  intros Hv. pose proof (allFrom_spec _ _ _ v gray_checked ltac:(lia)) as H.
  cbn beta in H. apply andb_prop in H as [H1 H2]. lia.
Qed.



(** ** From the decoded image to [imageData] *)



(** The grid of a picture that is converted to gray first. *)
Lemma imageData_gray (img : Image.Image) (pix : Z -> Z -> Image.Color) :
  let bounds := Image.Bounds img in
  let width := Image.Dx bounds in
  let height := Image.Dy bounds in
  0 <= width -> 0 <= height -> width < 2 ^ 63 -> width * height < 2 ^ 63 ->
  (forall x y, Image.In x y bounds = true ->
               Image.At img x y = Done (pix x y)) ->
  let imageData :=
    tabulate height width
      (fun y x => if Image.In x y bounds
                  then Image.luminance (257 * Image.grayModel (pix x y))
                  else 0%float) in
  (forall sched sched' numWorkers, 1 <= numWorkers ->
     Partitioned.imageData sched sched' img numWorkers
     = Image.Returned imageData) /\
  (forall c0, Image.At img 0 0 = Done c0 -> Image.alpha c0 <> 65535 ->
     Sequential.imageData img = Image.Returned imageData /\
     forall sched sched',
       PerRow.imageData sched sched' img = Image.Returned imageData).
Proof.
  intros bounds width height Hw Hh Hwi Hsi Hat imageData.
  destruct (convertToGrayscale_agree img pix Hw Hh Hwi Hsi Hat)
    as (gray & [(HR & HS & HP) Hpix] & Hseq & Hpar & Hcol).
  set (pix' := fun x y =>
         if Image.In x y bounds
         then Image.grayRGBA (Image.grayModel (pix x y))
         else Image.grayRGBA 0).
  assert (Hat' : forall x y, 0 <= x < width -> 0 <= y < height ->
            Image.At (Image.asImage gray) x y = Done (pix' x y)).
  { intros x y _ _. cbn [Image.asImage Image.At]. unfold Image.GrayAt, pix'.
    rewrite HR. fold bounds. destruct (Image.In x y bounds) eqn:Hin;
      [|reflexivity].
    specialize (Hpix x y Hin). apply In_spec in Hin.
    unfold Image.PixOffset. rewrite HR, HS, Z.mul_1_r. fold bounds width.
    assert (H0 : 0 <= (y - Image.MinY bounds) * width + (x - Image.MinX bounds))
      by nia.
    now rewrite (index_lookup _ _ _ H0 Hpix). }
  assert (Hgrid : tabulate height width
                    (fun y x => Image.luminance (Image.red (pix' x y)))
                  = imageData).
  { apply tabulate_ext; [lia|lia|]. intros y x _ _. unfold pix'.
    destruct (Image.In x y bounds); [|reflexivity].
    now rewrite (proj2 (grayModel_grayRGBA _ (grayModel_byte (pix x y)))). }
  destruct (imageToFloat64Array_agree (Image.asImage gray) pix' width height)
    as (Hseq' & Hpar' & Hrow');
    [cbn [Image.asImage Image.Bounds]; now rewrite HR
    |cbn [Image.asImage Image.Bounds]; now rewrite HR|lia|lia|exact Hat'|].
  rewrite Hgrid in Hseq', Hpar', Hrow'.
  split.
  - intros sched sched' numWorkers HN. unfold Partitioned.imageData.
    rewrite (Hpar sched numWorkers HN). now apply Hpar'.
  - intros c0 H00 Halpha.
    assert (Hcolor : Sequential.isColorImage img = Done true).
    { unfold Sequential.isColorImage. rewrite H00. cbn [bind].
      now destruct (Z.eqb_spec (Image.alpha c0) 65535). }
    split.
    + unfold Sequential.imageData. now rewrite Hcolor, Hseq, Hseq'.
    + intros sched sched'. unfold PerRow.imageData.
      now rewrite Hcolor, (Hcol sched), (Hrow' sched').
Qed.



(** ** From [imageData] to the image of the edges *)

Lemma sobel_rectangular :
  rectangular Float64.sobelX 3 3 /\ rectangular Float64.sobelY 3 3.
Proof. split; (split; [reflexivity|repeat constructor]). Qed.

(** The three programs return the same image. *)
Lemma edgeImg_agree (unrepresentable : float -> Z)
    (imageData : list (list float)) (height width : Z) :
  rectangular imageData height width -> 1 <= height -> 1 <= width ->
  exists gray,
    Sequential.edgeImg unrepresentable imageData = Done gray /\
    (forall schedX schedY sched numWorkers, 1 <= numWorkers ->
       Partitioned.edgeImg unrepresentable schedX schedY sched imageData
         numWorkers = Done gray) /\
    (forall schedX schedY sched,
       PerRow.edgeImg unrepresentable schedX schedY sched imageData
       = Done gray) /\
    Float64.MaxX gray = width /\ Float64.MaxY gray = height /\
    len (Float64.Pix gray) = width * height.
Proof.
  intros Hdata Hh Hw. destruct sobel_rectangular as [HsX HsY].
  set (gX := tabulate height width
               (convolved 0%float PrimFloat.add PrimFloat.mul imageData
                  Float64.sobelX 3 3)).
  set (gY := tabulate height width
               (convolved 0%float PrimFloat.add PrimFloat.mul imageData
                  Float64.sobelY 3 3)).
  assert (HgX : rectangular gX height width)
    by (apply rectangular_tabulate; lia).
  assert (HgY : rectangular gY height width)
    by (apply rectangular_tabulate; lia).
  pose proof (combineAndNormalize_rescale gX gY height width HgX HgY Hh Hw)
    as Hedges. cbv zeta in Hedges.
  set (edges := tabulate height width _) in Hedges.
  assert (Hrect : rectangular edges height width)
    by (apply rectangular_tabulate; lia).
  destruct (float64ArrayToImage_quantized unrepresentable edges height width
              Hrect Hh) as (gray & Hseq & Hq).
  exists gray. split; [|split; [|split]].
  - unfold Sequential.edgeImg, Float64.convolve.
    rewrite (convolve_convolved _ _ _ imageData Float64.sobelX height width 3 3)
      by (assumption || lia).
    cbn [bind].
    rewrite (convolve_convolved _ _ _ imageData Float64.sobelY height width 3 3)
      by (assumption || lia).
    cbn [bind]. fold gX gY. rewrite Hedges. cbn [bind]. exact Hseq.
  - intros schedX schedY sched numWorkers HN.
    unfold Partitioned.edgeImg, Float64.convolveParallel.
    rewrite (convolveParallel_convolved _ _ _ imageData Float64.sobelX
               height width 3 3) by (assumption || lia).
    cbn [bind].
    rewrite (convolveParallel_convolved _ _ _ imageData Float64.sobelY
               height width 3 3) by (assumption || lia).
    cbn [bind]. fold gX gY. rewrite Hedges. cbn [bind].
    destruct (float64ArrayToImageParallel_quantized unrepresentable edges
                height width Hrect Hh sched numWorkers HN)
      as (gray' & Hpar & Hq').
    rewrite Hpar. f_equal.
    exact (quantized_unique unrepresentable edges height width Hrect Hh
             gray' gray Hq' Hq).
  - intros schedX schedY sched. unfold PerRow.edgeImg.
    rewrite (perRow_convolved _ _ _ imageData Float64.sobelX height width 3 3)
      by (assumption || lia).
    cbn [bind].
    rewrite (perRow_convolved _ _ _ imageData Float64.sobelY height width 3 3)
      by (assumption || lia).
    cbn [bind]. fold gX gY. rewrite Hedges. cbn [bind].
    now apply (perRow_quantized unrepresentable edges height width).
  - destruct Hq as [(HS & HX & HY & HP) _]. tauto.
Qed.

(** X18.  For every rectangular [imageData] with at least one row and
    one column the stages of [main] fit together: the gradients have the
    shape the combiner expects, the combined grid the shape the quantiser
    expects, and nothing panics.  The sequential program, the
    row-partitioned program (for every [numWorkers >= 1]) and the
    one-goroutine-per-row program return the same image, of the size of
    [imageData], under every schedule of their goroutines. *)
Theorem edgeImg_pipeline (unrepresentable : float -> Z)
    (imageData : list (list float)) (height width : Z) :
  rectangular imageData height width -> 1 <= height -> 1 <= width ->
  exists gray,
    Sequential.edgeImg unrepresentable imageData = Done gray /\
    (forall schedX schedY sched numWorkers, 1 <= numWorkers ->
       Partitioned.edgeImg unrepresentable schedX schedY sched imageData
         numWorkers = Done gray) /\
    (forall schedX schedY sched,
       PerRow.edgeImg unrepresentable schedX schedY sched imageData
       = Done gray) /\
    Float64.MaxX gray = width /\ Float64.MaxY gray = height /\
    len (Float64.Pix gray) = width * height.
Proof. exact (edgeImg_agree unrepresentable imageData height width). Qed.

Lemma edgeImg_pipeline_witness :
  exists gray,
    Sequential.edgeImg Float64.wrapAround [[0; 1]; [0; 1]]%float = Done gray /\
    (forall schedX schedY sched numWorkers, 1 <= numWorkers ->
       Partitioned.edgeImg Float64.wrapAround schedX schedY sched
         [[0; 1]; [0; 1]]%float numWorkers = Done gray) /\
    (forall schedX schedY sched,
       PerRow.edgeImg Float64.wrapAround schedX schedY sched
         [[0; 1]; [0; 1]]%float = Done gray) /\
    Float64.MaxX gray = 2 /\ Float64.MaxY gray = 2 /\
    len (Float64.Pix gray) = 2 * 2.
Proof.
  apply (edgeImg_pipeline Float64.wrapAround [[0; 1]; [0; 1]]%float 2 2);
    [split; [reflexivity|repeat constructor]|lia|lia].
Defined.

(** X19.  An [imageData] without rows or without columns stops the three
    programs with the panic "index out of range": without rows at
    [image[0]] in the first convolution, without columns at
    [edges[0][0]] once the gradients, grids of empty rows, have been
    combined. *)
Theorem edgeImg_empty (unrepresentable : float -> Z)
    (imageData : list (list float)) (height width : Z) :
  rectangular imageData height width -> height = 0 \/ width = 0 ->
  Sequential.edgeImg unrepresentable imageData = Panic IndexOutOfRange /\
  (forall schedX schedY sched numWorkers, 1 <= numWorkers ->
     Partitioned.edgeImg unrepresentable schedX schedY sched imageData
       numWorkers = Panic IndexOutOfRange) /\
  (forall schedX schedY sched,
     PerRow.edgeImg unrepresentable schedX schedY sched imageData
     = Panic IndexOutOfRange).
Proof.
  intros Hdata Hzero. destruct sobel_rectangular as [HsX HsY].
  destruct (decide (height = 0)) as [->|Hh].
  - destruct Hdata as [Hlen _]. destruct imageData as [|row rest];
      [|unfold len in Hlen; cbn in Hlen; lia].
    repeat split; reflexivity.
  - destruct Hzero as [? | ->]; [contradiction|].
    assert (Hrows : 1 <= height).
    { destruct Hdata as [Hlen _]. unfold len in Hlen. lia. }
    set (gX := tabulate height 0
                 (convolved 0%float PrimFloat.add PrimFloat.mul imageData
                    Float64.sobelX 3 3)).
    set (gY := tabulate height 0
                 (convolved 0%float PrimFloat.add PrimFloat.mul imageData
                    Float64.sobelY 3 3)).
    assert (HgX : rectangular gX height 0)
      by (apply rectangular_tabulate; lia).
    assert (HgY : rectangular gY height 0)
      by (apply rectangular_tabulate; lia).
    pose proof (combineAndNormalize_no_column gX gY height HgX HgY Hrows)
      as Hedges.
    split; [|split].
    + unfold Sequential.edgeImg, Float64.convolve.
      rewrite (convolve_convolved _ _ _ imageData Float64.sobelX height 0 3 3)
        by (assumption || lia).
      cbn [bind].
      rewrite (convolve_convolved _ _ _ imageData Float64.sobelY height 0 3 3)
        by (assumption || lia).
      cbn [bind]. fold gX gY. now rewrite Hedges.
    + intros schedX schedY sched numWorkers HN.
      unfold Partitioned.edgeImg, Float64.convolveParallel.
      rewrite (convolveParallel_convolved _ _ _ imageData Float64.sobelX
                 height 0 3 3) by (assumption || lia).
      cbn [bind].
      rewrite (convolveParallel_convolved _ _ _ imageData Float64.sobelY
                 height 0 3 3) by (assumption || lia).
      cbn [bind]. fold gX gY. now rewrite Hedges.
    + intros schedX schedY sched. unfold PerRow.edgeImg.
      rewrite (perRow_convolved _ _ _ imageData Float64.sobelX height 0 3 3)
        by (assumption || lia).
      cbn [bind].
      rewrite (perRow_convolved _ _ _ imageData Float64.sobelY height 0 3 3)
        by (assumption || lia).
      cbn [bind]. fold gX gY. now rewrite Hedges.
Qed.

Lemma edgeImg_empty_witness :
  Sequential.edgeImg Float64.wrapAround [[]; []] = Panic IndexOutOfRange /\
  (forall schedX schedY sched numWorkers, 1 <= numWorkers ->
     Partitioned.edgeImg Float64.wrapAround schedX schedY sched [[]; []]
       numWorkers = Panic IndexOutOfRange) /\
  (forall schedX schedY sched,
     PerRow.edgeImg Float64.wrapAround schedX schedY sched [[]; []]
     = Panic IndexOutOfRange).
Proof.
  apply (edgeImg_empty Float64.wrapAround [[]; []] 2 0);
    [split; [reflexivity|repeat constructor]|now right].
Defined.

(** ** The programs between loading and saving *)

(** X20.  For a picture with at least one column and one row the [main]
    of [src/unnamed/part_000] returns an image of the size of the picture
    without any panic, and the same image for every worker count
    [numWorkers >= 1] and every schedule of the goroutines of its five
    parallel stages.  When the pixel [(0, 0)] is not fully opaque, so that
    they convert the picture to gray as well, the sequential [main] and
    the [main] of [src/Javascript/maingo.go] return that very image. *)
Theorem main_output (unrepresentable : float -> Z) (img : Image.Image)
    (pix : Z -> Z -> Image.Color) :
  let bounds := Image.Bounds img in
  let width := Image.Dx bounds in
  let height := Image.Dy bounds in
  1 <= width -> 1 <= height -> width < 2 ^ 63 -> width * height < 2 ^ 63 ->
  (forall x y, Image.In x y bounds = true ->
               Image.At img x y = Done (pix x y)) ->
  exists edgeImg,
    (forall schedGray schedData schedX schedY sched numWorkers,
       1 <= numWorkers ->
       Partitioned.main unrepresentable schedGray schedData schedX schedY sched
         img numWorkers = Image.Returned edgeImg) /\
    (forall c0, Image.At img 0 0 = Done c0 -> Image.alpha c0 <> 65535 ->
       Sequential.main unrepresentable img = Image.Returned edgeImg /\
       forall schedGray schedData schedX schedY sched,
         PerRow.main unrepresentable schedGray schedData schedX schedY sched
           img = Image.Returned edgeImg) /\
    Float64.MaxX edgeImg = width /\ Float64.MaxY edgeImg = height /\
    len (Float64.Pix edgeImg) = width * height.
Proof.
  intros bounds width height Hw Hh Hwi Hsi Hat.
  destruct (imageData_gray img pix ltac:(fold bounds width; lia)
              ltac:(fold bounds height; lia) Hwi Hsi Hat) as [Hpar Hseq].
  set (data := tabulate _ _ _) in Hpar, Hseq.
  assert (Hdata : rectangular data height width)
    by (apply rectangular_tabulate; lia).
  destruct (edgeImg_agree unrepresentable data height width Hdata Hh Hw)
    as (edgeImg & Eseq & Epar & Erow & Hdims).
  exists edgeImg. split; [|split; [|exact Hdims]].
  - intros schedGray schedData schedX schedY sched numWorkers HN.
    unfold Partitioned.main.
    rewrite (Hpar schedGray schedData numWorkers HN).
    now rewrite (Epar schedX schedY sched numWorkers HN).
  - intros c0 H00 Halpha. destruct (Hseq c0 H00 Halpha) as [Hs Hr]. split.
    + unfold Sequential.main. now rewrite Hs, Eseq.
    + intros schedGray schedData schedX schedY sched. unfold PerRow.main.
      now rewrite (Hr schedGray schedData), (Erow schedX schedY sched).
Qed.

Lemma main_output_witness :
  let img := Image.mkImage (Image.mkRectangle 0 0 2 2)
               (fun x y => Done (Image.mkColor (65535 * x) (65535 * x)
                                   (65535 * x) 0)) in
  exists edgeImg,
    (forall schedGray schedData schedX schedY sched numWorkers,
       1 <= numWorkers ->
       Partitioned.main Float64.wrapAround schedGray schedData schedX schedY
         sched img numWorkers = Image.Returned edgeImg) /\
    (forall c0, Image.At img 0 0 = Done c0 -> Image.alpha c0 <> 65535 ->
       Sequential.main Float64.wrapAround img = Image.Returned edgeImg /\
       forall schedGray schedData schedX schedY sched,
         PerRow.main Float64.wrapAround schedGray schedData schedX schedY sched
           img = Image.Returned edgeImg) /\
    Float64.MaxX edgeImg = 2 /\ Float64.MaxY edgeImg = 2 /\
    len (Float64.Pix edgeImg) = 2 * 2.
Proof.
  apply (main_output Float64.wrapAround
           (Image.mkImage (Image.mkRectangle 0 0 2 2)
              (fun x y => Done (Image.mkColor (65535 * x) (65535 * x)
                                  (65535 * x) 0)))
           (fun x y => Image.mkColor (65535 * x) (65535 * x) (65535 * x) 0));
    [unfold Image.Dx; cbn; lia|unfold Image.Dy; cbn; lia
    |unfold Image.Dx; cbn; lia|unfold Image.Dx, Image.Dy; cbn; lia
    |reflexivity].
Defined.
